(** * Argparser.h: a shallow embedding of the option parser of Bud

    The parser handle [Argparser], the caller's [argv] array and the
    destination variables are threaded through a small state-and-exit monad.
    Every [exit()] and failed [assert()] of the C code ends the computation
    with a [termination] value, together with the state reached at that point.

    Modelling choices:
    - the caller's [argv] array is [mem], a list of pointers ([None] is
      NULL); [self->argv] and [self->out] are indices into it;
    - destinations ([void *value]) are addresses [nat] into a typed store;
    - [strtol] is glibc's [strtol] on an LP64 platform (64-bit [long], 32-bit
      [int] with wrap-around on the assignment [*(int * )value = strtol(...)]);
    - [strtof] is left abstract (Section variable): no claim depends on it;
    - user callbacks are an environment indexed by callback id; they see the
      option and the program's variables, may change the latter or exit, and
      do not touch the parser state (spec §5: they never re-enter [parse]);
    - text printed to stdout/stderr is not modelled, only which exit happens;
    - [assert] is enabled (no NDEBUG). *)

From Stdlib Require Import String Ascii List ZArith Bool Lia.
Import ListNotations.
Open Scope Z_scope.

(** ** Data model *)

Inductive ArgparserOptionType :=
| ARGPARSER_TYPE_END
| ARGPARSER_TYPE_GROUP
| ARGPARSER_TYPE_BOOLEAN
| ARGPARSER_TYPE_INTEGER
| ARGPARSER_TYPE_FLOAT
| ARGPARSER_TYPE_STRING.

(** The callback pointer: either the library's [Argparser_exitForHelp] or a
    user function, named by an id. *)
Inductive Argparser_callback :=
| Argparser_exitForHelp
| UserCallback (id : nat).

(** [struct ArgparserOption]; a [shortName] of 0 is [Ascii.zero]. *)
Record ArgparserOption := mkOption {
  type : ArgparserOptionType;
  shortName : ascii;
  longName : option string;
  value : option nat;
  help : option string;
  callback : option Argparser_callback
}.

(** [struct Argparser]; the pointers [argv] and [out] are indices into the
    caller's argument array. *)
Record Argparser := mkArgparser {
  valid : bool;
  options : list ArgparserOption;
  usage : option string;
  description : option string;
  epilog : option string;
  stopAtNonOption : bool;
  argc : Z;
  argv : nat;
  out : nat;
  cpidx : nat
}.

(** Contents of a destination variable. *)
Inductive cell :=
| Uninit
| CBool (b : bool)
| CInt (i : Z)
| CFloat (bits : Z)
| CStr (s : string).

Definition store := nat -> cell.

Definition store_write (st : store) (d : nat) (c : cell) : store :=
  fun d' => if Nat.eqb d' d then c else st d'.

(** How the process ends. *)
Inductive termination :=
| UnknownOption (arg : string)                      (* exitDueToUnknownOption *)
| InvalidValue (opt : ArgparserOption) (reason : string)  (* exitDueToError *)
| HelpRequested                                     (* exitForHelp: exit(0) *)
| ExitCode (code : Z)                               (* exit() from a user callback *)
| AssertionFailure (expr : string)                  (* failed assert(expr) *)
| Undefined.                                        (* undefined behaviour *)

(** What a user callback does. *)
Inductive cb_result :=
| CbReturn (st : store)
| CbExitDueToError (reason : string)
| CbExit (code : Z).

Record world := mkWorld {
  self : Argparser;
  mem : list (option string);
  vars : store
}.

(** ** The state-and-exit monad *)

Inductive result (A : Type) :=
| Ok (a : A) (w : world)
| Exit (t : termination) (w : world).
Arguments Ok {A} a w.
Arguments Exit {A} t w.

Definition M (A : Type) := world -> result A.

Definition ret {A} (a : A) : M A := fun w => Ok a w.
Definition bind {A B} (m : M A) (f : A -> M B) : M B :=
  fun w => match m w with Ok a w' => f a w' | Exit t w' => Exit t w' end.
Definition exit_ {A} (t : termination) : M A := fun w => Exit t w.

Declare Scope m_scope.
Notation "x <- m ;; k" := (bind m (fun x => k))
  (at level 61, m at next level, right associativity) : m_scope.
Notation "m ;; k" := (bind m (fun _ => k))
  (at level 61, right associativity) : m_scope.
Open Scope m_scope.

Definition get_self : M Argparser := fun w => Ok (self w) w.
Definition put_self (s : Argparser) : M unit :=
  fun w => Ok tt (mkWorld s (mem w) (vars w)).
Definition write_var (d : nat) (c : cell) : M unit :=
  fun w => Ok tt (mkWorld (self w) (mem w) (store_write (vars w) d c)).

(** Reading [self->argv[k]] and dereferencing it. *)
Definition argv_at (k : nat) : M string :=
  fun w => match nth_error (mem w) (argv (self w) + k) with
           | Some (Some a) => Ok a w
           | _ => Exit Undefined w
           end.

(** Writing one slot of the caller's array. *)
Definition write_mem (i : nat) (p : option string) : M unit :=
  fun w => if Nat.ltb i (length (mem w))
           then Ok tt (mkWorld (self w)
                  (firstn i (mem w) ++ p :: skipn (S i) (mem w)) (vars w))
           else Exit Undefined w.

(** [memmove(mem + dst, mem + src, n * sizeof ptr)]. *)
Definition memmove (dst src n : nat) : M unit :=
  fun w => if Nat.leb (src + n) (length (mem w)) && Nat.leb (dst + n) (length (mem w))
           then let blk := firstn n (skipn src (mem w)) in
                Ok tt (mkWorld (self w)
                  (firstn dst (mem w) ++ blk ++ skipn (dst + n) (mem w)) (vars w))
           else Exit Undefined w.

(** [self->argc--, self->argv++]. *)
Definition advance : M unit :=
  fun w => let s := self w in
  Ok tt (mkWorld (mkArgparser (valid s) (options s) (usage s) (description s)
                    (epilog s) (stopAtNonOption s) (argc s - 1) (S (argv s))
                    (out s) (cpidx s))
                 (mem w) (vars w)).

(** ** C strings *)

Definition NUL : ascii := Ascii.zero.

(** [s[i]]; reading at [strlen s] gives the terminator. *)
Definition char_at (s : string) (i : nat) : ascii :=
  match String.get i s with Some c => c | None => NUL end.

Fixpoint strlen (s : string) : nat :=
  match s with
  | EmptyString => 0
  | String c s' => if Ascii.eqb c NUL then 0 else S (strlen s')
  end.

(** The pointer [s + k]. *)
Fixpoint str_drop (k : nat) (s : string) : string :=
  match k, s with
  | O, _ => s
  | S k', String _ s' => str_drop k' s'
  | S _, EmptyString => EmptyString
  end.

(** [strncmp(a, b, n) == 0]. *)
Fixpoint strncmp_eq (a b : string) (n : nat) : bool :=
  match n with
  | O => true
  | S n' =>
      let ca := char_at a 0 in
      let cb := char_at b 0 in
      if Ascii.eqb ca cb
      then (if Ascii.eqb ca NUL then true else strncmp_eq (str_drop 1 a) (str_drop 1 b) n')
      else false
  end.

(** ** [strtol(s, &end, 0)] (glibc, LP64) *)

Definition LONG_MAX : Z := 2 ^ 63 - 1.
Definition LONG_MIN : Z := - 2 ^ 63.

(** [strerror(ERANGE)]. *)
Definition strerror_ERANGE : string := "Numerical result out of range".

Definition is_space (c : ascii) : bool :=
  let n := nat_of_ascii c in (Nat.leb 9 n && Nat.leb n 13) || Nat.eqb n 32.

(** The digit value of [c] in bases up to 36; 36 when [c] is no digit. *)
Definition digit_value (c : ascii) : Z :=
  let n := Z.of_nat (nat_of_ascii c) in
  if (48 <=? n) && (n <=? 57) then n - 48
  else if (97 <=? n) && (n <=? 122) then n - 87
  else if (65 <=? n) && (n <=? 90) then n - 55
  else 36.

Fixpoint count_spaces (cs : list ascii) : nat :=
  match cs with c :: cs' => if is_space c then S (count_spaces cs') else O | [] => O end.

Fixpoint scan_digits (base : Z) (cs : list ascii) (acc : Z) (k : nat) : Z * nat :=
  match cs with
  | c :: cs' => if digit_value c <? base
                then scan_digits base cs' (acc * base + digit_value c) (S k)
                else (acc, k)
  | [] => (acc, k)
  end.

(** Returns the value, the offset of the end pointer and whether [errno]
    was set to [ERANGE]. With base 0, ["0x"] followed by a hex digit selects
    base 16, a leading ["0"] base 8, anything else base 10. Without any
    digit the end pointer is [s] itself. *)
Definition strtol (s : string) : Z * nat * bool :=
  let cs := list_ascii_of_string s in
  let ws := count_spaces cs in
  let cs1 := skipn ws cs in
  let '(neg, sg) := match cs1 with
                    | "-"%char :: _ => (true, 1%nat)
                    | "+"%char :: _ => (false, 1%nat)
                    | _ => (false, 0%nat)
                    end in
  let cs2 := skipn sg cs1 in
  let '(base, pfx) := match cs2 with
                      | "0"%char :: x :: h :: _ =>
                          if (Ascii.eqb x "x" || Ascii.eqb x "X") && (digit_value h <? 16)
                          then (16, 2%nat) else (8, 0%nat)
                      | "0"%char :: _ => (8, 0%nat)
                      | _ => (10, 0%nat)
                      end in
  let '(mag, nd) := scan_digits base (skipn pfx cs2) 0 0 in
  if Nat.eqb nd 0 then (0, 0%nat, false)
  else
    let v := if neg then - mag else mag in
    let e := (ws + sg + pfx + nd)%nat in
    if LONG_MAX <? v then (LONG_MAX, e, true)
    else if v <? LONG_MIN then (LONG_MIN, e, true)
    else (v, e, false).

(** The conversion of a [long] to a 32-bit [int] on assignment. *)
Definition long_to_int (l : Z) : Z :=
  let m := l mod 2 ^ 32 in if 2 ^ 31 <=? m then m - 2 ^ 32 else m.

(** ** The parser *)

Section Parser.

(** [strtof(s, &end)]: the bits of the [float], the offset of the end
    pointer and whether [errno] was set. *)
Variable strtof : string -> Z * nat * bool.

(** The user callbacks: given the matched option and the program's
    variables, they return, or exit through [Argparser_exitDueToError] or
    [exit]. *)
Variable user_callback : nat -> ArgparserOption -> store -> cb_result.

Definition Argparser_exitDueToUnknownOption {A} : M A :=
  a <- argv_at 0;; exit_ (UnknownOption a).

Definition Argparser_exitDueToError {A} (opt : ArgparserOption) (reason : string) : M A :=
  exit_ (InvalidValue opt reason).

(** [option->callback(self, option)]. *)
Definition run_callback (opt : ArgparserOption) (cb : Argparser_callback) : M unit :=
  match cb with
  | Argparser_exitForHelp => exit_ HelpRequested
  | UserCallback id =>
      fun w => match user_callback id opt (vars w) with
               | CbReturn st => Ok tt (mkWorld (self w) (mem w) st)
               | CbExitDueToError r => Exit (InvalidValue opt r) w
               | CbExit c => Exit (ExitCode c) w
               end
  end.

Definition Argparser_parseValue (opt : ArgparserOption) (optvalue : option string) : M unit :=
  (match value opt with
   | None => ret tt
   | Some d =>
       match type opt with
       | ARGPARSER_TYPE_BOOLEAN =>
           match optvalue with
           | Some v =>
               if Nat.eqb (strlen v) 1 && Ascii.eqb (char_at v 0) "1"
               then write_var d (CBool true)
               else if Nat.eqb (strlen v) 1 && Ascii.eqb (char_at v 0) "0"
               then write_var d (CBool false)
               else Argparser_exitDueToError opt "expects no value, 0, or 1"
           | None => write_var d (CBool true)
           end
       | ARGPARSER_TYPE_STRING =>
           match optvalue with
           | Some v => write_var d (CStr v)
           | None => Argparser_exitDueToError opt "requires a value"
           end
       | ARGPARSER_TYPE_INTEGER =>
           match optvalue with
           | Some v =>
               if Nat.ltb 0 (strlen v) then
                 let '(l, e, erange) := strtol v in
                 write_var d (CInt (long_to_int l));;
                 if erange then Argparser_exitDueToError opt strerror_ERANGE
                 else if negb (Ascii.eqb (char_at v e) NUL)
                 then Argparser_exitDueToError opt "expects an integer value"
                 else ret tt
               else Argparser_exitDueToError opt "requires a value"
           | None => Argparser_exitDueToError opt "requires a value"
           end
       | ARGPARSER_TYPE_FLOAT =>
           match optvalue with
           | Some v =>
               if Nat.ltb 0 (strlen v) then
                 let '(f, e, erange) := strtof v in
                 write_var d (CFloat f);;
                 if erange then Argparser_exitDueToError opt strerror_ERANGE
                 else if negb (Ascii.eqb (char_at v e) NUL)
                 then Argparser_exitDueToError opt "expects a numerical value"
                 else ret tt
               else Argparser_exitDueToError opt "requires a value"
           | None => Argparser_exitDueToError opt "requires a value"
           end
       | _ => exit_ (AssertionFailure "0")
       end
   end);;
  match callback opt with
  | Some cb => run_callback opt cb
  | None => ret tt
  end.

(** The test [self->argc > 1 && self->argv[1] && self->argv[1][0] != '-']:
    the next argument when it is taken as the value. *)
Definition next_value : M (option string) :=
  fun w => let s := self w in
  if 1 <? argc s then
    match nth_error (mem w) (S (argv s)) with
    | Some (Some a) => if Ascii.eqb (char_at a 0) "-" then Ok None w else Ok (Some a) w
    | Some None => Ok None w
    | None => Exit Undefined w
    end
  else Ok None w.

Definition is_end (o : ArgparserOption) : bool :=
  match type o with ARGPARSER_TYPE_END => true | _ => false end.

(** The loop of the branch [strlen(arg) == 2]; it returns [foundOption]. A
    table without its END entry is read out of bounds. *)
Fixpoint short_single (opts : list ArgparserOption) (found : bool) : M bool :=
  match opts with
  | [] => exit_ Undefined
  | o :: opts' =>
      if is_end o then ret found else
      a <- argv_at 0;;
      if negb (Ascii.eqb (shortName o) NUL) && Ascii.eqb (shortName o) (char_at a 1) then
        nv <- next_value;;
        match nv with
        | Some v => Argparser_parseValue o (Some v);; advance;; short_single opts' true
        | None => Argparser_parseValue o None;; short_single opts' true
        end
      else short_single opts' found
  end.

(** The inner loop of the compound branch, for the character [c]. *)
Fixpoint compound_scan (c : ascii) (opts : list ArgparserOption) (found : bool) : M bool :=
  match opts with
  | [] => exit_ Undefined
  | o :: opts' =>
      if is_end o then ret found else
      if Ascii.eqb (shortName o) c
      then Argparser_parseValue o None;; compound_scan c opts' true
      else compound_scan c opts' found
  end.

(** The outer loop of the compound branch, over the characters after the
    leading ['-'] up to the terminator. *)
Fixpoint compound_chars (opts : list ArgparserOption) (cs : list ascii) (found : bool) : M bool :=
  match cs with
  | [] => ret found
  | c :: cs' =>
      if Ascii.eqb c NUL then ret found else
      f <- compound_scan c opts false;;
      if f then compound_chars opts cs' f else Argparser_exitDueToUnknownOption
  end.

Definition Argparser_parseShortOption (opts : list ArgparserOption) : M unit :=
  arg <- argv_at 0;;
  found <- (if Nat.eqb (strlen arg) 2 then short_single opts false
            else compound_chars opts (list_ascii_of_string (str_drop 1 arg)) false);;
  if found then ret tt else Argparser_exitDueToUnknownOption.

Fixpoint long_scan (opts : list ArgparserOption) (found : bool) : M bool :=
  match opts with
  | [] => exit_ Undefined
  | o :: opts' =>
      if is_end o then ret found else
      match longName o with
      | None => long_scan opts' found
      | Some ln =>
          if Nat.ltb (strlen ln) 1 then long_scan opts' found else
          a <- argv_at 0;;
          let nameLength := strlen ln in
          if strncmp_eq (str_drop 2 a) ln nameLength then
            let rest := str_drop (2 + nameLength) a in
            if Ascii.eqb (char_at rest 0) "=" then
              Argparser_parseValue o (Some (str_drop 1 rest));; long_scan opts' true
            else
              match type o with
              | ARGPARSER_TYPE_BOOLEAN => Argparser_parseValue o None;; long_scan opts' true
              | _ => long_scan opts' found
              end
          else long_scan opts' found
      end
  end.

Definition Argparser_parseLongOption (opts : list ArgparserOption) : M unit :=
  found <- long_scan opts false;;
  if found then ret tt else Argparser_exitDueToUnknownOption.

(** [self->out[self->cpidx++] = self->argv[0]]. *)
Definition copy_to_out : M unit :=
  fun w => let s := self w in
  match nth_error (mem w) (argv s) with
  | Some p =>
      write_mem (out s + cpidx s) p
        (mkWorld (mkArgparser (valid s) (options s) (usage s) (description s)
                   (epilog s) (stopAtNonOption s) (argc s) (argv s) (out s) (S (cpidx s)))
                 (mem w) (vars w))
  | None => Exit Undefined w
  end.

(** The [for (; self->argc; self->argc--, self->argv++)] loop. Each turn
    lowers [argc] by at least one, so [argc] turns of fuel suffice. *)
Fixpoint parse_loop (fuel : nat) : M unit :=
  match fuel with
  | O => ret tt
  | S fuel' =>
      s <- get_self;;
      if Z.eqb (argc s) 0 then ret tt else
      arg <- argv_at 0;;
      if negb (Ascii.eqb (char_at arg 0) "-") || Ascii.eqb (char_at arg 1) NUL then
        if stopAtNonOption s then ret tt
        else copy_to_out;; advance;; parse_loop fuel'
      else if negb (Ascii.eqb (char_at arg 1) "-") then
        Argparser_parseShortOption (options s);; advance;; parse_loop fuel'
      else if negb (Ascii.eqb (char_at arg 2) NUL) then
        Argparser_parseLongOption (options s);; advance;; parse_loop fuel'
      else advance
  end.

(** [Argparser_parse(self, argc, argv)], [argv] being the caller's array
    [mem] (index 0). With [argc] below 1 the loop reads past the array. *)
Definition Argparser_parse (argc0 : Z) : M Z :=
  s <- get_self;;
  if negb (valid s) then exit_ (AssertionFailure "self->valid") else
  if argc0 <? 1 then exit_ Undefined else
  put_self (mkArgparser (valid s) (options s) (usage s) (description s) (epilog s)
             (stopAtNonOption s) (argc0 - 1) 1 0 (cpidx s));;
  parse_loop (Z.to_nat (argc0 - 1));;
  s <- get_self;;
  memmove (out s + cpidx s) (argv s) (Z.to_nat (argc s));;
  write_mem (out s + cpidx s + Z.to_nat (argc s)) None;;
  ret (Z.of_nat (cpidx s) + argc s).

End Parser.

(** ** Lifecycle and configuration *)

(** [Argparser_new]: [malloc] leaves the handle's contents indeterminate, so
    any value of the record may be found in it. *)
Inductive Argparser_new_result : Argparser -> Prop :=
| new_uninitialized (h : Argparser) : Argparser_new_result h.

(** [Argparser_init]: [memset] to zero, then the table and [valid]. *)
Definition Argparser_init (opts : list ArgparserOption) : Argparser :=
  mkArgparser true opts None None None false 0 0 0 0.

Definition Argparser_clear : M unit :=
  s <- get_self;;
  put_self (mkArgparser false (options s) (usage s) (description s) (epilog s)
             (stopAtNonOption s) (argc s) (argv s) (out s) (cpidx s)).

Definition Argparser_setUsage (u : string) : M unit :=
  s <- get_self;;
  if negb (valid s) then exit_ (AssertionFailure "self->valid") else
  put_self (mkArgparser (valid s) (options s) (Some u) (description s) (epilog s)
             (stopAtNonOption s) (argc s) (argv s) (out s) (cpidx s)).

Definition Argparser_setDescription (d : string) : M unit :=
  s <- get_self;;
  if negb (valid s) then exit_ (AssertionFailure "self->valid") else
  put_self (mkArgparser (valid s) (options s) (usage s) (Some d) (epilog s)
             (stopAtNonOption s) (argc s) (argv s) (out s) (cpidx s)).

Definition Argparser_setEpilog (e : string) : M unit :=
  s <- get_self;;
  if negb (valid s) then exit_ (AssertionFailure "self->valid") else
  put_self (mkArgparser (valid s) (options s) (usage s) (description s) (Some e)
             (stopAtNonOption s) (argc s) (argv s) (out s) (cpidx s)).

Definition Argparser_setStopAtNonOption (stop : bool) : M unit :=
  s <- get_self;;
  if negb (valid s) then exit_ (AssertionFailure "self->valid") else
  put_self (mkArgparser (valid s) (options s) (usage s) (description s) (epilog s)
             stop (argc s) (argv s) (out s) (cpidx s)).

(** ** Running [parse] from a freshly initialised handle *)

Definition END : ArgparserOption := mkOption ARGPARSER_TYPE_END NUL None None None None.

(** The caller's vector: the tokens followed by the NULL [argv[argc]]. *)
Definition init_world (opts : list ArgparserOption) (args : list string) (st : store) : world :=
  mkWorld (Argparser_init opts) (map Some args ++ [None]) st.

Definition run_parse strtof user_callback (opts : list ArgparserOption) (stop : bool)
    (st : store) (args : list string) : result Z :=
  (Argparser_setStopAtNonOption stop;;
   Argparser_parse strtof user_callback (Z.of_nat (length args)))
    (init_world opts args st).

(** ** Tables and environments used in the statements *)

Open Scope string_scope.
Open Scope list_scope.

(** [ARGPARSER_OPT_BOOL('c', "color", &color, ...)] with [color] at address 0. *)
Definition opt_color : ArgparserOption :=
  mkOption ARGPARSER_TYPE_BOOLEAN "c"%char (Some "color") (Some 0%nat) (Some "colored output") None.

(** [ARGPARSER_OPT_HELP()]. *)
Definition opt_help : ArgparserOption :=
  mkOption ARGPARSER_TYPE_BOOLEAN "h"%char (Some "help") None
    (Some "show this help message and exit") (Some Argparser_exitForHelp).

Definition empty_store : store := fun _ => Uninit.

(** A [strtof] that converts nothing, for programs without FLOAT options. *)
Definition no_strtof : string -> Z * nat * bool := fun _ => (0, 0%nat, false).

(** A callback environment in which callback [n] records [CInt n] at
    address [100 + n]. *)
Definition marking_callbacks : nat -> ArgparserOption -> store -> cb_result :=
  fun n _ st => CbReturn (store_write st (100 + n) (CInt (Z.of_nat n))).

(** The variable at address [d] when [parse] ended. *)
Definition final_var (r : result Z) (d : nat) : cell :=
  match r with Ok _ w => vars w d | Exit _ w => vars w d end.

(** The first [n] slots of the caller's array when [parse] returned [n]. *)
Definition returned_args (r : result Z) : option (list (option string)) :=
  match r with
  | Ok n w => Some (firstn (Z.to_nat n) (mem w))
  | Exit _ _ => None
  end.

Definition exit_reason {A} (r : result A) : option termination :=
  match r with Ok _ _ => None | Exit t _ => Some t end.

Definition with_var (w : world) (d : nat) (c : cell) : world :=
  mkWorld (self w) (mem w) (store_write (vars w) d c).

(** What [Argparser_parseValue] does after the conversion. *)
Definition callback_part user_callback (opt : ArgparserOption) : M unit :=
  match callback opt with
  | Some cb => run_callback user_callback opt cb
  | None => ret tt
  end.

(** ** The help text: [Argparser_usage] *)

(** [Argparser_usage] as the text it writes to stdout, [None] where the C
    code has undefined behaviour (a table without its END entry, a NULL
    [help] printed with [%s]). Strings are printed up to their first NUL;
    [fprintf] returns the number of characters written. *)

(** The C string [s]: its characters up to the first NUL. *)
Fixpoint cstr (s : string) : string :=
  match s with
  | EmptyString => EmptyString
  | String c s' => if Ascii.eqb c NUL then EmptyString else String c (cstr s')
  end.

Definition NL : string := String (ascii_of_nat 10) EmptyString.

(** [fprintf("%*s", n, "")]. *)
Fixpoint spaces (n : nat) : string :=
  match n with
  | O => EmptyString
  | S n' => String " "%char (spaces n')
  end.

(** The literal printed after an option that takes a value. *)
Definition type_suffix (t : ArgparserOptionType) : string :=
  match t with
  | ARGPARSER_TYPE_INTEGER => "=<int>"
  | ARGPARSER_TYPE_FLOAT => "=<float>"
  | ARGPARSER_TYPE_STRING => "=<string>"
  | _ => ""
  end%string.

(** A pointer tested for NULL. *)
Definition non_null {A} (p : option A) : bool :=
  match p with Some _ => true | None => false end.

(** [len] in the first loop of [Argparser_usage], before the rounding. *)
Definition label_len (o : ArgparserOption) : nat :=
  ((if negb (Ascii.eqb (shortName o) NUL) then 2 else 0) +
   (if negb (Ascii.eqb (shortName o) NUL) && non_null (longName o) then 2 else 0) +
   (match longName o with Some ln => strlen ln + 2 | None => 0 end) +
   String.length (type_suffix (type o)))%nat.

(** The first loop: [len = (len + 3) - ((len + 3) & 3)] and the maximum. *)
Fixpoint usage_width_loop (opts : list ArgparserOption) (width : nat) : option nat :=
  match opts with
  | [] => None
  | o :: opts' =>
      if is_end o then Some width else
      let len := (label_len o + 3 - Nat.land (label_len o + 3) 3)%nat in
      usage_width_loop opts' (if Nat.ltb width len then len else width)
  end.

(** [usage_opts_width] after [usage_opts_width += 4]. *)
Definition usage_opts_width (opts : list ArgparserOption) : option nat :=
  match usage_width_loop opts 0 with
  | Some width => Some (width + 4)%nat
  | None => None
  end.

(** What the second loop prints for an option before the padding; [pos] is
    its length. *)
Definition option_label (o : ArgparserOption) : string :=
  ("    " ++
   (if negb (Ascii.eqb (shortName o) NUL) then String "-"%char (String (shortName o) "") else "") ++
   (if non_null (longName o) && negb (Ascii.eqb (shortName o) NUL) then ", " else "") ++
   (match longName o with Some ln => "--" ++ cstr ln | None => "" end) ++
   type_suffix (type o))%string.

(** One turn of the second loop. *)
Definition usage_line (width : nat) (o : ArgparserOption) : option string :=
  match type o with
  | ARGPARSER_TYPE_GROUP =>
      match help o with
      | Some h => Some (NL ++ cstr h ++ NL)%string
      | None => None
      end
  | _ =>
      let lbl := option_label o in
      let pos := String.length lbl in
      let '(brk, pad) := if Nat.leb pos width then (""%string, (width - pos)%nat)
                         else (NL, width) in
      match help o with
      | Some h => Some (lbl ++ brk ++ spaces (pad + 2) ++ cstr h ++ NL)%string
      | None => None
      end
  end.

(** The second loop, up to the END entry. *)
Fixpoint usage_lines (width : nat) (opts : list ArgparserOption) : option string :=
  match opts with
  | [] => None
  | o :: opts' =>
      if is_end o then Some ""%string else
      match usage_line width o, usage_lines width opts' with
      | Some l, Some r => Some (l ++ r)%string
      | _, _ => None
      end
  end.

Definition Argparser_usage (s : Argparser) : option string :=
  let head := ((match usage s with Some u => "Usage: " ++ cstr u ++ NL | None => "" end) ++
               (match description s with Some d => cstr d ++ NL | None => "" end))%string in
  match usage_opts_width (options s) with
  | None => None
  | Some width =>
      match usage_lines width (options s) with
      | None => None
      | Some body =>
          Some (head ++ body ++
                (match epilog s with Some e => NL ++ cstr e ++ NL | None => "" end))%string
      end
  end.

(** The entries the loops of [Argparser_usage] visit: those before END. *)
Fixpoint before_end (opts : list ArgparserOption) : list ArgparserOption :=
  match opts with
  | [] => []
  | o :: opts' => if is_end o then [] else o :: before_end opts'
  end.

(** ** Helpers and concrete inputs used by the properties *)

(** The loop's tests on a token. *)
Definition is_plain (arg : string) : bool :=
  negb (Ascii.eqb (char_at arg 0) "-") || Ascii.eqb (char_at arg 1) NUL.

Definition is_dashdash (arg : string) : bool :=
  Ascii.eqb (char_at arg 0) "-" && Ascii.eqb (char_at arg 1) "-" && Ascii.eqb (char_at arg 2) NUL.

(** Some entry has the short name [c] (a short name 0 never matches). *)
Definition names_short (opts : list ArgparserOption) (c : ascii) : bool :=
  existsb (fun o => negb (Ascii.eqb (shortName o) NUL) && Ascii.eqb (shortName o) c) opts.

Definition set_argc (s : Argparser) (n : Z) : Argparser :=
  mkArgparser (valid s) (options s) (usage s) (description s) (epilog s)
    (stopAtNonOption s) n (argv s) (out s) (cpidx s).

(** [firstn i l ++ x :: skipn (S i) l]: slot [i] of [l] set to [x]. *)
Definition upd {A} (l : list A) (i : nat) (x : A) : list A :=
  firstn i l ++ x :: skipn (S i) l.

(** The world after [advance]. *)
Definition advw (w : world) : world :=
  let s := self w in
  mkWorld (mkArgparser (valid s) (options s) (usage s) (description s)
             (epilog s) (stopAtNonOption s) (argc s - 1) (S (argv s))
             (out s) (cpidx s))
          (mem w) (vars w).

(** The tail of [Argparser_parse] after the loop. *)
Definition parse_finish : M Z :=
  s <- get_self;;
  memmove (out s + cpidx s) (argv s) (Z.to_nat (argc s));;
  write_mem (out s + cpidx s + Z.to_nat (argc s)) None;;
  ret (Z.of_nat (cpidx s) + argc s).

(** The state in which [parse] enters its loop, from a fresh handle. *)
Definition start_world (opts : list ArgparserOption) (stop : bool) (st : store)
    (args : list string) : world :=
  mkWorld (mkArgparser true opts None None None stop (Z.of_nat (length args) - 1) 1 0 0)
          (map Some args ++ [None]) st.

(** The same handle parsed twice: the first call on ["bud"; "a"], the second
    on a fresh vector ["bud"; "b"]. *)
Definition parse_twice strtof user_callback : result Z :=
  match Argparser_parse strtof user_callback 2 (init_world [END] ["bud"; "a"] empty_store) with
  | Ok _ w1 =>
      Argparser_parse strtof user_callback 2 (mkWorld (self w1) [Some "bud"; Some "b"; None] (vars w1))
  | Exit t w => Exit t w
  end.

(** The handle [Argparser_new] may hand out when its memory happens to hold a
    true [valid] byte: never initialised, no table but the END entry. *)
Definition garbage_handle : Argparser :=
  mkArgparser true [END] None None None false 0 0 0 0.

(** An INTEGER option [-n]/[--num] with destination at address 5. *)
Definition opt_num : ArgparserOption :=
  mkOption ARGPARSER_TYPE_INTEGER "n"%char (Some "num") (Some 5%nat) (Some "a number") None.

(** BOOLEAN options [-a] (address 1) and [-b] (address 2). *)
Definition opt_a : ArgparserOption :=
  mkOption ARGPARSER_TYPE_BOOLEAN "a"%char None (Some 1%nat) (Some "flag a") None.

Definition opt_b : ArgparserOption :=
  mkOption ARGPARSER_TYPE_BOOLEAN "b"%char None (Some 2%nat) (Some "flag b") None.

(** [-a] again, with user callback 7. *)
Definition opt_a_cb : ArgparserOption :=
  mkOption ARGPARSER_TYPE_BOOLEAN "a"%char None (Some 1%nat) (Some "flag a") (Some (UserCallback 7)).

(** The parse loop standing on the token at index 1 of ["bud"; tok; "x"]. *)
Definition world_on (opts : list ArgparserOption) (tok : string) : world :=
  mkWorld (mkArgparser true opts None None None false 2 1 0 0)
    [Some "bud"; Some tok; Some "x"; None] empty_store.

(** [ARGPARSER_OPT_STRING('o', "out", &out, ...)] with [out] at address 3. *)
Definition opt_out : ArgparserOption :=
  mkOption ARGPARSER_TYPE_STRING "o"%char (Some "out") (Some 3%nat) (Some "output file") None.

(** [ARGPARSER_OPT_BOOL('i', "inverse", &inverse, ...)] with [inverse] at address 4. *)
Definition opt_inverse : ArgparserOption :=
  mkOption ARGPARSER_TYPE_BOOLEAN "i"%char (Some "inverse") (Some 4%nat) (Some "inverse order") None.

(** * bud.c *)

(** Modelling choices for [bud.c]: [malloc] succeeds; signed overflow of an
    [int] or [long] computation is undefined behaviour and ends the model
    with [None]; what is printed is recorded as [bud_output] events. *)

Definition INT_MAX : Z := 2 ^ 31 - 1.
Definition INT_MIN : Z := - 2 ^ 31.

Definition in_int (z : Z) : bool := (INT_MIN <=? z)%Z && (z <=? INT_MAX)%Z.
Definition in_long (z : Z) : bool := (LONG_MIN <=? z)%Z && (z <=? LONG_MAX)%Z.

(** [struct bucket]; the linked list starting at [buckets] is a list, its
    head first. *)
Record bucket := mkBucket {
  category : string;
  totalCents : Z
}.

(** [strdup]: a copy of the C string. *)
Definition strdup (s : string) : string := cstr s.

Inductive walk_result :=
| Updated (bs : list bucket)
| NotFound
| Overflow.

(** The [while] loop of [addEntryToBucket]: the first bucket whose category
    is [strcmp]-equal to [cat] gets [cents] added to its total. *)
Fixpoint bucket_walk (current : list bucket) (cat : string) (cents : Z) : walk_result :=
  match current with
  | [] => NotFound
  | b :: rest =>
      if String.eqb (cstr cat) (cstr (category b)) then
        let t := (totalCents b + cents)%Z in
        if in_long t then Updated (mkBucket (category b) t :: rest) else Overflow
      else match bucket_walk rest cat cents with
           | Updated rest' => Updated (b :: rest')
           | r => r
           end
  end.

(** [addEntryToBucket]: an existing bucket is updated in place, otherwise a
    new bucket is put at the head of the list. *)
Definition addEntryToBucket (buckets : list bucket) (cat : string) (cents : Z)
    : option (list bucket) :=
  match bucket_walk buckets cat cents with
  | Updated bs => Some bs
  | Overflow => None
  | NotFound => Some (mkBucket (strdup cat) cents :: buckets)
  end.

(** ** C string functions on a [char] buffer *)

(** [b[i]]. *)
Definition buf_at (b : list ascii) (i : nat) : ascii := nth i b NUL.

(** The C string starting at [b + i]. *)
Definition buf_str (b : list ascii) (i : nat) : string :=
  cstr (string_of_list_ascii (skipn i b)).

(** [strspn(s, accept)] ([accept] holds no NUL). *)
Fixpoint strspn (s : list ascii) (accept : list ascii) : nat :=
  match s with
  | c :: s' => if existsb (Ascii.eqb c) accept then S (strspn s' accept) else O
  | [] => O
  end.

(** [strcspn(s, reject)]. *)
Fixpoint strcspn (s : list ascii) (reject : list ascii) : nat :=
  match s with
  | c :: s' => if Ascii.eqb c NUL || existsb (Ascii.eqb c) reject then O
               else S (strcspn s' reject)
  | [] => O
  end.

(** glibc's [strtok(s, delim)]: [s] is [None] for NULL, [olds] is the saved
    pointer. Returns the token (or NULL), the buffer and the saved pointer. *)
Definition strtok (s : option nat) (delim : list ascii) (b : list ascii) (olds : nat)
    : option nat * list ascii * nat :=
  let p := match s with Some i => i | None => olds end in
  let p := (p + strspn (skipn p b) delim)%nat in
  if Ascii.eqb (buf_at b p) NUL then (None, b, p) else
  let e := (p + strcspn (skipn p b) delim)%nat in
  if Ascii.eqb (buf_at b e) NUL then (Some p, b, e)
  else (Some p, upd b e NUL, S e).

(** [strtol(s, NULL, 10)]. *)
Definition strtol10 (s : string) : Z :=
  let cs := list_ascii_of_string s in
  let cs1 := skipn (count_spaces cs) cs in
  let '(neg, sg) := match cs1 with
                    | "-"%char :: _ => (true, 1%nat)
                    | "+"%char :: _ => (false, 1%nat)
                    | _ => (false, 0%nat)
                    end in
  let '(mag, _) := scan_digits 10 (skipn sg cs1) 0 0 in
  let v := if neg then (- mag)%Z else mag in
  if (LONG_MAX <? v)%Z then LONG_MAX
  else if (v <? LONG_MIN)%Z then LONG_MIN
  else v.

(** glibc's [atoi(s)] is [(int) strtol(s, NULL, 10)]. *)
Definition atoi (s : string) : Z := long_to_int (strtol10 s).

(** ** Entries *)

Definition TAB : ascii := ascii_of_nat 9.
Definition LF : ascii := ascii_of_nat 10.
Definition CR : ascii := ascii_of_nat 13.

Definition SEPARATOR_CSV : list ascii := [" "%char; TAB].
Definition SEPARATOR_CURRENCY : list ascii := [","%char; "."%char].

(** What [bud] prints while reading its input. *)
Inductive bud_output :=
| Warning (lineno : Z).   (* WARNING: Entry ignored. Parsing error in line %d. *)

(** [processEntry(lineno, line)] on the buffer [line], with the global
    [inverse] and list of buckets. *)
Definition processEntry (inverse : Z) (lineno : Z) (line : list ascii)
    (buckets : list bucket) : option (list bucket * list bud_output) :=
  let '(day, b1, o1) := strtok (Some 0%nat) SEPARATOR_CSV line 0 in
  let '(cat, b2, o2) := strtok None SEPARATOR_CSV b1 o1 in
  let '(euros, b3, o3) := strtok None SEPARATOR_CURRENCY b2 o2 in
  let '(cents, b4, _) := strtok None SEPARATOR_CSV b3 o3 in
  match day, cat, euros, cents with
  | Some _, Some c, Some e, Some k =>
      let p := (atoi (buf_str b4 e) * 100)%Z in
      if negb (in_int p) then None else
      let total := if (0 <=? p)%Z then (p + atoi (buf_str b4 k))%Z
                   else (p - atoi (buf_str b4 k))%Z in
      let total := if Z.eqb inverse 0 then total else (- total)%Z in
      match addEntryToBucket buckets (buf_str b4 c) total with
      | Some bs => Some (bs, [])
      | None => None
      end
  | _, _, _, _ =>
      if Nat.eqb (strspn b4 [" "%char; CR; LF; TAB]) (strlen (string_of_list_ascii b4))
      then Some (buckets, [])
      else Some (buckets, [Warning lineno])
  end.

(** [calculateTotals]: the final [positiveTotalCents] and
    [negativeTotalCents]. *)
Fixpoint totals_loop (current : list bucket) (pos neg : Z) : option (Z * Z) :=
  match current with
  | [] => Some (pos, neg)
  | b :: rest =>
      if (0 <=? totalCents b)%Z then
        let p := (pos + totalCents b)%Z in
        if in_long p then totals_loop rest p neg else None
      else
        let n := (neg + totalCents b)%Z in
        if in_long n then totals_loop rest pos n else None
  end.

Definition calculateTotals (buckets : list bucket) : option (Z * Z) :=
  totals_loop buckets 0 0.

(** ** Readings of the buckets and of the input format *)

(** The total of the bucket that [addEntryToBucket]'s loop finds for [c]. *)
Fixpoint bucket_total (bs : list bucket) (c : string) : option Z :=
  match bs with
  | [] => None
  | b :: rest => if String.eqb (cstr c) (cstr (category b)) then Some (totalCents b)
                 else bucket_total rest c
  end.

(** The categories as the C strings [printBuckets] prints. *)
Definition categories (bs : list bucket) : list string := map (fun b => cstr (category b)) bs.

(** The sum of all bucket totals. *)
Definition sum_totals (bs : list bucket) : Z := fold_right (fun b acc => (totalCents b + acc)%Z) 0%Z bs.

(** A decimal digit and its value; a list of digits read as a number. *)
Definition is_digit (c : ascii) : bool := (48 <=? nat_of_ascii c)%nat && (nat_of_ascii c <=? 57)%nat.
Definition digit (c : ascii) : Z := (Z.of_nat (nat_of_ascii c) - 48)%Z.
Definition decimal (ds : list ascii) : Z := fold_left (fun acc c => (10 * acc + digit c)%Z) ds 0%Z.

(** A character that ends no field of the line: neither a field separator
    nor NUL. *)
Definition field_char (c : ascii) : bool := negb (existsb (Ascii.eqb c) [" "%char; TAB; NUL]).

(** ** Readings of the parser state *)

(** The configuration of a handle: what [init] and the setters write. *)
Definition cfg (s : Argparser) :=
  (valid s, options s, usage s, description s, epilog s, stopAtNonOption s).

(** The caller's array of [L] tokens followed by the NULL [argv[L]]. *)
Definition shape (L : nat) (l : list (option string)) : Prop :=
  length l = S L /\ nth_error l L = Some None /\
  forall i, (i < L)%nat -> exists a, nth_error l i = Some (Some a).

(** When [m] exits, it is not by undefined behaviour, and an error
    reported by [Argparser_exitDueToError] concerns the entry [o]. *)
Definition exits_for (o : ArgparserOption) {A} (m : M A) : Prop :=
  forall w t w', m w = Exit t w' ->
    t <> Undefined /\ forall o' r, t = InvalidValue o' r -> o' = o.

(** * Properties *)

Section C1.
Variable strtof : string -> Z * nat * bool.
Variable user_callback : nat -> ArgparserOption -> store -> cb_result.
Variable st : store.

Let run (args : list string) :=
  run_parse strtof user_callback [opt_color; END] false st ("bud" :: args).

(** Claim C1 (as amended): with the BOOLEAN option [-c]/[--color], the tokens
    [-c], [--color] and [--color=1] leave the destination true, [-c 0] and
    [--color=0] leave it false, [--color=maybe] ends with InvalidValue, and
    [-c=1] is a compound token: ['c'] sets the destination true, then ['=']
    matches no entry and parsing ends with UnknownOption. *)
Theorem C1_boolean_option_values :
  final_var (run ["-c"]) 0 = CBool true /\ exit_reason (run ["-c"]) = None /\
  final_var (run ["--color"]) 0 = CBool true /\ exit_reason (run ["--color"]) = None /\
  final_var (run ["--color=1"]) 0 = CBool true /\ exit_reason (run ["--color=1"]) = None /\
  final_var (run ["-c"; "0"]) 0 = CBool false /\ exit_reason (run ["-c"; "0"]) = None /\
  final_var (run ["--color=0"]) 0 = CBool false /\ exit_reason (run ["--color=0"]) = None /\
  exit_reason (run ["--color=maybe"]) = Some (InvalidValue opt_color "expects no value, 0, or 1") /\
  exit_reason (run ["-c=1"]) = Some (UnknownOption "-c=1") /\
  final_var (run ["-c=1"]) 0 = CBool true.
Proof.
  unfold run; repeat split; reflexivity.
Qed.

End C1.

(** Claim C1, counterexample: [-c=1] does not leave the destination true
    after a successful parse; it ends with UnknownOption. *)
Lemma C1_counterexample :
  exit_reason (run_parse no_strtof marking_callbacks [opt_color; END] false empty_store
                 ["bud"; "-c=1"]) = Some (UnknownOption "-c=1").
Proof. reflexivity. Qed.

(** Claim C2 (a defect of the long-option matcher): a token whose text after
    [--] extends the long name of a BOOLEAN entry by a suffix that does not
    start with ['='] still matches it: [--colorful] sets the destination of
    [--color] to true and parsing succeeds, where the claim requires no match
    (and so UnknownOption). *)
Theorem C2_suffix_matches_boolean :
  forall strtof user_callback st,
  let r := run_parse strtof user_callback [opt_color; END] false st ["bud"; "--colorful"] in
  exit_reason r = None /\ final_var r 0 = CBool true /\ returned_args r = Some [].
Proof. intros; repeat split; reflexivity. Qed.

(** Claim C3 (a defect of [Argparser_parse]): [parse] resets [argc], [argv]
    and [out] but not [cpidx]. On a second call the positional output
    starts after the previous call's positionals: parsing ["bud"; "b"] then
    returns 2, and the first two slots are ["bud"; "b"], the invocation name
    included, instead of ["b"]. *)
Theorem C3_second_parse_keeps_cpidx :
  forall strtof user_callback,
  returned_args (Argparser_parse strtof user_callback 2
                   (init_world [END] ["bud"; "a"] empty_store)) = Some [Some "a"] /\
  returned_args (parse_twice strtof user_callback) = Some [Some "bud"; Some "b"].
Proof. intros; split; reflexivity. Qed.

(** Claim C7: for an INTEGER option with a destination, the text ["12abc"]
    ends with InvalidValue "expects an integer value" (after the partial
    value 12 was stored), ["12"] stores 12, ["0x1A"] stores 26, ["010"]
    stores 8 (each then running the callback), and absent or empty text ends
    with InvalidValue "requires a value". *)
Theorem C7_integer_conversion :
  forall strtof user_callback opt d w,
  type opt = ARGPARSER_TYPE_INTEGER -> value opt = Some d ->
  Argparser_parseValue strtof user_callback opt (Some "12abc") w =
    Exit (InvalidValue opt "expects an integer value") (with_var w d (CInt 12)) /\
  Argparser_parseValue strtof user_callback opt (Some "12") w =
    callback_part user_callback opt (with_var w d (CInt 12)) /\
  Argparser_parseValue strtof user_callback opt (Some "0x1A") w =
    callback_part user_callback opt (with_var w d (CInt 26)) /\
  Argparser_parseValue strtof user_callback opt (Some "010") w =
    callback_part user_callback opt (with_var w d (CInt 8)) /\
  Argparser_parseValue strtof user_callback opt None w =
    Exit (InvalidValue opt "requires a value") w /\
  Argparser_parseValue strtof user_callback opt (Some "") w =
    Exit (InvalidValue opt "requires a value") w.
Proof.
  intros strtof user_callback opt d w Ht Hv.
  unfold Argparser_parseValue, callback_part, bind.
  rewrite Ht, Hv.
  repeat split; reflexivity.
Qed.

(** Claim C9: for an option without destination the value text is never
    looked at: whatever the text, [Argparser_parseValue] only runs the
    option's callback. *)
Theorem C9_no_destination_only_callback :
  forall strtof user_callback opt optvalue w,
  value opt = None ->
  Argparser_parseValue strtof user_callback opt optvalue w =
    callback_part user_callback opt w.
Proof.
  intros strtof user_callback opt optvalue w Hv.
  unfold Argparser_parseValue, callback_part, bind, ret.
  rewrite Hv; reflexivity.
Qed.

(** ** The validity assertion *)

(** [m] never fails the assertion [assert(self->valid)]. *)
Definition no_valid_assert {A} (m : M A) : Prop :=
  forall w t w', m w = Exit t w' -> t <> AssertionFailure "self->valid".

Lemma nva_bind {A B} (m : M A) (f : A -> M B) :
  no_valid_assert m -> (forall a, no_valid_assert (f a)) -> no_valid_assert (bind m f).
Proof.
  intros Hm Hf w t w' H. unfold bind in H.
  destruct (m w) as [a w1|t1 w1] eqn:E.
  - eapply Hf; eauto.
  - inversion H; subst. eapply Hm; eauto.
Qed.

Lemma nva_ret {A} (a : A) : no_valid_assert (ret a).
Proof. intros w t w' H; discriminate H. Qed.

Lemma nva_exit {A} (t : termination) :
  t <> AssertionFailure "self->valid" -> no_valid_assert (@exit_ A t).
Proof. intros Ht w t' w' H; inversion H; subst; exact Ht. Qed.

Ltac nva_prim :=
  let w := fresh "w" in let t := fresh "t" in let w' := fresh "w'" in
  let H := fresh "H" in
  intros w t w' H;
  repeat match type of H with
         | context [match ?x with _ => _ end] => destruct x
         | context [if ?b then _ else _] => destruct b
         end;
  inversion H; subst; discriminate.

Lemma nva_get_self : no_valid_assert get_self.
Proof. unfold get_self; nva_prim. Qed.
Lemma nva_put_self s : no_valid_assert (put_self s).
Proof. unfold put_self; nva_prim. Qed.
Lemma nva_write_var d c : no_valid_assert (write_var d c).
Proof. unfold write_var; nva_prim. Qed.
Lemma nva_argv_at k : no_valid_assert (argv_at k).
Proof. unfold argv_at; nva_prim. Qed.
Lemma nva_write_mem i p : no_valid_assert (write_mem i p).
Proof. unfold write_mem; nva_prim. Qed.
Lemma nva_memmove a b n : no_valid_assert (memmove a b n).
Proof. unfold memmove; nva_prim. Qed.
Lemma nva_advance : no_valid_assert advance.
Proof. unfold advance; nva_prim. Qed.
Lemma nva_next_value : no_valid_assert next_value.
Proof. unfold next_value; nva_prim. Qed.
Lemma nva_copy_to_out : no_valid_assert copy_to_out.
Proof.
  intros w t w' H; unfold copy_to_out in H.
  destruct (nth_error (mem w) (argv (self w))) as [p|].
  - eapply nva_write_mem; eauto.
  - inversion H; discriminate.
Qed.

Create HintDb nva.
#[local] Hint Resolve nva_ret nva_get_self nva_put_self nva_write_var nva_argv_at
  nva_write_mem nva_memmove nva_advance nva_next_value nva_copy_to_out : nva.

Ltac nva_step :=
  match goal with
  | |- no_valid_assert (bind _ _) => apply nva_bind; [|intro]
  | |- no_valid_assert (exit_ _) => apply nva_exit; discriminate
  | |- no_valid_assert (if ?b then _ else _) => destruct b
  | |- no_valid_assert (match ?x with _ => _ end) => destruct x
  | |- no_valid_assert (let '(_, _) := ?x in _) => destruct x
  | |- _ => solve [eauto with nva]
  end.

Section NoValidAssert.
Variable strtof : string -> Z * nat * bool.
Variable user_callback : nat -> ArgparserOption -> store -> cb_result.

Lemma nva_run_callback opt cb : no_valid_assert (run_callback user_callback opt cb).
Proof.
  destruct cb as [|id]; [apply nva_exit; discriminate|].
  intros w t w' H; simpl in H.
  destruct (user_callback id opt (vars w)); inversion H; discriminate.
Qed.
#[local] Hint Resolve nva_run_callback : nva.

Lemma nva_exitDueToUnknownOption {A} :
  no_valid_assert (@Argparser_exitDueToUnknownOption A).
Proof. unfold Argparser_exitDueToUnknownOption; repeat nva_step. Qed.
#[local] Hint Resolve nva_exitDueToUnknownOption : nva.

Lemma nva_parseValue opt v : no_valid_assert (Argparser_parseValue strtof user_callback opt v).
Proof.
  unfold Argparser_parseValue, Argparser_exitDueToError; repeat nva_step.
Qed.
#[local] Hint Resolve nva_parseValue : nva.

Lemma nva_short_single opts found :
  no_valid_assert (short_single strtof user_callback opts found).
Proof.
  revert found; induction opts as [|o opts IH]; intro found; simpl; repeat nva_step.
Qed.

Lemma nva_compound_scan c opts found :
  no_valid_assert (compound_scan strtof user_callback c opts found).
Proof.
  revert found; induction opts as [|o opts IH]; intro found; simpl; repeat nva_step.
Qed.
#[local] Hint Resolve nva_short_single nva_compound_scan : nva.

Lemma nva_compound_chars opts cs found :
  no_valid_assert (compound_chars strtof user_callback opts cs found).
Proof.
  revert found; induction cs as [|c cs IH]; intro found; simpl; repeat nva_step.
Qed.

Lemma nva_long_scan opts found :
  no_valid_assert (long_scan strtof user_callback opts found).
Proof.
  revert found; induction opts as [|o opts IH]; intro found; simpl; repeat nva_step.
Qed.
#[local] Hint Resolve nva_compound_chars nva_long_scan : nva.

Lemma nva_parseShortOption opts :
  no_valid_assert (Argparser_parseShortOption strtof user_callback opts).
Proof. unfold Argparser_parseShortOption; repeat nva_step. Qed.

Lemma nva_parseLongOption opts :
  no_valid_assert (Argparser_parseLongOption strtof user_callback opts).
Proof. unfold Argparser_parseLongOption; repeat nva_step. Qed.
#[local] Hint Resolve nva_parseShortOption nva_parseLongOption : nva.

Lemma nva_parse_loop fuel : no_valid_assert (parse_loop strtof user_callback fuel).
Proof. induction fuel as [|fuel IH]; simpl; repeat nva_step. Qed.
#[local] Hint Resolve nva_parse_loop : nva.

(** Once [assert(self->valid)] has passed, [parse] does not fail it. *)
Lemma parse_valid_no_assert n w w' :
  valid (self w) = true ->
  Argparser_parse strtof user_callback n w <> Exit (AssertionFailure "self->valid") w'.
Proof.
  intros Hv H.
  unfold Argparser_parse, bind at 1, get_self at 1 in H; cbv beta iota in H.
  rewrite Hv in H; cbn [negb] in H.
  match type of H with
  | ?m w = _ => assert (Hm : no_valid_assert m) by (repeat nva_step);
                exact (Hm _ _ _ H eq_refl)
  end.
Qed.

End NoValidAssert.

(** Claim C8 (as amended): on a handle whose [valid] flag is false (as
    [Argparser_clear] leaves it) every configuration operation and [parse]
    stop at [assert(self->valid)] with the state unchanged; on a handle whose
    flag is true the configuration operations return and [parse] never fails
    that assertion. A handle only allocated by [Argparser_new] has an
    indeterminate flag. *)
Theorem C8_validity_assertion :
  forall strtof user_callback w u n,
  (match Argparser_clear w with Ok _ w' => valid (self w') = false | Exit _ _ => False end) /\
  ((valid (self w) = false /\
    Argparser_setUsage u w = Exit (AssertionFailure "self->valid") w /\
    Argparser_setDescription u w = Exit (AssertionFailure "self->valid") w /\
    Argparser_setEpilog u w = Exit (AssertionFailure "self->valid") w /\
    Argparser_setStopAtNonOption true w = Exit (AssertionFailure "self->valid") w /\
    Argparser_setStopAtNonOption false w = Exit (AssertionFailure "self->valid") w /\
    Argparser_parse strtof user_callback n w = Exit (AssertionFailure "self->valid") w)
   \/
   (valid (self w) = true /\
    (exists w', Argparser_setUsage u w = Ok tt w') /\
    (exists w', Argparser_setDescription u w = Ok tt w') /\
    (exists w', Argparser_setEpilog u w = Ok tt w') /\
    (forall b, exists w', Argparser_setStopAtNonOption b w = Ok tt w') /\
    (forall w', Argparser_parse strtof user_callback n w <> Exit (AssertionFailure "self->valid") w'))).
Proof.
  intros strtof user_callback w u n.
  split; [reflexivity|].
  destruct (valid (self w)) eqn:Hv; [right|left].
  - repeat split; try (eexists; unfold Argparser_setUsage, Argparser_setDescription,
                        Argparser_setEpilog, bind, get_self; rewrite Hv; reflexivity).
    + intro b; eexists; unfold Argparser_setStopAtNonOption, bind, get_self; rewrite Hv; reflexivity.
    + intro w'; apply parse_valid_no_assert; exact Hv.
  - unfold Argparser_setUsage, Argparser_setDescription, Argparser_setEpilog,
      Argparser_setStopAtNonOption, Argparser_parse, bind, get_self.
    rewrite Hv; repeat split; reflexivity.
Qed.

(** Claim C8, counterexample: a handle that was never initialised may carry
    a true [valid] flag; then [setUsage] returns normally and [parse] reports
    the user-facing UnknownOption instead of failing an assertion. *)
Lemma C8_counterexample :
  Argparser_new_result garbage_handle /\
  (exists w', Argparser_setUsage "usage" (mkWorld garbage_handle [] empty_store) = Ok tt w') /\
  exit_reason (Argparser_parse no_strtof marking_callbacks 2
                 (mkWorld garbage_handle [Some "bud"; Some "-z"; None] empty_store))
    = Some (UnknownOption "-z").
Proof.
  split; [constructor|]. split; [eexists; reflexivity | reflexivity].
Qed.

Lemma C7_integer_conversion_witness :
  type opt_num = ARGPARSER_TYPE_INTEGER /\ value opt_num = Some 5%nat /\
  Argparser_parseValue no_strtof marking_callbacks opt_num (Some "12abc")
      (init_world [opt_num; END] ["bud"] empty_store) =
    Exit (InvalidValue opt_num "expects an integer value")
      (with_var (init_world [opt_num; END] ["bud"] empty_store) 5 (CInt 12)).
Proof.
  split; [reflexivity|]. split; [reflexivity|].
  apply (C7_integer_conversion no_strtof marking_callbacks opt_num 5
           (init_world [opt_num; END] ["bud"] empty_store)); reflexivity.
Defined.

Lemma C9_no_destination_only_callback_witness :
  value opt_help = None /\
  Argparser_parseValue no_strtof marking_callbacks opt_help (Some "banana")
      (init_world [opt_help; END] ["bud"; "--help=banana"] empty_store) =
    callback_part marking_callbacks opt_help
      (init_world [opt_help; END] ["bud"; "--help=banana"] empty_store).
Proof.
  split; [reflexivity|].
  apply (C9_no_destination_only_callback no_strtof marking_callbacks opt_help (Some "banana")
           (init_world [opt_help; END] ["bud"; "--help=banana"] empty_store)).
  reflexivity.
Defined.

(** [--help=banana] ends in the help exit, not in InvalidValue. *)
Example help_with_value_requests_help :
  exit_reason (run_parse no_strtof marking_callbacks [opt_help; END] false empty_store
                 ["bud"; "--help=banana"]) = Some HelpRequested.
Proof. reflexivity. Qed.

(** ** Compound short options *)

(** [m] changes neither the handle nor the caller's array, whether it
    returns or exits. *)
Definition keeps_frame {A} (m : M A) : Prop :=
  forall w, match m w with
            | Ok _ w' | Exit _ w' => self w' = self w /\ mem w' = mem w
            end.

Lemma kf_bind {A B} (m : M A) (f : A -> M B) :
  keeps_frame m -> (forall a, keeps_frame (f a)) -> keeps_frame (bind m f).
Proof.
  intros Hm Hf w. unfold bind. specialize (Hm w).
  destruct (m w) as [a w1|t w1]; [|exact Hm].
  specialize (Hf a w1). destruct (f a w1); destruct Hm, Hf; split; congruence.
Qed.

Lemma kf_ret {A} (a : A) : keeps_frame (ret a).
Proof. intro w; split; reflexivity. Qed.
Lemma kf_exit {A} t : keeps_frame (@exit_ A t).
Proof. intro w; split; reflexivity. Qed.
Lemma kf_write_var d c : keeps_frame (write_var d c).
Proof. intro w; split; reflexivity. Qed.
Lemma kf_argv_at k : keeps_frame (argv_at k).
Proof. intro w; unfold argv_at; destruct (nth_error _ _) as [[]|]; split; reflexivity. Qed.

Create HintDb kf.
#[local] Hint Resolve kf_ret kf_exit kf_write_var kf_argv_at : kf.

Ltac kf_step :=
  match goal with
  | |- keeps_frame (bind _ _) => apply kf_bind; [|intro]
  | |- keeps_frame (if ?b then _ else _) => destruct b
  | |- keeps_frame (match ?x with _ => _ end) => destruct x
  | |- keeps_frame (let '(_, _) := ?x in _) => destruct x
  | |- _ => solve [eauto with kf]
  end.

Section Compound.
Variable strtof : string -> Z * nat * bool.
Variable user_callback : nat -> ArgparserOption -> store -> cb_result.

Lemma kf_run_callback opt cb : keeps_frame (run_callback user_callback opt cb).
Proof.
  destruct cb as [|id]; [apply kf_exit|].
  intro w; simpl; destruct (user_callback id opt (vars w)); split; reflexivity.
Qed.
#[local] Hint Resolve kf_run_callback : kf.

Lemma kf_parseValue opt v : keeps_frame (Argparser_parseValue strtof user_callback opt v).
Proof. unfold Argparser_parseValue, Argparser_exitDueToError; repeat kf_step. Qed.
#[local] Hint Resolve kf_parseValue : kf.

Lemma kf_compound_scan c opts found : keeps_frame (compound_scan strtof user_callback c opts found).
Proof. revert found; induction opts; intro found; simpl; repeat kf_step. Qed.
#[local] Hint Resolve kf_compound_scan : kf.

Lemma kf_exitDueToUnknownOption {A} : keeps_frame (@Argparser_exitDueToUnknownOption A).
Proof. unfold Argparser_exitDueToUnknownOption; repeat kf_step. Qed.
#[local] Hint Resolve kf_exitDueToUnknownOption : kf.

Lemma kf_compound_chars opts cs found : keeps_frame (compound_chars strtof user_callback opts cs found).
Proof. revert found; induction cs; intro found; simpl; repeat kf_step. Qed.

(** A character matching no entry before the END entry leaves the scan
    without effect. *)
Lemma compound_scan_no_match (c : ascii) (tbl rest : list ArgparserOption) found w :
  Forall (fun o => is_end o = false) tbl ->
  Forall (fun o => shortName o <> c) tbl ->
  compound_scan strtof user_callback c (tbl ++ END :: rest) found w = Ok found w.
Proof.
  revert found; induction tbl as [|o tbl IH]; intros found Hend Hc; simpl.
  - reflexivity.
  - inversion Hend; inversion Hc; subst. rewrite H1.
    destruct (Ascii.eqb_spec (shortName o) c); [contradiction|].
    apply IH; assumption.
Qed.

(** A character whose entries are all BOOLEAN options without callback sets
    each of their destinations to true, and nothing else changes. *)
Lemma compound_scan_booleans (c : ascii) (tbl rest : list ArgparserOption) found w :
  Forall (fun o => is_end o = false) tbl ->
  Forall (fun o => shortName o = c -> type o = ARGPARSER_TYPE_BOOLEAN /\ callback o = None) tbl ->
  exists w', compound_scan strtof user_callback c (tbl ++ END :: rest) found w =
               Ok (found || existsb (fun o => Ascii.eqb (shortName o) c) tbl) w' /\
             self w' = self w /\ mem w' = mem w /\
             (forall d, vars w d = CBool true -> vars w' d = CBool true) /\
             (forall o d, In o tbl -> shortName o = c -> value o = Some d -> vars w' d = CBool true).
Proof.
  revert found w; induction tbl as [|o tbl IH]; intros found w Hend Hb; simpl.
  - exists w; rewrite orb_false_r; repeat split; auto. intros o d [].
  - inversion Hend as [|? ? Ho Hend']; inversion Hb as [|? ? Hbo Hb']; subst.
    rewrite Ho.
    destruct (Ascii.eqb_spec (shortName o) c) as [Heq|Hne].
    + destruct (Hbo Heq) as [Ht Hcb].
      set (w1 := match value o with Some d => with_var w d (CBool true) | None => w end).
      assert (Hpv : Argparser_parseValue strtof user_callback o None w = Ok tt w1).
      { unfold Argparser_parseValue, bind, w1. rewrite Ht, Hcb.
        destruct (value o); reflexivity. }
      unfold bind at 1; rewrite Hpv.
      destruct (IH true w1 Hend' Hb') as (w' & Hrun & Hs & Hm & Hkeep & Hset).
      exists w'; simpl in Hrun.
      rewrite orb_true_l, orb_true_r.
      repeat split.
      * exact Hrun.
      * rewrite Hs; unfold w1; destruct (value o); reflexivity.
      * rewrite Hm; unfold w1; destruct (value o); reflexivity.
      * intros d Hd; apply Hkeep; unfold w1; destruct (value o) as [d'|]; [|exact Hd].
        simpl; unfold store_write; destruct (Nat.eqb d d'); [reflexivity|exact Hd].
      * intros o' d [<-|Hin] Hc Hv.
        -- apply Hkeep; unfold w1; rewrite Hv; simpl; unfold store_write;
             rewrite Nat.eqb_refl; reflexivity.
        -- eapply Hset; eauto.
    + destruct (IH found w Hend' Hb') as (w' & Hrun & Hs & Hm & Hkeep & Hset).
      exists w'; simpl; repeat split; auto.
      intros o' d [<-|Hin] Hc Hv; [contradiction|eapply Hset; eauto].
Qed.

(** The characters of a compound token are processed one after the other. *)
Lemma compound_chars_app opts (pre cs : list ascii) found w :
  Forall (fun x => x <> NUL) pre ->
  compound_chars strtof user_callback opts (pre ++ cs)%list found w =
  bind (compound_chars strtof user_callback opts pre found)
       (fun f => compound_chars strtof user_callback opts cs f) w.
Proof.
  revert found w; induction pre as [|x pre IH]; intros found w Hpre; simpl.
  - reflexivity.
  - inversion Hpre; subst.
    destruct (Ascii.eqb_spec x NUL); [contradiction|].
    unfold bind in *; cbv beta.
    destruct (compound_scan strtof user_callback x opts false w) as [f w1|t w1]; [|reflexivity].
    destruct f.
    + apply IH; assumption.
    + unfold Argparser_exitDueToUnknownOption, bind, argv_at.
      destruct (nth_error _ _) as [[]|]; reflexivity.
Qed.

(** In a token [-] followed by [pre], [c] and [post], where [pre] has been
    processed and [c] matches no entry, [parseShortOption] exits with
    UnknownOption in the state reached after [pre]; [post] is not looked at. *)
Lemma compound_stops_at_unknown (opts tbl rest : list ArgparserOption) (w : world)
    (arg : string) (pre : list ascii) (c : ascii) (post : list ascii) :
  nth_error (mem w) (argv (self w)) = Some (Some arg) ->
  (2 < strlen arg)%nat ->
  list_ascii_of_string (str_drop 1 arg) = (pre ++ c :: post)%list ->
  Forall (fun x => x <> NUL) pre -> c <> NUL ->
  opts = tbl ++ END :: rest ->
  Forall (fun o => is_end o = false) tbl ->
  Forall (fun o => shortName o <> c) tbl ->
  Argparser_parseShortOption strtof user_callback opts w =
    match compound_chars strtof user_callback opts pre false w with
    | Ok _ w' => Exit (UnknownOption arg) w'
    | Exit t w' => Exit t w'
    end.
Proof.
  intros Harg Hlen Hcs Hpre Hc Hopts Hend Hmiss.
  unfold Argparser_parseShortOption, bind at 1, argv_at at 1.
  rewrite Nat.add_0_r, Harg.
  replace (Nat.eqb (strlen arg) 2) with false by (symmetry; apply Nat.eqb_neq; lia).
  rewrite Hcs. unfold bind at 1. rewrite compound_chars_app by exact Hpre.
  unfold bind at 1.
  pose proof (kf_compound_chars opts pre false w) as Hkf.
  destruct (compound_chars strtof user_callback opts pre false w) as [f w1|t w1]; [|reflexivity].
  destruct Hkf as [Hs Hm]. simpl.
  destruct (Ascii.eqb_spec c NUL); [contradiction|].
  unfold bind at 1. subst opts. rewrite compound_scan_no_match by assumption.
  unfold Argparser_exitDueToUnknownOption, bind, argv_at.
  rewrite Hs, Hm, Nat.add_0_r, Harg. reflexivity.
Qed.

End Compound.

Lemma existsb_short_in (tbl : list ArgparserOption) o c :
  In o tbl -> shortName o = c -> existsb (fun o => Ascii.eqb (shortName o) c) tbl = true.
Proof.
  intros Hin Hc; apply existsb_exists; exists o; split; [exact Hin|].
  rewrite Hc; apply Ascii.eqb_refl.
Qed.

(** Claim C6: in a short-option token longer than two characters every
    character is a valueless flag of its own. With [a] and [b] naming only
    BOOLEAN entries (with destinations, no callbacks), [-ab] sets both
    destinations to true and leaves the cursor on the token, so the loop
    consumes exactly this one token; and the first character matching no
    entry ends parsing with UnknownOption in the state reached before it,
    whatever characters follow. *)
Theorem C6_compound_short_flags :
  forall strtof user_callback,
  (forall (opts tbl rest : list ArgparserOption) (w : world) (a b : ascii)
          (oa ob : ArgparserOption) (da db : nat),
     opts = tbl ++ END :: rest ->
     Forall (fun o => is_end o = false) tbl ->
     Forall (fun o => shortName o = a \/ shortName o = b ->
                      type o = ARGPARSER_TYPE_BOOLEAN /\ callback o = None) tbl ->
     In oa tbl -> shortName oa = a -> value oa = Some da ->
     In ob tbl -> shortName ob = b -> value ob = Some db ->
     a <> NUL -> b <> NUL ->
     nth_error (mem w) (argv (self w)) = Some (Some (String "-" (String a (String b EmptyString)))) ->
     exists w', Argparser_parseShortOption strtof user_callback opts w = Ok tt w' /\
                self w' = self w /\ mem w' = mem w /\
                vars w' da = CBool true /\ vars w' db = CBool true)
  /\
  (forall (opts tbl rest : list ArgparserOption) (w : world) (arg : string)
          (pre : list ascii) (c : ascii) (post : list ascii),
     nth_error (mem w) (argv (self w)) = Some (Some arg) ->
     (2 < strlen arg)%nat ->
     list_ascii_of_string (str_drop 1 arg) = pre ++ c :: post ->
     Forall (fun x => x <> NUL) pre -> c <> NUL ->
     opts = tbl ++ END :: rest ->
     Forall (fun o => is_end o = false) tbl ->
     Forall (fun o => shortName o <> c) tbl ->
     Argparser_parseShortOption strtof user_callback opts w =
       match compound_chars strtof user_callback opts pre false w with
       | Ok _ w' => Exit (UnknownOption arg) w'
       | Exit t w' => Exit t w'
       end).
Proof.
  intros strtof user_callback; split.
  - intros opts tbl rest w a b oa ob da db Hopts Hend Hb Hoa Hsa Hva Hob Hsb Hvb Ha Hbn Harg.
    unfold Argparser_parseShortOption, bind at 1, argv_at at 1.
    rewrite Nat.add_0_r, Harg.
    assert (Hlen : strlen (String "-" (String a (String b EmptyString))) = 3%nat).
    { simpl. destruct (Ascii.eqb_spec a NUL); [contradiction|].
      destruct (Ascii.eqb_spec b NUL); [contradiction|]. reflexivity. }
    rewrite Hlen. simpl (Nat.eqb 3 2). cbv iota.
    simpl (list_ascii_of_string _). unfold bind at 1. simpl compound_chars.
    destruct (Ascii.eqb_spec a NUL) as [|_]; [contradiction|].
    subst opts.
    assert (Hba : Forall (fun o => shortName o = a ->
                     type o = ARGPARSER_TYPE_BOOLEAN /\ callback o = None) tbl).
    { eapply Forall_impl; [|exact Hb]. intros o H Hc; apply H; left; exact Hc. }
    assert (Hbb : Forall (fun o => shortName o = b ->
                     type o = ARGPARSER_TYPE_BOOLEAN /\ callback o = None) tbl).
    { eapply Forall_impl; [|exact Hb]. intros o H Hc; apply H; right; exact Hc. }
    destruct (compound_scan_booleans strtof user_callback a tbl rest false w Hend Hba)
      as (w1 & Hr1 & Hs1 & Hm1 & Hk1 & Hset1).
    unfold bind at 1. rewrite Hr1.
    rewrite (existsb_short_in tbl oa a Hoa Hsa). simpl.
    destruct (Ascii.eqb_spec b NUL) as [|_]; [contradiction|].
    destruct (compound_scan_booleans strtof user_callback b tbl rest false w1 Hend Hbb)
      as (w2 & Hr2 & Hs2 & Hm2 & Hk2 & Hset2).
    unfold bind. rewrite Hr2.
    rewrite (existsb_short_in tbl ob b Hob Hsb). simpl.
    exists w2. split; [reflexivity|]. split; [congruence|]. split; [congruence|].
    split; [apply Hk2; exact (Hset1 oa da Hoa Hsa Hva) | exact (Hset2 ob db Hob Hsb Hvb)].
  - intros; eapply compound_stops_at_unknown; eauto.
Qed.

(** Claim C10: compound processing is not atomic. When a character of a
    compound token matches no entry, UnknownOption is raised in the state
    left by the characters before it: their destinations are written and
    their callbacks have run. *)
Theorem C10_compound_not_atomic :
  forall strtof user_callback (opts tbl rest : list ArgparserOption) (w : world)
         (arg : string) (pre : list ascii) (c : ascii) (post : list ascii),
  nth_error (mem w) (argv (self w)) = Some (Some arg) ->
  (2 < strlen arg)%nat ->
  list_ascii_of_string (str_drop 1 arg) = pre ++ c :: post ->
  Forall (fun x => x <> NUL) pre -> c <> NUL ->
  opts = tbl ++ END :: rest ->
  Forall (fun o => is_end o = false) tbl ->
  Forall (fun o => shortName o <> c) tbl ->
  Argparser_parseShortOption strtof user_callback opts w =
    match compound_chars strtof user_callback opts pre false w with
    | Ok _ w' => Exit (UnknownOption arg) w'
    | Exit t w' => Exit t w'
    end.
Proof. intros; eapply compound_stops_at_unknown; eauto. Qed.

Lemma C6_compound_short_flags_witness :
  (exists w', Argparser_parseShortOption no_strtof marking_callbacks [opt_a; opt_b; END]
                (world_on [opt_a; opt_b; END] "-ab") = Ok tt w' /\
              self w' = self (world_on [opt_a; opt_b; END] "-ab") /\
              mem w' = mem (world_on [opt_a; opt_b; END] "-ab") /\
              vars w' 1%nat = CBool true /\ vars w' 2%nat = CBool true) /\
  Argparser_parseShortOption no_strtof marking_callbacks [opt_a; END] (world_on [opt_a; END] "-azb") =
    match compound_chars no_strtof marking_callbacks [opt_a; END] ["a"%char] false
            (world_on [opt_a; END] "-azb") with
    | Ok _ w' => Exit (UnknownOption "-azb") w'
    | Exit t w' => Exit t w'
    end.
Proof.
  destruct (C6_compound_short_flags no_strtof marking_callbacks) as [H1 H2]. split.
  - apply (H1 [opt_a; opt_b; END] [opt_a; opt_b] [] (world_on [opt_a; opt_b; END] "-ab")
             "a"%char "b"%char opt_a opt_b 1%nat 2%nat);
      try reflexivity; try discriminate.
    + repeat constructor.
    + repeat constructor; intros _; split; reflexivity.
    + simpl; auto.
    + simpl; auto.
  - apply (H2 [opt_a; END] [opt_a] [] (world_on [opt_a; END] "-azb") "-azb"
             ["a"%char] "z"%char ["b"%char]);
      try reflexivity; try discriminate.
    + simpl; lia.
    + repeat constructor; discriminate.
    + repeat constructor.
    + repeat constructor; discriminate.
Defined.

Lemma C10_compound_not_atomic_witness :
  Argparser_parseShortOption no_strtof marking_callbacks [opt_a_cb; END] (world_on [opt_a_cb; END] "-ab") =
    match compound_chars no_strtof marking_callbacks [opt_a_cb; END] ["a"%char] false
            (world_on [opt_a_cb; END] "-ab") with
    | Ok _ w' => Exit (UnknownOption "-ab") w'
    | Exit t w' => Exit t w'
    end.
Proof.
  apply (C10_compound_not_atomic no_strtof marking_callbacks [opt_a_cb; END] [opt_a_cb] []
           (world_on [opt_a_cb; END] "-ab") "-ab" ["a"%char] "b"%char []);
    try reflexivity; try discriminate.
  - simpl; lia.
  - repeat constructor; discriminate.
  - repeat constructor.
  - repeat constructor; discriminate.
Defined.

(** On [-ab] with only [-a] known (callback 7), UnknownOption is raised after
    [-a]'s destination was set and its callback ran. *)
Example compound_unknown_after_effects :
  match Argparser_parseShortOption no_strtof marking_callbacks [opt_a_cb; END]
          (world_on [opt_a_cb; END] "-ab") with
  | Exit (UnknownOption "-ab") w' => vars w' 1%nat = CBool true /\ vars w' 107%nat = CInt 7
  | _ => False
  end.
Proof. split; reflexivity. Qed.

(** [-ab] leaves the next token ["x"] positional. *)
Example compound_consumes_one_token :
  returned_args (run_parse no_strtof marking_callbacks [opt_a; opt_b; END] false empty_store
                   ["bud"; "-ab"; "x"]) = Some [Some "x"].
Proof. reflexivity. Qed.

(** ** Runs on a prefix of the arguments

    The loop is compared on two vectors: [prog :: pre ++ m :: post] (the
    longer run, A) and [prog :: pre] (the shorter run, B). *)

(** ** Computations that only read and write the program's variables *)

(** The outcome of [m] depends on the state only through [vars]. *)
Definition vdet {A} (m : M A) : Prop :=
  forall w1 w2, vars w1 = vars w2 ->
  match m w1, m w2 with
  | Ok a1 w1', Ok a2 w2' => a1 = a2 /\ vars w1' = vars w2'
  | Exit t1 w1', Exit t2 w2' => t1 = t2 /\ vars w1' = vars w2'
  | _, _ => False
  end.

Lemma vdet_bind {A B} (m : M A) (f : A -> M B) :
  vdet m -> (forall a, vdet (f a)) -> vdet (bind m f).
Proof.
  intros Hm Hf w1 w2 E. unfold bind. specialize (Hm w1 w2 E).
  destruct (m w1) as [a1 w1'|t1 w1']; destruct (m w2) as [a2 w2'|t2 w2'];
    try contradiction; destruct Hm as [-> E']; [apply Hf; exact E' | split; auto].
Qed.

Lemma vdet_ret {A} (a : A) : vdet (ret a).
Proof. intros w1 w2 E; split; auto. Qed.
Lemma vdet_exit {A} t : vdet (@exit_ A t).
Proof. intros w1 w2 E; split; auto. Qed.
Lemma vdet_write_var d c : vdet (write_var d c).
Proof. intros w1 w2 E; simpl; rewrite E; split; auto. Qed.

Create HintDb vdet.
#[local] Hint Resolve vdet_ret vdet_exit vdet_write_var : vdet.

Ltac vdet_step :=
  match goal with
  | |- vdet (bind _ _) => apply vdet_bind; [|intro]
  | |- vdet (if ?b then _ else _) => destruct b
  | |- vdet (match ?x with _ => _ end) => destruct x
  | |- vdet (let '(_, _) := ?x in _) => destruct x
  | |- _ => solve [eauto with vdet]
  end.

Section VarsOnly.
Variable strtof : string -> Z * nat * bool.
Variable user_callback : nat -> ArgparserOption -> store -> cb_result.

Lemma vdet_run_callback opt cb : vdet (run_callback user_callback opt cb).
Proof.
  destruct cb as [|id]; [apply vdet_exit|].
  intros w1 w2 E; simpl; rewrite E.
  destruct (user_callback id opt (vars w2)); split; auto.
Qed.
#[local] Hint Resolve vdet_run_callback : vdet.

Lemma vdet_parseValue opt v : vdet (Argparser_parseValue strtof user_callback opt v).
Proof. unfold Argparser_parseValue, Argparser_exitDueToError; repeat vdet_step. Qed.
#[local] Hint Resolve vdet_parseValue : vdet.

Lemma vdet_compound_scan c opts found : vdet (compound_scan strtof user_callback c opts found).
Proof. revert found; induction opts; intro found; simpl; repeat vdet_step. Qed.

End VarsOnly.

Lemma advance_eq w : advance w = Ok tt (advw w).
Proof. reflexivity. Qed.

Lemma bind_ok {A B} (m : M A) (k : A -> M B) w a w' :
  m w = Ok a w' -> bind m k w = k a w'.
Proof. intro H; unfold bind; rewrite H; reflexivity. Qed.

Lemma bind_exit {A B} (m : M A) (k : A -> M B) w t w' :
  m w = Exit t w' -> bind m k w = Exit t w'.
Proof. intro H; unfold bind; rewrite H; reflexivity. Qed.

Lemma get_self_eq w : get_self w = Ok (self w) w.
Proof. reflexivity. Qed.

Lemma argv_at0_eq w a :
  nth_error (mem w) (argv (self w)) = Some (Some a) -> argv_at 0 w = Ok a w.
Proof. intro H; unfold argv_at; rewrite Nat.add_0_r, H; reflexivity. Qed.

Lemma argv_at0_undef w :
  (forall a, nth_error (mem w) (argv (self w)) <> Some (Some a)) -> argv_at 0 w = Exit Undefined w.
Proof.
  intro H; unfold argv_at; rewrite Nat.add_0_r.
  destruct (nth_error (mem w) (argv (self w))) as [[a|]|]; [|reflexivity|reflexivity].
  exfalso; exact (H a eq_refl).
Qed.

Lemma existsb_false_in {A} (f : A -> bool) l x : existsb f l = false -> In x l -> f x = false.
Proof.
  intros H Hx. destruct (f x) eqn:E; [|reflexivity].
  assert (existsb f l = true) by (apply existsb_exists; eauto). congruence.
Qed.

(** ** Simulation of two runs *)

Section Simulation.
Variable strtof : string -> Z * nat * bool.
Variable user_callback : nat -> ArgparserOption -> store -> cb_result.

(** A relation between a world of the longer run and one of the shorter run
    that relates the variables and the current argument. *)
Variable Rw : world -> world -> Prop.
Hypothesis Rw_vars : forall wA wB, Rw wA wB -> vars wA = vars wB.
Hypothesis Rw_setvars : forall wA wB st,
  Rw wA wB -> Rw (mkWorld (self wA) (mem wA) st) (mkWorld (self wB) (mem wB) st).
Hypothesis Rw_arg : forall wA wB,
  Rw wA wB -> nth_error (mem wA) (argv (self wA)) = nth_error (mem wB) (argv (self wB)).

Definition rr {A} (rA rB : result A) : Prop :=
  match rA, rB with
  | Ok a1 w1, Ok a2 w2 => a1 = a2 /\ Rw w1 w2
  | Exit t1 w1, Exit t2 w2 => t1 = t2 /\ vars w1 = vars w2
  | _, _ => False
  end.

Definition sim {A} (m : M A) : Prop := forall wA wB, Rw wA wB -> rr (m wA) (m wB).

Lemma sim_bind {A B} (m : M A) (f : A -> M B) :
  sim m -> (forall a, sim (f a)) -> sim (bind m f).
Proof.
  intros Hm Hf wA wB H. unfold bind. specialize (Hm wA wB H).
  destruct (m wA) as [a1 w1|t1 w1]; destruct (m wB) as [a2 w2|t2 w2];
    try contradiction; destruct Hm as [-> H']; [apply Hf; exact H' | split; auto].
Qed.

Lemma sim_ret {A} (a : A) : sim (ret a).
Proof. intros wA wB H; split; auto. Qed.
Lemma sim_exit {A} t : sim (@exit_ A t).
Proof. intros wA wB H; split; auto. Qed.

Lemma sim_vars_only {A} (m : M A) : keeps_frame m -> vdet m -> sim m.
Proof.
  intros Hk Hd wA wB H. specialize (Hd wA wB (Rw_vars _ _ H)).
  pose proof (Hk wA) as HA. pose proof (Hk wB) as HB.
  destruct (m wA) as [a1 w1|t1 w1]; destruct (m wB) as [a2 w2|t2 w2];
    try contradiction; destruct Hd as [-> Hv]; split; auto.
  destruct HA as [HA1 HA2], HB as [HB1 HB2].
  destruct w1 as [s1 m1 v1], w2 as [s2 m2 v2]; simpl in *; subst.
  apply Rw_setvars; exact H.
Qed.

Lemma sim_argv_at0 : sim (argv_at 0).
Proof.
  intros wA wB H. unfold argv_at. rewrite !Nat.add_0_r, (Rw_arg _ _ H).
  destruct (nth_error (mem wB) (argv (self wB))) as [[a|]|]; split; auto.
Qed.

Create HintDb sim.
#[local] Hint Resolve sim_ret sim_exit sim_argv_at0 : sim.

Ltac sim_step :=
  match goal with
  | |- sim (bind _ _) => apply sim_bind; [|intro]
  | |- sim (if ?b then _ else _) => destruct b
  | |- sim (match ?x with _ => _ end) => destruct x
  | |- _ => solve [eauto with sim]
  end.

Lemma sim_exitDueToUnknownOption {A} : sim (@Argparser_exitDueToUnknownOption A).
Proof. unfold Argparser_exitDueToUnknownOption; repeat sim_step. Qed.

Lemma sim_parseValue opt v : sim (Argparser_parseValue strtof user_callback opt v).
Proof. apply sim_vars_only; [apply kf_parseValue | apply vdet_parseValue]. Qed.

Lemma sim_compound_scan c opts found : sim (compound_scan strtof user_callback c opts found).
Proof. apply sim_vars_only; [apply kf_compound_scan | apply vdet_compound_scan]. Qed.
#[local] Hint Resolve sim_exitDueToUnknownOption sim_parseValue sim_compound_scan : sim.

Lemma sim_compound_chars opts cs found : sim (compound_chars strtof user_callback opts cs found).
Proof. revert found; induction cs; intro found; simpl; repeat sim_step. Qed.

Lemma sim_long_scan opts found : sim (long_scan strtof user_callback opts found).
Proof. revert found; induction opts; intro found; simpl; repeat sim_step. Qed.
#[local] Hint Resolve sim_long_scan : sim.

Lemma sim_parseLongOption opts : sim (Argparser_parseLongOption strtof user_callback opts).
Proof. unfold Argparser_parseLongOption; repeat sim_step. Qed.

End Simulation.

Lemma upd_length {A} (l : list A) i x : (i < length l)%nat -> length (upd l i x) = length l.
Proof.
  intro H. unfold upd. rewrite length_app, length_firstn. cbn [length]. rewrite length_skipn. lia.
Qed.

Lemma upd_app {A} (l r : list A) i x : (i < length l)%nat -> upd (l ++ r) i x = upd l i x ++ r.
Proof.
  intro H. unfold upd. rewrite firstn_app, skipn_app.
  replace (i - length l)%nat with 0%nat by lia. replace (S i - length l)%nat with 0%nat by lia.
  simpl. rewrite app_nil_r, <- app_assoc. reflexivity.
Qed.

Lemma nth_error_upd_gt {A} (l : list A) i x j :
  (i < length l)%nat -> (i < j)%nat -> nth_error (upd l i x) j = nth_error l j.
Proof.
  intros H1 H2. unfold upd. rewrite nth_error_app2 by (rewrite length_firstn; lia).
  rewrite length_firstn. replace (j - Nat.min i (length l))%nat with (S (j - S i)) by lia.
  change (nth_error (x :: skipn (S i) l) (S (j - S i))) with (nth_error (skipn (S i) l) (j - S i)).
  rewrite nth_error_skipn. f_equal; lia.
Qed.

Lemma firstn_upd {A} (l : list A) i x : (i < length l)%nat -> firstn i (upd l i x) = firstn i l.
Proof.
  intro H. unfold upd. rewrite firstn_app, length_firstn, firstn_firstn.
  replace (i - Nat.min i (length l))%nat with 0%nat by lia. simpl.
  rewrite app_nil_r. f_equal. lia.
Qed.

Lemma upd_same {A} (l : list A) i x : nth_error l i = Some x -> upd l i x = l.
Proof.
  revert i; induction l as [|y l IH]; intros [|i] H; simpl in *; try discriminate.
  - inversion H; subst; reflexivity.
  - unfold upd in *; simpl. f_equal. apply IH; exact H.
Qed.

Section Prefix.
Variable strtof : string -> Z * nat * bool.
Variable user_callback : nat -> ArgparserOption -> store -> cb_result.
Variable opts : list ArgparserOption.
Variable stop : bool.
(** The slots of the shorter vector before its NULL. *)
Variable orig : list (option string).
(** The tokens found in the longer vector only: [m], then [post]. *)
Variable m : string.
Variable post : list string.

Definition Rel (wA wB : world) : Prop :=
  vars wA = vars wB /\
  self wA = set_argc (self wB) (argc (self wB) + Z.of_nat (S (length post))) /\
  options (self wB) = opts /\ stopAtNonOption (self wB) = stop /\ out (self wB) = 0%nat /\
  0 <= argc (self wB) /\
  Z.of_nat (argv (self wB)) + argc (self wB) = Z.of_nat (length orig) /\
  (1 <= argv (self wB))%nat /\ (cpidx (self wB) <= argv (self wB))%nat /\
  exists pfx, length pfx = length orig /\ mem wB = pfx ++ [None] /\
    mem wA = pfx ++ Some m :: map Some post ++ [None] /\
    forall i, (argv (self wB) <= i)%nat -> nth_error pfx i = nth_error orig i.

Definition R1 (bound : Z) (wA wB : world) : Prop :=
  Rel wA wB /\ 1 <= argc (self wB) <= bound.

Lemma R1_vars bound wA wB : R1 bound wA wB -> vars wA = vars wB.
Proof. intros [[H _] _]; exact H. Qed.

Lemma R1_setvars bound wA wB st :
  R1 bound wA wB -> R1 bound (mkWorld (self wA) (mem wA) st) (mkWorld (self wB) (mem wB) st).
Proof.
  intros [(_ & H) Hb]; split; [|exact Hb]. simpl. split; [reflexivity|exact H].
Qed.

Lemma R1_arg bound wA wB :
  R1 bound wA wB -> nth_error (mem wA) (argv (self wA)) = nth_error (mem wB) (argv (self wB)).
Proof.
  intros [(_ & Hs & _ & _ & _ & _ & Hn & _ & _ & pfx & Hl & HmB & HmA & _) Hb].
  rewrite Hs, HmA, HmB. cbn [set_argc argv].
  rewrite !nth_error_app1 by lia. reflexivity.
Qed.

Lemma R1_advance bound wA wB :
  R1 bound wA wB -> 2 <= argc (self wB) -> R1 bound (advw wA) (advw wB).
Proof.
  intros [(Hv & Hs & Ho & Hst & Hout & H0 & Hn & H1 & Hc & pfx & Hl & HmB & HmA & Hor) Hb] H2.
  unfold R1, Rel, advw; rewrite Hs; cbn - [Z.of_nat].
  split; [|lia].
  split; [exact Hv|]. split; [unfold set_argc; simpl; f_equal; lia|].
  do 3 (split; [assumption|]). split; [lia|]. split; [lia|]. split; [lia|]. split; [lia|].
  exists pfx; split; [exact Hl|]. split; [exact HmB|]. split; [exact HmA|].
  intros i Hi; apply Hor; lia.
Qed.

Lemma R1_Rel_advance bound wA wB : R1 bound wA wB -> Rel (advw wA) (advw wB).
Proof.
  intros [(Hv & Hs & Ho & Hst & Hout & H0 & Hn & H1 & Hc & pfx & Hl & HmB & HmA & Hor) Hb].
  unfold R1, Rel, advw; rewrite Hs; cbn - [Z.of_nat].
  split; [exact Hv|]. split; [unfold set_argc; simpl; f_equal; lia|].
  do 3 (split; [assumption|]). split; [lia|]. split; [lia|]. split; [lia|]. split; [lia|].
  exists pfx; split; [exact Hl|]. split; [exact HmB|]. split; [exact HmA|].
  intros i Hi; apply Hor; lia.
Qed.

(** The shorter run never lets an entry take the token after its last one
    as a value, or that token starts with ['-'] and is no value anyway. *)
Hypothesis lookahead : char_at m 0 = "-"%char \/
  (forall x, (1 < length orig)%nat -> nth_error orig (pred (length orig)) = Some (Some x) ->
             names_short opts (char_at x 1) = false).

(** A step that keeps the frame, followed by a continuation. *)
Lemma R1_pv_then bound o v (k : unit -> M bool) wA wB :
  R1 bound wA wB ->
  (forall wA' wB', R1 bound wA' wB' -> self wA' = self wA -> self wB' = self wB ->
                   rr (R1 bound) (k tt wA') (k tt wB')) ->
  rr (R1 bound) (bind (Argparser_parseValue strtof user_callback o v) k wA)
                (bind (Argparser_parseValue strtof user_callback o v) k wB).
Proof.
  intros HR Hk.
  pose proof (sim_parseValue strtof user_callback (R1 bound) (R1_vars bound) (R1_setvars bound)
                o v wA wB HR) as Hs.
  pose proof (kf_parseValue strtof user_callback o v wA) as KA.
  pose proof (kf_parseValue strtof user_callback o v wB) as KB.
  unfold bind.
  destruct (Argparser_parseValue strtof user_callback o v wA) as [[] w1|t1 w1];
  destruct (Argparser_parseValue strtof user_callback o v wB) as [[] w2|t2 w2];
    try contradiction; destruct Hs as [Ht Hs]; [|split; assumption].
  apply Hk; [exact Hs | apply KA | apply KB].
Qed.

Lemma sim_short_single bound l found :
  (forall o, In o l -> In o opts) ->
  sim (R1 bound) (short_single strtof user_callback l found).
Proof.
  revert found; induction l as [|o l IH]; intros found Hin wA wB HR.
  - split; [reflexivity | exact (R1_vars _ _ _ HR)].
  - assert (IH' : forall found, sim (R1 bound) (short_single strtof user_callback l found))
      by (intro; apply IH; intros; apply Hin; right; assumption).
    cbn [short_single]. destruct (is_end o); [split; auto|].
    pose proof (R1_arg _ _ _ HR) as Harg.
    destruct (nth_error (mem wB) (argv (self wB))) as [[a|]|] eqn:EB.
    2,3: rewrite (bind_exit _ _ wA Undefined wA), (bind_exit _ _ wB Undefined wB)
           by (apply argv_at0_undef; intros a' H'; congruence);
         split; [reflexivity | exact (R1_vars _ _ _ HR)].
    rewrite (bind_ok _ _ wA a wA), (bind_ok _ _ wB a wB) by (apply argv_at0_eq; congruence).
    destruct (negb (Ascii.eqb (shortName o) NUL) && Ascii.eqb (shortName o) (char_at a 1)) eqn:Ec;
      [|apply IH'; exact HR].
    pose proof HR as [(Hv & Hs & Ho & Hst & Hout & H0 & Hn & H1 & Hc & pfx & Hl & HmB & HmA & Hor) Hb].
    destruct (Z.ltb_spec 1 (argc (self wB))) as [Hlt|Hge].
    + (* the next slot lies in the shorter vector *)
      assert (HV : nth_error (mem wA) (S (argv (self wA))) = nth_error (mem wB) (S (argv (self wB)))).
      { rewrite Hs, HmA, HmB. cbn [set_argc argv]. rewrite !nth_error_app1 by lia. reflexivity. }
      assert (HltA : (1 <? argc (self wA))%Z = true) by (rewrite Hs; cbn [set_argc argc]; apply Z.ltb_lt; lia).
      assert (HltB : (1 <? argc (self wB))%Z = true) by (apply Z.ltb_lt; lia).
      destruct (nth_error (mem wB) (S (argv (self wB)))) as [[v|]|] eqn:EV.
      * destruct (Ascii.eqb (char_at v 0) "-") eqn:Ed.
        -- rewrite (bind_ok _ _ wA None wA), (bind_ok _ _ wB None wB)
             by (unfold next_value; cbv zeta; first [rewrite HltA, HV | rewrite HltB, EV]; rewrite Ed; reflexivity).
           apply R1_pv_then; [exact HR|]. intros wA' wB' HR' _ _. apply IH'; exact HR'.
        -- rewrite (bind_ok _ _ wA (Some v) wA), (bind_ok _ _ wB (Some v) wB)
             by (unfold next_value; cbv zeta; first [rewrite HltA, HV | rewrite HltB, EV]; rewrite Ed; reflexivity).
           apply R1_pv_then; [exact HR|]. intros wA' wB' HR' EA EB'.
           rewrite (bind_ok _ _ wA' tt (advw wA')), (bind_ok _ _ wB' tt (advw wB')) by apply advance_eq.
           apply IH'. apply R1_advance; [exact HR'|]. rewrite EB'; lia.
      * rewrite (bind_ok _ _ wA None wA), (bind_ok _ _ wB None wB)
          by (unfold next_value; cbv zeta; first [rewrite HltA, HV | rewrite HltB, EV]; reflexivity).
        apply R1_pv_then; [exact HR|]. intros wA' wB' HR' _ _. apply IH'; exact HR'.
      * rewrite (bind_exit _ _ wA Undefined wA), (bind_exit _ _ wB Undefined wB)
          by (unfold next_value; cbv zeta; first [rewrite HltA, HV | rewrite HltB, EV]; reflexivity).
        split; [reflexivity|exact Hv].
    + (* the last argument of the shorter run *)
      assert (HltA : (1 <? argc (self wA))%Z = true) by (rewrite Hs; cbn [set_argc argc]; apply Z.ltb_lt; lia).
      assert (HltB : (1 <? argc (self wB))%Z = false) by (apply Z.ltb_ge; lia).
      assert (HV : nth_error (mem wA) (S (argv (self wA))) = Some (Some m)).
      { rewrite Hs, HmA. cbn [set_argc argv]. rewrite nth_error_app2 by lia.
        replace (S (argv (self wB)) - length pfx)%nat with 0%nat by lia. reflexivity. }
      destruct lookahead as [Hm|Hnames].
      * rewrite (bind_ok _ _ wA None wA), (bind_ok _ _ wB None wB)
          by (unfold next_value; cbv zeta; first [rewrite HltA, HV, Hm | rewrite HltB]; reflexivity).
        apply R1_pv_then; [exact HR|]. intros wA' wB' HR' _ _. apply IH'; exact HR'.
      * exfalso.
        assert (Ea : nth_error orig (pred (length orig)) = Some (Some a)).
        { rewrite <- Hor by lia. replace (pred (length orig)) with (argv (self wB)) by lia.
          rewrite HmB, nth_error_app1 in EB by lia. exact EB. }
        assert (H2 : (1 < length orig)%nat) by lia.
        pose proof (existsb_false_in _ _ o (Hnames a H2 Ea) (Hin o (or_introl eq_refl))) as Hf.
        simpl in Hf. rewrite Hf in Ec. discriminate.
Qed.

Lemma sim_parseShortOption bound :
  sim (R1 bound) (Argparser_parseShortOption strtof user_callback opts).
Proof.
  pose proof (R1_vars bound) as V. pose proof (R1_setvars bound) as SV. pose proof (R1_arg bound) as AR.
  unfold Argparser_parseShortOption.
  apply sim_bind; [apply sim_argv_at0; auto|intro a].
  apply sim_bind; [|intro found].
  - destruct (Nat.eqb (strlen a) 2).
    + apply sim_short_single; auto.
    + apply sim_compound_chars; auto.
  - destruct found; [apply sim_ret | apply sim_exitDueToUnknownOption; auto].
Qed.

Lemma sim_parseLongOption' bound :
  sim (R1 bound) (Argparser_parseLongOption strtof user_callback opts).
Proof. apply sim_parseLongOption; [apply R1_vars | apply R1_setvars | apply R1_arg]. Qed.

(** [self->out[self->cpidx++] = self->argv[0]] followed by [advance]. *)
Lemma copy_advance_rel bound wA wB a :
  R1 bound wA wB -> nth_error (mem wB) (argv (self wB)) = Some (Some a) ->
  exists wA1 wB1, copy_to_out wA = Ok tt wA1 /\ copy_to_out wB = Ok tt wB1 /\
    Rel (advw wA1) (advw wB1) /\
    argc (self wA1) = argc (self wA) /\ argc (self wB1) = argc (self wB).
Proof.
  intros HR EB. pose proof (R1_arg _ _ _ HR) as Harg. rewrite EB in Harg.
  destruct HR as [(Hv & Hs & Ho & Hst & Hout & H0 & Hn & H1 & Hc & pfx & Hl & HmB & HmA & Hor) Hb].
  assert (Hc' : (out (self wB) + cpidx (self wB) < length pfx)%nat) by lia.
  unfold copy_to_out. cbv zeta. rewrite Harg, EB. unfold write_mem. cbn [self mem vars].
  rewrite Hs. cbn [set_argc out cpidx argv argc valid options usage description epilog stopAtNonOption].
  rewrite (proj2 (Nat.ltb_lt _ _)) by (rewrite HmA, length_app; simpl; lia).
  rewrite (proj2 (Nat.ltb_lt _ _)) by (rewrite HmB, length_app; simpl; lia).
  do 2 eexists; split; [reflexivity|]; split; [reflexivity|].
  split; [|split; reflexivity].
  unfold Rel, advw; cbn - [Z.of_nat firstn skipn].
  split; [exact Hv|]. split; [unfold set_argc; simpl; f_equal; lia|].
  do 3 (split; [assumption|]). split; [lia|]. split; [lia|]. split; [lia|]. split; [lia|].
  exists (upd pfx (out (self wB) + cpidx (self wB)) (Some a)).
  split; [rewrite upd_length; lia|].
  split; [rewrite HmB; exact (upd_app pfx [None] _ (Some a) Hc')|].
  split; [rewrite HmA; exact (upd_app pfx _ _ (Some a) Hc')|].
  intros i Hi. rewrite nth_error_upd_gt by lia. apply Hor; lia.
Qed.

(** How the loop of the shorter run ended, besides reaching its end. *)
Definition stopped_early (wB : world) : Prop :=
  exists i x, (1 <= i)%nat /\ nth_error orig i = Some (Some x) /\
    (is_dashdash x = true \/ (stop = true /\ is_plain x = true)).

Lemma Rel_R1 wA wB : Rel wA wB -> argc (self wB) <> 0 -> R1 (argc (self wB)) wA wB.
Proof. intros HR Hn; split; [exact HR|]. destruct HR as (_ & _ & _ & _ & _ & H0 & _). lia. Qed.

Lemma R1_Rel bound wA wB : R1 bound wA wB -> Rel wA wB.
Proof. intros [H _]; exact H. Qed.

(** One turn of the loop: a step, [advance], then the rest of the loop. *)
Lemma loop_turn (X : M unit) fB fA wA wB
    (IH : forall fA wA wB, Rel wA wB ->
          (Z.to_nat (argc (self wB)) <= fB)%nat -> (Z.to_nat (argc (self wA)) <= fA)%nat ->
          match parse_loop strtof user_callback fB wB with
          | Ok _ wB' => exists wA', Rel wA' wB' /\
              ((parse_loop strtof user_callback fA wA = Ok tt wA' /\ stopped_early wB')
               \/ (argc (self wB') = 0 /\ exists fA', (Z.to_nat (argc (self wA')) <= fA')%nat /\
                     parse_loop strtof user_callback fA wA = parse_loop strtof user_callback fA' wA'))
          | Exit t wB' => exists wA', parse_loop strtof user_callback fA wA = Exit t wA' /\
                                      vars wA' = vars wB'
          end) :
  R1 (argc (self wB)) wA wB -> sim (R1 (argc (self wB))) X ->
  (Z.to_nat (argc (self wB)) <= S fB)%nat -> (Z.to_nat (argc (self wA)) <= S fA)%nat ->
  match (X;; advance;; parse_loop strtof user_callback fB) wB with
  | Ok _ wB' => exists wA', Rel wA' wB' /\
      (((X;; advance;; parse_loop strtof user_callback fA) wA = Ok tt wA' /\ stopped_early wB')
       \/ (argc (self wB') = 0 /\ exists fA', (Z.to_nat (argc (self wA')) <= fA')%nat /\
             (X;; advance;; parse_loop strtof user_callback fA) wA = parse_loop strtof user_callback fA' wA'))
  | Exit t wB' => exists wA', (X;; advance;; parse_loop strtof user_callback fA) wA = Exit t wA' /\
                              vars wA' = vars wB'
  end.
Proof.
  intros HR HX HfB HfA. specialize (HX wA wB HR).
  destruct (X wA) as [[] w1|t1 w1] eqn:EA; destruct (X wB) as [[] w2|t2 w2] eqn:EB;
    try contradiction; destruct HX as [Ht HX].
  2: { subst t2. rewrite (bind_exit _ _ _ _ _ EA), (bind_exit _ _ _ _ _ EB).
       exists w1; split; [reflexivity|exact HX]. }
  rewrite (bind_ok _ _ _ _ _ EA), (bind_ok _ _ _ _ _ EB).
  rewrite !(bind_ok _ _ _ tt _ (advance_eq _)).
  pose proof (R1_Rel_advance _ _ _ HX) as HR'.
  destruct HX as [(_ & Hs1 & _ & _ & _ & H01 & _) Hb1].
  destruct HR as [(_ & Hs & _ & _ & _ & H0 & _) Hb].
  apply IH; [exact HR'| |].
  - unfold advw; cbn [self argc]. lia.
  - unfold advw; cbn [self argc]. rewrite Hs1. cbn [set_argc argc].
    rewrite Hs in HfA. cbn [set_argc argc] in HfA. lia.
Qed.

Lemma loop_prefix fB : forall fA wA wB,
  Rel wA wB ->
  (Z.to_nat (argc (self wB)) <= fB)%nat -> (Z.to_nat (argc (self wA)) <= fA)%nat ->
  match parse_loop strtof user_callback fB wB with
  | Ok _ wB' => exists wA', Rel wA' wB' /\
      ((parse_loop strtof user_callback fA wA = Ok tt wA' /\ stopped_early wB')
       \/ (argc (self wB') = 0 /\ exists fA', (Z.to_nat (argc (self wA')) <= fA')%nat /\
             parse_loop strtof user_callback fA wA = parse_loop strtof user_callback fA' wA'))
  | Exit t wB' => exists wA', parse_loop strtof user_callback fA wA = Exit t wA' /\
                              vars wA' = vars wB'
  end.
Proof.
  induction fB as [|fB IH]; intros fA wA wB HR HfB HfA.
  - pose proof HR as (_ & _ & _ & _ & _ & H0 & _).
    exists wA; split; [exact HR|]; right; split; [simpl; lia|].
    exists fA; split; [exact HfA|reflexivity].
  - pose proof HR as (Hv & Hs & Ho & Hst & Hout & H0 & Hn & H1 & Hc & pfx & Hl & HmB & HmA & Hor).
    cbn [parse_loop]. rewrite (bind_ok _ _ wB _ _ (get_self_eq wB)). cbv beta.
    destruct (Z.eqb_spec (argc (self wB)) 0) as [Hz|Hnz].
    + exists wA; split; [exact HR|]; right; split; [exact Hz|].
      exists fA; split; [exact HfA|reflexivity].
    + destruct fA as [|fA]; [rewrite Hs in HfA; cbn [set_argc argc] in HfA; lia|].
      cbn [parse_loop]. rewrite (bind_ok _ _ wA _ _ (get_self_eq wA)). cbv beta.
      assert (HzA : Z.eqb (argc (self wA)) 0 = false)
        by (rewrite Hs; cbn [set_argc argc]; apply Z.eqb_neq; lia).
      rewrite HzA.
      pose proof (Rel_R1 _ _ HR Hnz) as HR1.
      pose proof (R1_arg _ _ _ HR1) as Harg.
      destruct (nth_error (mem wB) (argv (self wB))) as [[a|]|] eqn:EB.
      2,3: rewrite (bind_exit _ _ wA Undefined wA), (bind_exit _ _ wB Undefined wB)
             by (apply argv_at0_undef; intros a' H'; congruence);
           exists wA; split; [reflexivity|exact Hv].
      rewrite (bind_ok _ _ wA a wA), (bind_ok _ _ wB a wB) by (apply argv_at0_eq; congruence).
      assert (Ea : nth_error orig (argv (self wB)) = Some (Some a)).
      { rewrite <- Hor by lia. rewrite HmB, nth_error_app1 in EB by lia. exact EB. }
      assert (HsA : stopAtNonOption (self wA) = stop) by (rewrite Hs; exact Hst).
      assert (HoA : options (self wA) = opts) by (rewrite Hs; exact Ho).
      rewrite HsA, HoA, Hst, Ho.
      destruct (negb (Ascii.eqb (char_at a 0) "-") || Ascii.eqb (char_at a 1) NUL) eqn:Hp.
      * destruct stop eqn:Estop.
        -- exists wA; split; [exact HR|]; left; split; [reflexivity|].
           exists (argv (self wB)), a. split; [exact H1|]. split; [exact Ea|].
           right; split; [exact Estop|exact Hp].
        -- destruct (copy_advance_rel _ _ _ _ HR1 EB) as (wA1 & wB1 & CA & CB & HR' & EA1 & EB1).
           rewrite (bind_ok _ _ _ _ _ CA), (bind_ok _ _ _ _ _ CB).
           rewrite !(bind_ok _ _ _ tt _ (advance_eq _)).
           apply IH; [exact HR'| |].
           ++ unfold advw; cbn [self argc]. lia.
           ++ unfold advw; cbn [self argc]. rewrite EA1. lia.
      * destruct (negb (Ascii.eqb (char_at a 1) "-")) eqn:Hd.
        -- apply loop_turn; [exact IH|exact HR1|apply sim_parseShortOption|lia|exact HfA].
        -- destruct (negb (Ascii.eqb (char_at a 2) NUL)) eqn:Hl2.
           ++ apply loop_turn; [exact IH|exact HR1|apply sim_parseLongOption'|lia|exact HfA].
           ++ rewrite !advance_eq. exists (advw wA); split; [exact (R1_Rel_advance _ _ _ HR1)|].
              left; split; [reflexivity|].
              exists (argv (self wB)), a. split; [exact H1|]. split; [exact Ea|].
              left. unfold is_dashdash.
              apply orb_false_iff in Hp; destruct Hp as [Hp0 _].
              apply negb_false_iff in Hp0, Hd, Hl2. rewrite Hp0, Hd, Hl2. reflexivity.
Qed.

End Prefix.

Lemma finish_spec w :
  out (self w) = 0%nat -> 0 <= argc (self w) -> (cpidx (self w) <= argv (self w))%nat ->
  (argv (self w) + Z.to_nat (argc (self w)) < length (mem w))%nat ->
  exists w', parse_finish w = Ok (Z.of_nat (cpidx (self w)) + argc (self w)) w' /\
    vars w' = vars w /\
    firstn (cpidx (self w) + Z.to_nat (argc (self w))) (mem w') =
      firstn (cpidx (self w)) (mem w) ++
      firstn (Z.to_nat (argc (self w))) (skipn (argv (self w)) (mem w)).
Proof.
  intros Hout H0 Hc Hlen.
  set (c := cpidx (self w)) in *. set (n := Z.to_nat (argc (self w))) in *.
  set (blk := firstn n (skipn (argv (self w)) (mem w))).
  assert (Hblk : length blk = n) by (unfold blk; rewrite length_firstn, length_skipn; lia).
  unfold parse_finish. rewrite (bind_ok _ _ _ _ _ (get_self_eq w)). cbv beta.
  rewrite Hout. cbn [Nat.add]. fold c n.
  set (mem1 := firstn c (mem w) ++ blk ++ skipn (c + n) (mem w)).
  assert (Hm1 : length mem1 = length (mem w)).
  { unfold mem1. rewrite !length_app, length_firstn, length_skipn, Hblk. lia. }
  rewrite (bind_ok _ _ _ tt (mkWorld (self w) mem1 (vars w))).
  2: { unfold memmove. rewrite (proj2 (Nat.leb_le _ _)) by lia.
       rewrite (proj2 (Nat.leb_le _ _)) by lia. reflexivity. }
  rewrite (bind_ok _ _ _ tt (mkWorld (self w) (upd mem1 (c + n) None) (vars w))).
  2: { unfold write_mem. cbn [mem self vars]. rewrite (proj2 (Nat.ltb_lt _ _)) by lia. reflexivity. }
  eexists; split; [reflexivity|]. split; [reflexivity|]. cbn [mem].
  rewrite firstn_upd by lia. unfold mem1.
  rewrite app_assoc, firstn_app.
  rewrite length_app, length_firstn, Hblk.
  replace (c + n - (Nat.min c (length (mem w)) + n))%nat with 0%nat by lia.
  simpl firstn at 2. rewrite app_nil_r.
  rewrite firstn_all2; [reflexivity|].
  rewrite length_app, length_firstn, Hblk. lia.
Qed.

Section Finish.
Variable strtof : string -> Z * nat * bool.
Variable user_callback : nat -> ArgparserOption -> store -> cb_result.
Variable opts : list ArgparserOption.
Variable stop : bool.
Variable orig : list (option string).
Variable m : string.
Variable post : list string.

Lemma skipn_app_le {A} n (l r : list A) : (n <= length l)%nat -> skipn n (l ++ r) = skipn n l ++ r.
Proof. intro H. rewrite skipn_app. replace (n - length l)%nat with 0%nat by lia. reflexivity. Qed.

Lemma firstn_app_le {A} n (l r : list A) : (n <= length l)%nat -> firstn n (l ++ r) = firstn n l.
Proof. intro H. rewrite firstn_app. replace (n - length l)%nat with 0%nat by lia. apply app_nil_r. Qed.

(** After the loop, the longer run returns the shorter run's slots followed
    by [m] and [post]. *)
Lemma finish_rel wA wB :
  Rel opts stop orig m post wA wB ->
  exists nA wA' nB wB', parse_finish wA = Ok nA wA' /\ parse_finish wB = Ok nB wB' /\
    vars wA' = vars wB' /\
    firstn (Z.to_nat nA) (mem wA') = firstn (Z.to_nat nB) (mem wB') ++ Some m :: map Some post.
Proof.
  intros (Hv & Hs & Ho & Hst & Hout & H0 & Hn & H1 & Hc & pfx & Hl & HmB & HmA & Hor).
  assert (SA : out (self wA) = 0%nat /\ cpidx (self wA) = cpidx (self wB) /\
               argv (self wA) = argv (self wB) /\
               argc (self wA) = argc (self wB) + Z.of_nat (S (length post)))
    by (rewrite Hs; repeat split; assumption).
  destruct SA as (HoutA & HcA & HvA & HaA).
  destruct (finish_spec wA) as (wA' & FA & VA & LA); try lia.
  { rewrite HmA, length_app; simpl; rewrite length_app, length_map; simpl. lia. }
  destruct (finish_spec wB) as (wB' & FB & VB & LB); try lia.
  { rewrite HmB, length_app; simpl. lia. }
  exists (Z.of_nat (cpidx (self wA)) + argc (self wA)), wA',
         (Z.of_nat (cpidx (self wB)) + argc (self wB)), wB'.
  split; [exact FA|]. split; [exact FB|]. split; [congruence|].
  rewrite !Z2Nat.inj_add, !Nat2Z.id by lia.
  rewrite LA, LB, HcA, HvA, HaA, HmA, HmB.
  rewrite !firstn_app_le by lia.
  rewrite !skipn_app_le by lia.
  assert (Hk : length (skipn (argv (self wB)) pfx) = Z.to_nat (argc (self wB))) by (rewrite length_skipn; lia).
  rewrite Z2Nat.inj_add, Nat2Z.id by lia. rewrite <- Hk, firstn_app_2.
  rewrite (firstn_app_le _ _ [None]), firstn_all by lia.
  rewrite <- app_assoc. do 2 f_equal.
  cbn [firstn]. f_equal.
  rewrite <- (length_map Some post), firstn_app_le, firstn_all by lia. reflexivity.
Qed.
(** When the shorter run reached its end and [m] is ["--"], the longer run
    returns the shorter run's slots followed by [post]. *)
Lemma finish_rel_dd wA wB :
  Rel opts stop orig m post wA wB -> argc (self wB) = 0 ->
  exists nA wA' nB wB', parse_finish (advw wA) = Ok nA wA' /\ parse_finish wB = Ok nB wB' /\
    vars wA' = vars wB' /\
    firstn (Z.to_nat nA) (mem wA') = firstn (Z.to_nat nB) (mem wB') ++ map Some post.
Proof.
  intros (Hv & Hs & Ho & Hst & Hout & H0 & Hn & H1 & Hc & pfx & Hl & HmB & HmA & Hor) Hz.
  assert (SA : out (self (advw wA)) = 0%nat /\ cpidx (self (advw wA)) = cpidx (self wB) /\
               argv (self (advw wA)) = S (argv (self wB)) /\
               argc (self (advw wA)) = Z.of_nat (length post) /\ mem (advw wA) = mem wA /\
               vars (advw wA) = vars wA)
    by (unfold advw; rewrite Hs; cbn [self set_argc out cpidx argv argc mem vars];
        repeat split; try assumption; try reflexivity; lia).
  destruct SA as (HoutA & HcA & HvA & HaA & HmA' & HvarA).
  destruct (finish_spec (advw wA)) as (wA' & FA & VA & LA); try lia.
  { rewrite HvA, HaA, HmA', HmA, length_app; simpl; rewrite length_app, length_map; simpl. lia. }
  destruct (finish_spec wB) as (wB' & FB & VB & LB); try lia.
  { rewrite HmB, length_app; simpl. lia. }
  eexists; exists wA'; eexists; exists wB'.
  split; [exact FA|]. split; [exact FB|]. split; [congruence|].
  rewrite !Z2Nat.inj_add, !Nat2Z.id by lia.
  rewrite LA, LB, HcA, HvA, HaA, HmA', HmA, HmB, Hz, Nat2Z.id.
  rewrite !firstn_app_le by lia.
  rewrite skipn_app. replace (S (argv (self wB)) - length pfx)%nat with 1%nat by lia.
  rewrite skipn_all2 by lia. cbn [skipn firstn app]. rewrite app_nil_r.
  rewrite <- (length_map Some post), firstn_app_le, firstn_all by lia. reflexivity.
Qed.

(** The longer run at [m] once the shorter one has reached its end. *)
Lemma loop_at_m f wA wB :
  Rel opts stop orig m post wA wB -> argc (self wB) = 0 ->
  (Z.to_nat (argc (self wA)) <= f)%nat ->
  (is_dashdash m = true -> parse_loop strtof user_callback f wA = Ok tt (advw wA)) /\
  (stop = true -> is_plain m = true -> parse_loop strtof user_callback f wA = Ok tt wA).
Proof.
  intros (Hv & Hs & Ho & Hst & Hout & H0 & Hn & H1 & Hc & pfx & Hl & HmB & HmA & Hor) Hz Hf.
  assert (HaA : argc (self wA) = Z.of_nat (S (length post))) by (rewrite Hs; cbn [set_argc argc]; lia).
  destruct f as [|f]; [rewrite HaA in Hf; lia|].
  cbn [parse_loop]. rewrite (bind_ok _ _ wA _ _ (get_self_eq wA)). cbv beta.
  rewrite HaA. cbn [Z.eqb Z.of_nat].
  rewrite (bind_ok _ _ wA m wA).
  2: { apply argv_at0_eq. rewrite Hs, HmA. cbn [set_argc argv].
       rewrite nth_error_app2 by lia. replace (argv (self wB) - length pfx)%nat with 0%nat by lia.
       reflexivity. }
  assert (HsA : stopAtNonOption (self wA) = stop) by (rewrite Hs; exact Hst).
  rewrite HsA. split.
  - intro Hd. unfold is_dashdash in Hd.
    apply andb_true_iff in Hd; destruct Hd as [Hd Hd2]. apply andb_true_iff in Hd; destruct Hd as [Hd0 Hd1].
    apply Ascii.eqb_eq in Hd0, Hd1. rewrite Hd0, Hd1, Hd2. reflexivity.
  - intros Hstop Hp. unfold is_plain in Hp. rewrite Hp, Hstop. reflexivity.
Qed.

End Finish.

Lemma run_parse_eq strtof user_callback opts stop st args :
  args <> [] ->
  run_parse strtof user_callback opts stop st args =
  (parse_loop strtof user_callback (Z.to_nat (Z.of_nat (length args) - 1));; parse_finish)
    (start_world opts stop st args).
Proof.
  intro Hne. unfold run_parse.
  rewrite (bind_ok _ _ _ tt (mkWorld (mkArgparser true opts None None None stop 0 0 0 0)
                              (map Some args ++ [None]) st)) by reflexivity.
  unfold Argparser_parse. rewrite (bind_ok _ _ _ _ _ (get_self_eq _)). cbv beta.
  cbn [self valid negb].
  rewrite (proj2 (Z.ltb_ge _ _)) by (destruct args; [congruence|simpl length; lia]).
  reflexivity.
Qed.

Lemma nth_error_last_map {A} (x : A) (l : list A) (a : A) :
  nth_error (map Some (x :: l ++ [a])) (pred (length (map Some (x :: l ++ [a])))) = Some (Some a).
Proof.
  rewrite length_map. cbn [length pred]. rewrite length_app. cbn [length].
  rewrite Nat.add_1_r. cbn [map nth_error]. rewrite map_app, nth_error_app2 by (rewrite length_map; lia).
  rewrite length_map, Nat.sub_diag. reflexivity.
Qed.

(** Running [parse] on [prog :: pre ++ m :: post] and on [prog :: pre]:
    when [m] ends the loop, the longer run ends as the shorter one, with [m]
    and [post] (or [post] alone, [m] being ["--"]) after its positionals,
    unless the shorter run stopped early at a ["--"] or PLAIN token. *)
Lemma run_prefix strtof user_callback opts stop st prog pre m post :
  (char_at m 0 = "-"%char \/
   forall pre' x, pre = pre' ++ [x] -> names_short opts (char_at x 1) = false) ->
  is_dashdash m = true \/ (stop = true /\ is_plain m = true) ->
  let rA := run_parse strtof user_callback opts stop st (prog :: pre ++ m :: post) in
  let rB := run_parse strtof user_callback opts stop st (prog :: pre) in
  exit_reason rA = exit_reason rB /\ (forall d, final_var rA d = final_var rB d) /\
  (((exists x, In x pre /\ (is_dashdash x = true \/ (stop = true /\ is_plain x = true))) /\
    returned_args rA = option_map (fun l => l ++ map Some (m :: post)) (returned_args rB))
   \/ returned_args rA =
      option_map (fun l => l ++ map Some (if is_dashdash m then post else m :: post))
                 (returned_args rB)).
Proof.
  intros HLA Hm rA rB. unfold rA, rB. rewrite !run_parse_eq by discriminate.
  set (orig := map Some (prog :: pre)).
  set (wA0 := start_world opts stop st (prog :: pre ++ m :: post)).
  set (wB0 := start_world opts stop st (prog :: pre)).
  assert (HR : Rel opts stop orig m post wA0 wB0).
  { unfold Rel, wA0, wB0, start_world, orig; cbn [self vars mem set_argc argc argv out cpidx options stopAtNonOption].
    split; [reflexivity|]. split.
    { unfold set_argc; cbn [valid options usage description epilog stopAtNonOption argc argv out cpidx].
      f_equal. cbn [length]. rewrite length_app. cbn [length]. lia. }
    split; [reflexivity|]. split; [reflexivity|]. split; [reflexivity|].
    split; [cbn [length]; lia|]. split; [rewrite length_map; cbn [length]; lia|].
    split; [lia|]. split; [lia|].
    exists (map Some (prog :: pre)). split; [reflexivity|]. split; [reflexivity|].
    split; [|reflexivity]. rewrite app_comm_cons, map_app. cbn [map]. rewrite <- app_assoc. reflexivity. }
  assert (HLA' : char_at m 0 = "-"%char \/
    (forall x, (1 < length orig)%nat -> nth_error orig (pred (length orig)) = Some (Some x) ->
               names_short opts (char_at x 1) = false)).
  { destruct HLA as [H|H]; [left; exact H|right]. intros x Hlen Hx.
    assert (Hne : pre <> []) by (intro E; unfold orig in Hlen; rewrite E in Hlen; simpl in Hlen; lia).
    destruct (exists_last Hne) as (pre' & a & Ea). unfold orig in Hx. rewrite Ea in Hx.
    rewrite nth_error_last_map in Hx. injection Hx as <-. apply (H pre'); exact Ea. }
  pose proof (loop_prefix strtof user_callback opts stop orig m post HLA'
                (Z.to_nat (Z.of_nat (length (prog :: pre)) - 1))
                (Z.to_nat (Z.of_nat (length (prog :: pre ++ m :: post)) - 1))
                wA0 wB0 HR (le_n _) (le_n _)) as L.
  destruct (parse_loop strtof user_callback _ wB0) as [[] wB'|t wB'] eqn:EB.
  - destruct L as (wA' & HR' & [[EA Hearly] | [Hz (fA' & HfA' & EA)]]).
    + rewrite (bind_ok _ _ _ _ _ EA), (bind_ok _ _ _ _ _ EB).
      destruct (finish_rel opts stop orig m post wA' wB' HR') as (nA & wA'' & nB & wB'' & FA & FB & V & Lst).
      rewrite FA, FB. split; [reflexivity|]. split; [intro; simpl; congruence|].
      left. split; [|simpl; rewrite Lst; reflexivity].
      destruct Hearly as (i & x & Hi & Hx & Hp). exists x; split; [|exact Hp].
      destruct i as [|i]; [lia|]. unfold orig in Hx. cbn [map nth_error] in Hx.
      apply nth_error_In, in_map_iff in Hx. destruct Hx as (y & Hy & Hin). injection Hy as ->. exact Hin.
    + destruct (loop_at_m strtof user_callback opts stop orig m post fA' wA' wB' HR' Hz HfA') as [Hdd Hpl].
      destruct (is_dashdash m) eqn:Edd.
      * rewrite (bind_ok _ _ _ _ _ (eq_trans EA (Hdd eq_refl))), (bind_ok _ _ _ _ _ EB).
        destruct (finish_rel_dd opts stop orig m post wA' wB' HR' Hz) as (nA & wA'' & nB & wB'' & FA & FB & V & Lst).
        rewrite FA, FB. split; [reflexivity|]. split; [intro; simpl; congruence|].
        right. simpl; rewrite Lst; reflexivity.
      * destruct Hm as [Hm|[Hs Hp]]; [discriminate|].
        rewrite (bind_ok _ _ _ _ _ (eq_trans EA (Hpl Hs Hp))), (bind_ok _ _ _ _ _ EB).
        destruct (finish_rel opts stop orig m post wA' wB' HR') as (nA & wA'' & nB & wB'' & FA & FB & V & Lst).
        rewrite FA, FB. split; [reflexivity|]. split; [intro; simpl; congruence|].
        right. simpl; rewrite Lst; reflexivity.
  - destruct L as (wA' & EA & V).
    rewrite (bind_exit _ _ _ _ _ EA), (bind_exit _ _ _ _ _ EB).
    split; [reflexivity|]. split; [intro; simpl; congruence|]. right; reflexivity.
Qed.

Lemma plain_not_dashdash x : is_plain x = true -> is_dashdash x = false.
Proof.
  unfold is_plain, is_dashdash. intro H.
  destruct (Ascii.eqb_spec (char_at x 0) "-") as [E0|E0]; [|reflexivity].
  destruct (Ascii.eqb_spec (char_at x 1) NUL) as [E1|E1]; [|simpl in H; discriminate].
  rewrite E1. reflexivity.
Qed.

(** The loop reaching a ["--"]: it consumes it and ends. *)
Lemma loop_at_dashdash strtof user_callback fuel w a :
  (0 < argc (self w))%Z -> nth_error (mem w) (argv (self w)) = Some (Some a) ->
  is_dashdash a = true ->
  parse_loop strtof user_callback (S fuel) w = Ok tt (advw w).
Proof.
  intros Hc Ha Hd. cbn [parse_loop]. rewrite (bind_ok _ _ w _ _ (get_self_eq w)). cbv beta.
  rewrite (proj2 (Z.eqb_neq _ _)) by lia.
  rewrite (bind_ok _ _ w a w) by (apply argv_at0_eq; exact Ha).
  unfold is_dashdash in Hd.
  apply andb_true_iff in Hd; destruct Hd as [Hd Hd2]. apply andb_true_iff in Hd; destruct Hd as [Hd0 Hd1].
  apply Ascii.eqb_eq in Hd0, Hd1. rewrite Hd0, Hd1, Hd2. reflexivity.
Qed.

(** The loop reaching a PLAIN token with [stopAtNonOption] set: it ends there. *)
Lemma loop_at_plain strtof user_callback fuel w a :
  stopAtNonOption (self w) = true -> (0 < argc (self w))%Z ->
  nth_error (mem w) (argv (self w)) = Some (Some a) -> is_plain a = true ->
  parse_loop strtof user_callback (S fuel) w = Ok tt w.
Proof.
  intros Hs Hc Ha Hp. cbn [parse_loop]. rewrite (bind_ok _ _ w _ _ (get_self_eq w)). cbv beta.
  rewrite (proj2 (Z.eqb_neq _ _)) by lia.
  rewrite (bind_ok _ _ w a w) by (apply argv_at0_eq; exact Ha).
  unfold is_plain in Hp. rewrite Hp, Hs. reflexivity.
Qed.

(** Claim C4 (amended): whenever the parse loop reaches a token that is
    exactly ["--"], that token is consumed and parsing ends. In a state [w]
    of the loop whose current token [argv[0]] is ["--"] (with the bounds
    every state of a run from a fresh handle has), the rest of
    [Argparser_parse] returns without changing any variable, and its
    positionals are those compacted so far followed by the tokens after
    ["--"], none of them parsed. In particular, with [stopAtNonOption] off,
    or when no PLAIN token comes before it, adding ["--"] and any tokens
    [post] after [prog :: pre] (which holds no ["--"]) changes nothing but
    the positionals: [post] is appended to them as it is, ["--"] itself is
    dropped, and the run ends as the run on [prog :: pre] does (same exit,
    same variables), so no token of [post] is ever parsed or reported as an
    unknown option. *)
Theorem C4_double_dash_ends_parsing :
  (forall strtof user_callback fuel w a,
   (0 < argc (self w))%Z -> nth_error (mem w) (argv (self w)) = Some (Some a) ->
   is_dashdash a = true ->
   out (self w) = 0%nat -> (cpidx (self w) <= argv (self w))%nat ->
   (argv (self w) + Z.to_nat (argc (self w)) < length (mem w))%nat ->
   exists w', (parse_loop strtof user_callback (S fuel);; parse_finish) w =
                Ok (Z.of_nat (cpidx (self w)) + (argc (self w) - 1)) w' /\
     vars w' = vars w /\
     firstn (cpidx (self w) + Z.to_nat (argc (self w) - 1)) (mem w') =
       firstn (cpidx (self w)) (mem w) ++
       firstn (Z.to_nat (argc (self w) - 1)) (skipn (S (argv (self w))) (mem w))) /\
  (forall strtof user_callback opts stop st prog pre post,
   Forall (fun t => is_dashdash t = false) pre ->
   stop = false \/ Forall (fun t => is_plain t = false) pre ->
   let rA := run_parse strtof user_callback opts stop st (prog :: pre ++ "--" :: post) in
   let rB := run_parse strtof user_callback opts stop st (prog :: pre) in
   exit_reason rA = exit_reason rB /\ (forall d, final_var rA d = final_var rB d) /\
   returned_args rA = option_map (fun l => l ++ map Some post) (returned_args rB)).
Proof.
  split.
  { intros strtof user_callback fuel w a Hc Ha Hd Hout Hcp Hlen.
    rewrite (bind_ok _ _ _ _ _ (loop_at_dashdash strtof user_callback fuel w a Hc Ha Hd)).
    destruct (finish_spec (advw w)) as (w' & F & V & Lst);
      unfold advw in *; cbn [self argc argv out cpidx mem vars] in *; try lia.
    exists w'. split; [exact F|]. split; [exact V|]. exact Lst. }
  intros strtof user_callback opts stop st prog pre post Hdd Hst rA rB.
  destruct (run_prefix strtof user_callback opts stop st prog pre "--" post
              (or_introl eq_refl) (or_introl eq_refl)) as (He & Hv & Hr).
  split; [exact He|]. split; [exact Hv|].
  destruct Hr as [[(x & Hx & Hp) _]|Hr]; [|exact Hr].
  exfalso. destruct Hp as [Hp|[Hs Hp]].
  - rewrite Forall_forall in Hdd. rewrite (Hdd x Hx) in Hp. discriminate.
  - destruct Hst as [Hst|Hst]; [congruence|].
    rewrite Forall_forall in Hst. rewrite (Hst x Hx) in Hp. discriminate.
Qed.


(** With [stopAtNonOption] set, the PLAIN token ["a"] stops the loop first:
    ["--"] is not reached and stays among the positionals. *)
Lemma C4_counterexample :
  returned_args (run_parse no_strtof marking_callbacks [opt_color; END] true empty_store
                   ["bud"; "a"; "--"; "-x"; "file.txt"])
  = Some [Some "a"; Some "--"; Some "-x"; Some "file.txt"].
Proof. reflexivity. Qed.

Lemma C4_double_dash_ends_parsing_witness :
  (let w := mkWorld (mkArgparser true [opt_out; END] None None None true 2 3 0 0)
                    (map Some ["bud"; "-o"; "file"; "--"; "-x"] ++ [None])
                    (store_write empty_store 3 (CStr "file")) in
   exists w', (parse_loop no_strtof marking_callbacks 2%nat;; parse_finish) w =
                Ok (Z.of_nat (cpidx (self w)) + (argc (self w) - 1)) w' /\
     vars w' = vars w /\
     firstn (cpidx (self w) + Z.to_nat (argc (self w) - 1)) (mem w') =
       firstn (cpidx (self w)) (mem w) ++
       firstn (Z.to_nat (argc (self w) - 1)) (skipn (S (argv (self w))) (mem w))) /\
  (let rA := run_parse no_strtof marking_callbacks [opt_color; END] false empty_store
              ("bud" :: ["-c"] ++ "--" :: ["-x"; "file.txt"]) in
   let rB := run_parse no_strtof marking_callbacks [opt_color; END] false empty_store
              ("bud" :: ["-c"]) in
   exit_reason rA = exit_reason rB /\ (forall d, final_var rA d = final_var rB d) /\
   returned_args rA = option_map (fun l => l ++ map Some ["-x"; "file.txt"]) (returned_args rB)).
Proof.
  split.
  - apply (proj1 C4_double_dash_ends_parsing no_strtof marking_callbacks 1%nat _ "--");
      cbn; try reflexivity; lia.
  - apply (proj2 C4_double_dash_ends_parsing no_strtof marking_callbacks [opt_color; END] false
             empty_store "bud" ["-c"] ["-x"; "file.txt"]).
    + repeat constructor.
    + left; reflexivity.
Defined.

(** The example of the claim: [-c -- -x file.txt] sets color and returns
    [-x file.txt]. *)
Example double_dash_example :
  let r := run_parse no_strtof marking_callbacks [opt_color; END] false empty_store
             ["bud"; "-c"; "--"; "-x"; "file.txt"] in
  returned_args r = Some [Some "-x"; Some "file.txt"] /\ final_var r 0 = CBool true.
Proof. split; reflexivity. Qed.



(** The example of the claim: [--inverse report.csv --color] returns
    [report.csv --color], and color is never set. *)
Example stop_at_nonoption_example :
  let r := run_parse no_strtof marking_callbacks [opt_inverse; opt_color; END] true empty_store
             ["bud"; "--inverse"; "report.csv"; "--color"] in
  returned_args r = Some [Some "report.csv"; Some "--color"] /\
  final_var r 4 = CBool true /\ final_var r 0 = Uninit.
Proof. repeat split; reflexivity. Qed.


(** With [stopAtNonOption] set, the PLAIN token ["file"] is taken as the
    value of [-o], so the loop reaches ["--"] (with [argc] 2 and [argv] 3)
    and returns [-x]. *)
Example dash_after_value_example :
  returned_args (run_parse no_strtof marking_callbacks [opt_out; END] true empty_store
                   ["bud"; "-o"; "file"; "--"; "-x"]) = Some [Some "-x"].
Proof. reflexivity. Qed.

(** The compound [-ci] takes no value: the loop reaches ["report.csv"] (with
    [argc] 2 and [argv] 2) and stops there. *)
Example stop_after_compound_example :
  let r := run_parse no_strtof marking_callbacks [opt_color; opt_inverse; END] true empty_store
             ["bud"; "-ci"; "report.csv"; "--color"] in
  returned_args r = Some [Some "report.csv"; Some "--color"] /\
  final_var r 0 = CBool true /\ final_var r 4 = CBool true.
Proof. repeat split; reflexivity. Qed.

(** ** What [parse] leaves alone *)

Section Frame.
Variable strtof : string -> Z * nat * bool.
Variable user_callback : nat -> ArgparserOption -> store -> cb_result.
(** The variables to be left alone. *)
Variable D : nat -> Prop.

(** An entry whose destination is not in [D] and whose user callback, if
    any, does not change the variables in [D] when it returns. *)
Definition entry_ok (o : ArgparserOption) : Prop :=
  (forall d, value o = Some d -> ~ D d) /\
  (forall id st st', callback o = Some (UserCallback id) ->
     user_callback id o st = CbReturn st' -> forall d, D d -> st' d = st d).

Definition FR (w w' : world) : Prop :=
  cfg (self w') = cfg (self w) /\ forall d, D d -> vars w' d = vars w d.

Definition FP (w : world) : Prop := Forall entry_ok (options (self w)).

(** From a state whose table has only such entries, [m] keeps the
    configuration and the variables in [D], whether it returns or exits. *)
Definition fr {A} (m : M A) : Prop :=
  forall w, FP w -> match m w with Ok _ w' | Exit _ w' => FR w w' end.

Lemma FR_refl w : FR w w.
Proof. split; reflexivity. Qed.

Lemma FR_trans w1 w2 w3 : FR w1 w2 -> FR w2 w3 -> FR w1 w3.
Proof.
  intros [C1 V1] [C2 V2]; split; [congruence|].
  intros d Hd; rewrite V2, V1 by exact Hd; reflexivity.
Qed.

Lemma FR_FP w w' : FP w -> FR w w' -> FP w'.
Proof.
  unfold FP, FR, cfg. intros H [C _].
  injection C as _ Ho _ _ _ _. rewrite Ho; exact H.
Qed.

Lemma fr_bind {A B} (m : M A) (f : A -> M B) :
  fr m -> (forall a, fr (f a)) -> fr (bind m f).
Proof.
  intros Hm Hf w Hw. unfold bind. specialize (Hm w Hw).
  destruct (m w) as [a w1|t w1]; [|exact Hm].
  specialize (Hf a w1 (FR_FP _ _ Hw Hm)).
  destruct (f a w1); eapply FR_trans; eauto.
Qed.

Lemma fr_ret {A} (a : A) : fr (ret a).
Proof. intros w _; apply FR_refl. Qed.
Lemma fr_exit {A} t : fr (@exit_ A t).
Proof. intros w _; apply FR_refl. Qed.

Lemma fr_get_self : fr get_self.
Proof. intros w _; apply FR_refl. Qed.
Lemma fr_argv_at k : fr (argv_at k).
Proof.
  intros w _; unfold argv_at.
  destruct (nth_error (mem w) (argv (self w) + k)) as [[a|]|]; apply FR_refl.
Qed.
Lemma fr_write_mem i p : fr (write_mem i p).
Proof.
  intros w _; unfold write_mem.
  destruct (Nat.ltb i (length (mem w))); [split; reflexivity|apply FR_refl].
Qed.
Lemma fr_memmove a b n : fr (memmove a b n).
Proof.
  intros w _; unfold memmove.
  destruct (_ && _); [split; reflexivity|apply FR_refl].
Qed.
Lemma fr_advance : fr advance.
Proof. intros w _; split; reflexivity. Qed.
Lemma fr_next_value : fr next_value.
Proof.
  intros w _; unfold next_value; cbv zeta.
  destruct (1 <? argc (self w))%Z; [|apply FR_refl].
  destruct (nth_error (mem w) (S (argv (self w)))) as [[a|]|]; [|apply FR_refl..].
  destruct (Ascii.eqb _ _); apply FR_refl.
Qed.
Lemma fr_copy_to_out : fr copy_to_out.
Proof.
  intros w _. unfold copy_to_out.
  destruct (nth_error (mem w) (argv (self w))) as [p|]; [|apply FR_refl].
  unfold write_mem; cbn [mem self vars].
  destruct (Nat.ltb _ _); split; reflexivity.
Qed.

Lemma fr_write_var d c : ~ D d -> fr (write_var d c).
Proof.
  intros Hd w _. split; [reflexivity|]. intros d' Hd'. cbn [vars].
  unfold store_write. destruct (Nat.eqb_spec d' d); [subst; contradiction|reflexivity].
Qed.

Lemma fr_run_callback o cb : entry_ok o -> callback o = Some cb ->
  fr (run_callback user_callback o cb).
Proof.
  intros [_ Hc] Ecb w _. destruct cb as [|id]; [apply FR_refl|].
  cbn [run_callback]. destruct (user_callback id o (vars w)) as [st| |] eqn:E;
    [|apply FR_refl|apply FR_refl].
  split; [reflexivity|]. cbn [vars]. intros d Hd. exact (Hc id _ _ Ecb E d Hd).
Qed.

Create HintDb fr.
#[local] Hint Resolve fr_ret fr_exit fr_get_self fr_argv_at fr_write_mem fr_memmove
  fr_advance fr_next_value fr_copy_to_out fr_write_var fr_run_callback : fr.

Ltac fr_step :=
  match goal with
  | |- fr (bind _ _) => apply fr_bind; [|intro]
  | |- fr (if ?b then _ else _) => destruct b eqn:?
  | |- fr (match ?x with _ => _ end) => destruct x eqn:?
  | |- fr (let '(_, _) := ?x in _) => destruct x
  | |- _ => solve [eauto with fr]
  end.

Lemma fr_exitDueToUnknownOption {A} : fr (@Argparser_exitDueToUnknownOption A).
Proof. unfold Argparser_exitDueToUnknownOption; repeat fr_step. Qed.
#[local] Hint Resolve fr_exitDueToUnknownOption : fr.

Lemma fr_parseValue o v : entry_ok o -> fr (Argparser_parseValue strtof user_callback o v).
Proof.
  intro Hok. pose proof (proj1 Hok) as Hv.
  unfold Argparser_parseValue, Argparser_exitDueToError; repeat fr_step.
Qed.
#[local] Hint Resolve fr_parseValue : fr.

Lemma fr_short_single l found : Forall entry_ok l -> fr (short_single strtof user_callback l found).
Proof.
  revert found; induction l as [|o l IH]; intros found Hl; simpl; [repeat fr_step|].
  inversion Hl as [|? ? Ho Hl']; subst. pose proof (IH true Hl'). pose proof (IH found Hl').
  repeat fr_step.
Qed.

Lemma fr_compound_scan c l found : Forall entry_ok l -> fr (compound_scan strtof user_callback c l found).
Proof.
  revert found; induction l as [|o l IH]; intros found Hl; simpl; [repeat fr_step|].
  inversion Hl as [|? ? Ho Hl']; subst. pose proof (IH true Hl'). pose proof (IH found Hl').
  repeat fr_step.
Qed.

Lemma fr_compound_chars l cs found : Forall entry_ok l -> fr (compound_chars strtof user_callback l cs found).
Proof.
  intro Hl. pose proof (fun c f => fr_compound_scan c l f Hl).
  revert found; induction cs as [|c cs IH]; intro found; simpl; repeat fr_step.
Qed.

Lemma fr_long_scan l found : Forall entry_ok l -> fr (long_scan strtof user_callback l found).
Proof.
  revert found; induction l as [|o l IH]; intros found Hl; simpl; [repeat fr_step|].
  inversion Hl as [|? ? Ho Hl']; subst. pose proof (IH true Hl'). pose proof (IH found Hl').
  repeat fr_step.
Qed.

Lemma fr_parseShortOption l : Forall entry_ok l -> fr (Argparser_parseShortOption strtof user_callback l).
Proof.
  intro Hl. pose proof (fr_short_single l false Hl). pose proof (fun cs => fr_compound_chars l cs false Hl).
  unfold Argparser_parseShortOption; repeat fr_step.
Qed.

Lemma fr_parseLongOption l : Forall entry_ok l -> fr (Argparser_parseLongOption strtof user_callback l).
Proof.
  intro Hl. pose proof (fr_long_scan l false Hl).
  unfold Argparser_parseLongOption; repeat fr_step.
Qed.

Lemma fr_parse_loop fuel : fr (parse_loop strtof user_callback fuel).
Proof.
  induction fuel as [|fuel IH]; intros w Hw; [apply FR_refl|].
  cbn [parse_loop]. unfold bind at 1, get_self at 1.
  pose proof (fr_parseShortOption _ Hw). pose proof (fr_parseLongOption _ Hw).
  match goal with
  | |- match ?m w with _ => _ end =>
      assert (Hm : fr m) by (repeat fr_step); exact (Hm w Hw)
  end.
Qed.

Lemma fr_parse n : fr (Argparser_parse strtof user_callback n).
Proof.
  intros w Hw. unfold Argparser_parse, bind at 1, get_self at 1. cbv beta iota.
  destruct (negb (valid (self w))); [apply FR_refl|].
  destruct (Z.ltb n 1); [apply FR_refl|].
  unfold bind at 1, put_self at 1. cbv beta iota.
  match goal with
  | |- match ?m ?w1 with _ => _ end =>
      assert (Hm : fr m) by (pose proof fr_parse_loop; repeat fr_step);
      assert (H1 : FR w w1) by (split; reflexivity);
      pose proof (Hm w1 (FR_FP _ _ Hw H1)) as H2;
      destruct (m w1); exact (FR_trans _ _ _ H1 H2)
  end.
Qed.

End Frame.

(** ** Bounds of [parse] on a fresh handle *)

Lemma ef_bind o {A B} (m : M A) (f : A -> M B) :
  exits_for o m -> (forall a, exits_for o (f a)) -> exits_for o (bind m f).
Proof.
  intros Hm Hf w t w' H. unfold bind in H.
  destruct (m w) as [a w1|t1 w1] eqn:E.
  - eapply Hf; eauto.
  - inversion H; subst. eapply Hm; eauto.
Qed.

Lemma ef_ret o {A} (a : A) : exits_for o (ret a).
Proof. intros w t w' H; discriminate H. Qed.

Lemma ef_exit o {A} t : t <> Undefined -> (forall o' r, t <> InvalidValue o' r) -> exits_for o (@exit_ A t).
Proof. intros Ht Hi w t' w' H; inversion H; subst. split; [exact Ht|]. intros o' r E; exfalso; exact (Hi o' r E). Qed.

Lemma ef_invalid o {A} r : exits_for o (@exit_ A (InvalidValue o r)).
Proof. intros w t w' H; inversion H; subst. split; [discriminate|]. intros o' r' E; inversion E; reflexivity. Qed.

Lemma ef_write_var o d c : exits_for o (write_var d c).
Proof. intros w t w' H; discriminate H. Qed.

Create HintDb ef.
#[local] Hint Resolve ef_ret ef_write_var ef_invalid : ef.

Ltac ef_step :=
  match goal with
  | |- exits_for _ (bind _ _) => apply ef_bind; [|intro]
  | |- exits_for ?o (exit_ (InvalidValue ?o _)) => apply ef_invalid
  | |- exits_for _ (exit_ _) => apply ef_exit; [discriminate|intros ? ? ?; discriminate]
  | |- exits_for _ (if ?b then _ else _) => destruct b
  | |- exits_for _ (match ?x with _ => _ end) => destruct x
  | |- exits_for _ (let '(_, _) := ?x in _) => destruct x
  | |- _ => solve [eauto with ef]
  end.

Lemma nth_error_firstn_lt {A} (l : list A) n i :
  (i < n)%nat -> nth_error (firstn n l) i = nth_error l i.
Proof.
  revert n l; induction i as [|i IH]; intros [|n] [|x l] H; cbn; try reflexivity; try lia.
  apply IH; lia.
Qed.

Lemma nth_error_skipn' {A} (l : list A) n i :
  nth_error (skipn n l) i = nth_error l (n + i).
Proof.
  revert l; induction n as [|n IH]; intros [|x l]; cbn; try reflexivity.
  destruct i; reflexivity.
  apply IH.
Qed.

Lemma nth_error_upd {A} (l : list A) i x j : (i < length l)%nat ->
  nth_error (upd l i x) j = if Nat.eqb j i then Some x else nth_error l j.
Proof.
  intro Hi. unfold upd.
  destruct (Nat.lt_total j i) as [Hj|[Hj|Hj]].
  - rewrite nth_error_app1 by (rewrite length_firstn; lia).
    rewrite (proj2 (Nat.eqb_neq j i)) by lia. apply nth_error_firstn_lt; exact Hj.
  - subst j. rewrite Nat.eqb_refl, nth_error_app2 by (rewrite length_firstn; lia).
    rewrite length_firstn, (proj2 (Nat.min_l_iff i (length l))) by lia.
    rewrite Nat.sub_diag. reflexivity.
  - rewrite (proj2 (Nat.eqb_neq j i)) by lia.
    rewrite nth_error_app2 by (rewrite length_firstn; lia).
    rewrite length_firstn, (proj2 (Nat.min_l_iff i (length l))) by lia.
    replace (j - i)%nat with (S (j - S i)) by lia. cbn [nth_error].
    rewrite nth_error_skipn'. f_equal; lia.
Qed.

Lemma shape_upd_some L l i a : shape L l -> (i < L)%nat -> shape L (upd l i (Some a)).
Proof.
  intros (Hl & HL & Hs) Hi. split; [rewrite upd_length; lia|]. split.
  - rewrite nth_error_upd by lia. rewrite (proj2 (Nat.eqb_neq L i)) by lia. exact HL.
  - intros j Hj. rewrite nth_error_upd by lia.
    destruct (Nat.eqb j i); [eexists; reflexivity|apply Hs; exact Hj].
Qed.

Section Bounds.
Variable strtof : string -> Z * nat * bool.
Variable user_callback : nat -> ArgparserOption -> store -> cb_result.
Variable opts : list ArgparserOption.
Hypothesis Hend : existsb is_end opts = true.
Hypothesis Hlong : Forall (fun o => longName o <> None) (before_end opts).
Variable L : nat.

(** The loop's invariant: [argv] and [argc] split the [L] tokens, the
    positionals copied so far lie below [argv]. *)
Definition Inv (w : world) : Prop :=
  options (self w) = opts /\ out (self w) = 0%nat /\ (cpidx (self w) < argv (self w))%nat /\
  (0 <= argc (self w))%Z /\ (Z.of_nat (argv (self w)) + argc (self w) = Z.of_nat L)%Z /\
  shape L (mem w).

(** Inside a turn of the loop: [argv[0]] is a token. *)
Definition W1 (w : world) : Prop := Inv w /\ (1 <= argc (self w))%Z.

(** What handling one option may do: consume tokens, keeping one. *)
Definition AR (w w' : world) : Prop :=
  mem w' = mem w /\ options (self w') = options (self w) /\ out (self w') = out (self w) /\
  cpidx (self w') = cpidx (self w) /\ (argv (self w) <= argv (self w'))%nat /\
  (Z.of_nat (argv (self w')) + argc (self w') = Z.of_nat (argv (self w)) + argc (self w))%Z /\
  (1 <= argc (self w'))%Z.

(** How a run may end: not in undefined behaviour, and an error about an
    entry that has a long name. *)
Definition okt (t : termination) : Prop :=
  t <> Undefined /\ forall o r, t = InvalidValue o r -> longName o <> None.

Definition good {A} (m : M A) : Prop :=
  forall w, W1 w -> match m w with Ok _ w' => AR w w' | Exit t _ => okt t end.

Lemma W1_tok w : W1 w -> exists a, nth_error (mem w) (argv (self w)) = Some (Some a).
Proof.
  intros [(_ & _ & _ & _ & Hs & _ & _ & Hsh) H1]. apply Hsh. lia.
Qed.

Lemma AR_refl w : W1 w -> AR w w.
Proof. intros [_ H1]; repeat split; try reflexivity; lia. Qed.

Lemma AR_trans w1 w2 w3 : AR w1 w2 -> AR w2 w3 -> AR w1 w3.
Proof.
  intros (M1 & O1 & U1 & C1 & A1 & S1 & G1) (M2 & O2 & U2 & C2 & A2 & S2 & G2).
  repeat split; try congruence; lia.
Qed.

Lemma W1_AR w w' : W1 w -> AR w w' -> W1 w'.
Proof.
  intros [(Ho & Hout & Hc & H0 & Hs & Hsh) H1] (M1 & O1 & U1 & C1 & A1 & S1 & G1).
  split; [|exact G1]. unfold Inv. rewrite M1, O1, U1, C1.
  do 5 (split; [try assumption; lia|]). exact Hsh.
Qed.

Lemma good_bind {A B} (m : M A) (f : A -> M B) :
  good m -> (forall a, good (f a)) -> good (bind m f).
Proof.
  intros Hm Hf w Hw. unfold bind. specialize (Hm w Hw).
  destruct (m w) as [a w1|t w1]; [|exact Hm].
  specialize (Hf a w1 (W1_AR _ _ Hw Hm)).
  destruct (f a w1); [eapply AR_trans; eauto|exact Hf].
Qed.

Lemma good_ret {A} (a : A) : good (ret a).
Proof. intros w Hw; apply AR_refl; exact Hw. Qed.

Lemma good_exit {A} t : okt t -> good (@exit_ A t).
Proof. intros Ht w _; exact Ht. Qed.

Lemma good_argv_at0 : good (argv_at 0).
Proof.
  intros w Hw. destruct (W1_tok w Hw) as [a Ha].
  rewrite (argv_at0_eq w a Ha). apply AR_refl; exact Hw.
Qed.

Lemma next_value_same w nv w' : next_value w = Ok nv w' -> w' = w.
Proof.
  unfold next_value; cbv zeta.
  destruct (1 <? argc (self w))%Z; [|intro H; inversion H; reflexivity].
  destruct (nth_error (mem w) (S (argv (self w)))) as [[a|]|];
    [destruct (Ascii.eqb _ _)| |]; intro H; inversion H; reflexivity.
Qed.

Lemma next_value_some w v w' : next_value w = Ok (Some v) w' -> (1 < argc (self w))%Z.
Proof.
  unfold next_value; cbv zeta.
  destruct (1 <? argc (self w))%Z eqn:E; [|intro H; discriminate H].
  intros _. apply Z.ltb_lt; exact E.
Qed.

Lemma next_value_ok w : W1 w -> exists nv, next_value w = Ok nv w.
Proof.
  intros Hw. unfold next_value; cbv zeta.
  destruct (1 <? argc (self w))%Z eqn:E; [|eexists; reflexivity].
  apply Z.ltb_lt in E.
  destruct Hw as [(_ & _ & _ & _ & Hs & _ & _ & Hsh) _].
  destruct (Hsh (S (argv (self w)))) as [a Ha]; [lia|].
  rewrite Ha. destruct (Ascii.eqb _ _); eexists; reflexivity.
Qed.

Lemma ef_run_callback o cb : exits_for o (run_callback user_callback o cb).
Proof.
  destruct cb as [|id]; [apply ef_exit; [discriminate|intros ? ? ?; discriminate]|].
  intros w t w' H; simpl in H.
  destruct (user_callback id o (vars w)); inversion H; subst.
  - split; [discriminate|]. intros o' r' E; inversion E; reflexivity.
  - split; [discriminate|]. intros o' r' E; discriminate E.
Qed.
#[local] Hint Resolve ef_run_callback : ef.

Lemma ef_parseValue o v : exits_for o (Argparser_parseValue strtof user_callback o v).
Proof. unfold Argparser_parseValue, Argparser_exitDueToError; repeat ef_step. Qed.

Lemma good_parseValue o v : longName o <> None -> good (Argparser_parseValue strtof user_callback o v).
Proof.
  intros Hl w Hw. pose proof (kf_parseValue strtof user_callback o v w) as K.
  destruct (Argparser_parseValue strtof user_callback o v w) as [a w'|t w'] eqn:E.
  - destruct K as [Hs Hm]. destruct Hw as [_ H1].
    unfold AR. rewrite Hs, Hm. repeat split; try reflexivity; lia.
  - destruct (ef_parseValue o v w t w' E) as [Hu Ho]. split; [exact Hu|].
    intros o' r Et. rewrite (Ho o' r Et). exact Hl.
Qed.

Lemma good_exitDueToUnknownOption {A} : good (@Argparser_exitDueToUnknownOption A).
Proof.
  unfold Argparser_exitDueToUnknownOption.
  apply good_bind; [apply good_argv_at0|intro a; apply good_exit].
  split; [discriminate|intros o r E; discriminate E].
Qed.

(** The value lookahead of a two-character short option, then the rest. *)
Lemma good_value_then o (k : M bool) : longName o <> None -> good k ->
  good (nv <- next_value;;
        match nv with
        | Some v => Argparser_parseValue strtof user_callback o (Some v);; advance;; k
        | None => Argparser_parseValue strtof user_callback o None;; k
        end).
Proof.
  intros Hl Hk w Hw. destruct (next_value_ok w Hw) as [nv En].
  rewrite (bind_ok _ _ _ _ _ En). destruct nv as [v|].
  - pose proof (next_value_some _ _ _ En) as Hgt.
    destruct (Argparser_parseValue strtof user_callback o (Some v) w) as [[] w2|t w2] eqn:Ep.
    + rewrite (bind_ok _ _ _ _ _ Ep), (bind_ok _ _ _ _ _ (advance_eq w2)).
      pose proof (kf_parseValue strtof user_callback o (Some v) w) as K.
      rewrite Ep in K. destruct K as [Ks Km].
      assert (HA : AR w (advw w2)).
      { unfold AR, advw; cbn [self mem argc argv options out cpidx]. rewrite Ks, Km.
        repeat split; try reflexivity; lia. }
      pose proof (Hk (advw w2) (W1_AR _ _ Hw HA)) as H3.
      destruct (k (advw w2)); [eapply AR_trans; eauto|exact H3].
    + rewrite (bind_exit _ _ _ _ _ Ep).
      pose proof (good_parseValue o (Some v) Hl w Hw) as G. rewrite Ep in G. exact G.
  - exact (good_bind _ _ (good_parseValue o None Hl) (fun _ => Hk) w Hw).
Qed.

Lemma LN_cons o l : is_end o = false ->
  Forall (fun o => longName o <> None) (before_end (o :: l)) ->
  longName o <> None /\ Forall (fun o => longName o <> None) (before_end l).
Proof. intros Eo H. cbn [before_end] in H. rewrite Eo in H. inversion H; subst; split; assumption. Qed.

Lemma good_short_single l found : existsb is_end l = true ->
  Forall (fun o => longName o <> None) (before_end l) ->
  good (short_single strtof user_callback l found).
Proof.
  revert found; induction l as [|o l IH]; intros found He HL; [discriminate He|].
  cbn [short_single]. cbn [existsb] in He.
  destruct (is_end o) eqn:Eo; [apply good_ret|]. cbn [orb] in He.
  destruct (LN_cons o l Eo HL) as [Ho HL'].
  apply good_bind; [apply good_argv_at0|intro a].
  destruct (_ && _); [|apply IH; assumption].
  apply good_value_then; [exact Ho|apply IH; assumption].
Qed.

Lemma good_compound_scan c l found : existsb is_end l = true ->
  Forall (fun o => longName o <> None) (before_end l) ->
  good (compound_scan strtof user_callback c l found).
Proof.
  revert found; induction l as [|o l IH]; intros found He HL; [discriminate He|].
  cbn [compound_scan]. cbn [existsb] in He.
  destruct (is_end o) eqn:Eo; [apply good_ret|]. cbn [orb] in He.
  destruct (LN_cons o l Eo HL) as [Ho HL'].
  destruct (Ascii.eqb _ _); [|apply IH; assumption].
  apply good_bind; [apply good_parseValue; exact Ho|intros _; apply IH; assumption].
Qed.

Lemma good_compound_chars l cs found : existsb is_end l = true ->
  Forall (fun o => longName o <> None) (before_end l) ->
  good (compound_chars strtof user_callback l cs found).
Proof.
  intros He HL. revert found; induction cs as [|c cs IH]; intro found; cbn [compound_chars].
  - apply good_ret.
  - destruct (Ascii.eqb c NUL); [apply good_ret|].
    apply good_bind; [apply good_compound_scan; assumption|intro f].
    destruct f; [apply IH|apply good_exitDueToUnknownOption].
Qed.

Lemma good_long_scan l found : existsb is_end l = true ->
  Forall (fun o => longName o <> None) (before_end l) ->
  good (long_scan strtof user_callback l found).
Proof.
  revert found; induction l as [|o l IH]; intros found He HL; [discriminate He|].
  cbn [long_scan]. cbn [existsb] in He.
  destruct (is_end o) eqn:Eo; [apply good_ret|]. cbn [orb] in He.
  destruct (LN_cons o l Eo HL) as [Ho HL'].
  destruct (longName o) as [ln|] eqn:El; [|apply IH; assumption].
  destruct (Nat.ltb _ _); [apply IH; assumption|].
  apply good_bind; [apply good_argv_at0|intro a].
  destruct (strncmp_eq _ _ _); [|apply IH; assumption].
  destruct (Ascii.eqb _ _).
  - apply good_bind; [apply good_parseValue; rewrite El; discriminate|intros _; apply IH; assumption].
  - destruct (type o); try (apply IH; assumption).
    apply good_bind; [apply good_parseValue; rewrite El; discriminate|intros _; apply IH; assumption].
Qed.

Lemma good_parseShortOption l : existsb is_end l = true ->
  Forall (fun o => longName o <> None) (before_end l) ->
  good (Argparser_parseShortOption strtof user_callback l).
Proof.
  intros He HL. unfold Argparser_parseShortOption.
  apply good_bind; [apply good_argv_at0|intro arg].
  apply good_bind; [destruct (Nat.eqb _ _); [apply good_short_single|apply good_compound_chars]; assumption|].
  intro f; destruct f; [apply good_ret|apply good_exitDueToUnknownOption].
Qed.

Lemma good_parseLongOption l : existsb is_end l = true ->
  Forall (fun o => longName o <> None) (before_end l) ->
  good (Argparser_parseLongOption strtof user_callback l).
Proof.
  intros He HL. unfold Argparser_parseLongOption.
  apply good_bind; [apply good_long_scan; assumption|].
  intro f; destruct f; [apply good_ret|apply good_exitDueToUnknownOption].
Qed.

Lemma Inv_advw w : W1 w -> Inv (advw w).
Proof.
  intros [(Ho & Hout & Hc & H0 & Hs & Hsh) H1].
  unfold Inv, advw; cbn [self mem options out cpidx argv argc].
  do 5 (split; [try assumption; lia|]). exact Hsh.
Qed.

Lemma Inv_copy w : W1 w -> exists wc, copy_to_out w = Ok tt wc /\ Inv (advw wc).
Proof.
  intros Hw. destruct (W1_tok w Hw) as [a Ha].
  destruct Hw as [(Ho & Hout & Hc & H0 & Hs & Hsh) H1].
  unfold copy_to_out. rewrite Ha. unfold write_mem. cbn [mem self out cpidx].
  rewrite Hout. cbn [Nat.add].
  pose proof Hsh as (Hlen & HL & Hsome).
  rewrite (proj2 (Nat.ltb_lt _ _)) by lia.
  eexists; split; [reflexivity|].
  unfold Inv, advw; cbn [self mem options out cpidx argv argc].
  do 5 (split; [try assumption; lia|]).
  apply shape_upd_some; [exact Hsh|lia].
Qed.

Lemma inv_parse_loop fuel : forall w, Inv w ->
  match parse_loop strtof user_callback fuel w with
  | Ok _ w' => Inv w'
  | Exit t _ => okt t
  end.
Proof.
  induction fuel as [|fuel IH]; intros w Hw; [exact Hw|].
  cbn [parse_loop]. rewrite (bind_ok _ _ _ _ _ (get_self_eq w)). cbv beta.
  destruct (Z.eqb_spec (argc (self w)) 0) as [E0|E0]; [exact Hw|].
  assert (Hw1 : W1 w) by (split; [exact Hw|destruct Hw as (_ & _ & _ & H & _); lia]).
  assert (He : existsb is_end (options (self w)) = true) by (destruct Hw as (-> & _); exact Hend).
  assert (HL : Forall (fun o => longName o <> None) (before_end (options (self w))))
    by (destruct Hw as (-> & _); exact Hlong).
  destruct (W1_tok w Hw1) as [a Ha]. rewrite (bind_ok _ _ _ _ _ (argv_at0_eq w a Ha)).
  destruct (_ || _).
  - destruct (stopAtNonOption (self w)); [exact Hw|].
    destruct (Inv_copy w Hw1) as (wc & Ec & Hc).
    rewrite (bind_ok _ _ _ _ _ Ec), (bind_ok _ _ _ _ _ (advance_eq wc)). apply IH; exact Hc.
  - assert (Hopt : forall X : M unit, good X ->
      match (X;; advance;; parse_loop strtof user_callback fuel) w with
      | Ok _ w' => Inv w'
      | Exit t _ => okt t
      end).
    { intros X HX. specialize (HX w Hw1).
      destruct (X w) as [x w1|t w1] eqn:EX.
      - rewrite (bind_ok _ _ _ _ _ EX), (bind_ok _ _ _ _ _ (advance_eq w1)).
        apply IH, Inv_advw, (W1_AR w); assumption.
      - rewrite (bind_exit _ _ _ _ _ EX). exact HX. }
    destruct (negb _); [apply Hopt, good_parseShortOption; assumption|].
    destruct (negb _); [apply Hopt, good_parseLongOption; assumption|].
    rewrite advance_eq. apply Inv_advw; exact Hw1.
Qed.

Lemma finish_bounds w : Inv w ->
  exists n w', parse_finish w = Ok n w' /\ (0 <= n < Z.of_nat L)%Z /\
    length (mem w') = S L /\ nth_error (mem w') (Z.to_nat n) = Some None /\
    forall i, (i < Z.to_nat n)%nat -> exists a, nth_error (mem w') i = Some (Some a).
Proof.
  intros (Ho & Hout & Hc & H0 & Hs & Hlen & HL & Hsh).
  set (c := cpidx (self w)) in *. set (k := Z.to_nat (argc (self w))) in *.
  set (src := argv (self w)) in *.
  assert (Hk : (src + k = L)%nat) by lia.
  set (blk := firstn k (skipn src (mem w))).
  assert (Hblk : length blk = k) by (unfold blk; rewrite length_firstn, length_skipn; lia).
  unfold parse_finish. rewrite (bind_ok _ _ _ _ _ (get_self_eq w)). cbv beta.
  rewrite Hout. cbn [Nat.add]. fold c k src.
  set (mem1 := firstn c (mem w) ++ blk ++ skipn (c + k) (mem w)).
  assert (Hm1 : length mem1 = length (mem w)).
  { unfold mem1. rewrite !length_app, length_firstn, length_skipn, Hblk. lia. }
  rewrite (bind_ok _ _ _ tt (mkWorld (self w) mem1 (vars w))).
  2: { unfold memmove. rewrite (proj2 (Nat.leb_le _ _)) by lia.
       rewrite (proj2 (Nat.leb_le _ _)) by lia. reflexivity. }
  rewrite (bind_ok _ _ _ tt (mkWorld (self w) (upd mem1 (c + k) None) (vars w))).
  2: { unfold write_mem. cbn [mem self vars]. rewrite (proj2 (Nat.ltb_lt _ _)) by lia. reflexivity. }
  do 2 eexists; split; [reflexivity|]. cbn [mem].
  assert (Hn : Z.to_nat (Z.of_nat c + argc (self w)) = (c + k)%nat) by lia.
  split; [lia|]. rewrite Hn. split; [rewrite upd_length; lia|].
  split; [rewrite nth_error_upd, Nat.eqb_refl by lia; reflexivity|].
  intros i Hi. rewrite nth_error_upd by lia. rewrite (proj2 (Nat.eqb_neq i (c + k))) by lia.
  unfold mem1. destruct (Nat.lt_ge_cases i c) as [Hic|Hic].
  - rewrite nth_error_app1 by (rewrite length_firstn; lia).
    rewrite nth_error_firstn_lt by exact Hic. apply Hsh; lia.
  - rewrite nth_error_app2 by (rewrite length_firstn; lia).
    rewrite length_firstn, (proj2 (Nat.min_l_iff c (length (mem w)))) by lia.
    rewrite nth_error_app1 by lia. unfold blk.
    rewrite nth_error_firstn_lt by lia. rewrite nth_error_skipn'. apply Hsh; lia.
Qed.

End Bounds.

(** ** Extra properties of [Argparser_parse] *)

(** X1: [Argparser_parse] keeps the handle's configuration: whether it
    returns or exits, the [valid] flag, the option table, the usage,
    description and epilog texts and [stopAtNonOption] are those it started
    with. *)
Theorem parse_keeps_configuration strtof user_callback n w :
  match Argparser_parse strtof user_callback n w with
  | Ok _ w' | Exit _ w' => cfg (self w') = cfg (self w)
  end.
Proof.
  assert (Hfp : FP user_callback (fun _ => False) w).
  { unfold FP. apply Forall_forall. intros o _. split.
    - intros d _ [].
    - intros id st st' _ _ d []. }
  pose proof (fr_parse strtof user_callback (fun _ => False) n w Hfp) as H.
  destruct (Argparser_parse strtof user_callback n w); apply H.
Qed.

(** X2: a variable that is no option's [value] and that no user callback of
    the table changes holds, after [parse] on a fresh handle, what it held
    before, whether [parse] returns or exits. *)
Theorem parse_writes_only_destinations strtof user_callback opts stop st args d :
  (forall o, In o opts -> value o <> Some d) ->
  (forall o id st1 st2, In o opts -> callback o = Some (UserCallback id) ->
     user_callback id o st1 = CbReturn st2 -> st2 d = st1 d) ->
  final_var (run_parse strtof user_callback opts stop st args) d = st d.
Proof.
  intros Hv Hc. unfold run_parse.
  rewrite (bind_ok _ _ _ tt (mkWorld (mkArgparser true opts None None None stop 0 0 0 0)
                              (map Some args ++ [None]) st)) by reflexivity.
  set (w1 := mkWorld _ _ st).
  assert (Hfp : FP user_callback (fun x => x = d) w1).
  { unfold FP. apply Forall_forall. intros o Ho. split.
    - intros d' Hd' ->. exact (Hv o Ho Hd').
    - intros id st1 st2 Hcb Hr d' ->. exact (Hc o id st1 st2 Ho Hcb Hr). }
  pose proof (fr_parse strtof user_callback (fun x => x = d) (Z.of_nat (length args)) w1 Hfp) as H.
  unfold final_var.
  destruct (Argparser_parse strtof user_callback (Z.of_nat (length args)) w1);
    apply (proj2 H); reflexivity.
Qed.

Lemma parse_writes_only_destinations_witness :
  final_var (run_parse no_strtof marking_callbacks [opt_color; opt_help; END] false empty_store
               ["bud"; "-c"; "x"]) 5%nat = empty_store 5%nat.
Proof.
  apply parse_writes_only_destinations.
  - intros o [<-|[<-|[<-|[]]]]; discriminate.
  - intros o id st1 st2 [<-|[<-|[<-|[]]]]; discriminate.
Defined.

(** ** Extra properties of [Argparser_usage] *)

Lemma str_length_app (s t : string) : String.length (s ++ t) = (String.length s + String.length t)%nat.
Proof. induction s as [|c s IH]; cbn; [reflexivity|]. rewrite IH; reflexivity. Qed.

Lemma length_cstr s : String.length (cstr s) = strlen s.
Proof. induction s as [|c s IH]; cbn; [reflexivity|]. destruct (Ascii.eqb c NUL); cbn; lia. Qed.

Lemma length_spaces n : String.length (spaces n) = n.
Proof. induction n; cbn; lia. Qed.

Lemma length_option_label o : String.length (option_label o) = (4 + label_len o)%nat.
Proof.
  unfold option_label, label_len. rewrite !str_length_app.
  destruct (Ascii.eqb (shortName o) NUL), (longName o) as [ln|]; cbn [negb andb non_null];
    rewrite ?str_length_app, ?length_cstr; cbn [String.length]; lia.
Qed.

Lemma round4_spec n : exists k, (n + 3 - Nat.land (n + 3) 3 = 4 * k /\ n <= 4 * k)%nat.
Proof.
  replace (Nat.land (n + 3) 3) with ((n + 3) mod 4)%nat by (symmetry; exact (Nat.land_ones (n + 3) 2)).
  exists ((n + 3) / 4)%nat.
  pose proof (Nat.div_mod_eq (n + 3) 4). pose proof (Nat.mod_upper_bound (n + 3) 4).
  cbn [Nat.mul] in *. lia.
Qed.

Lemma usage_width_loop_spec opts : forall w0 W, usage_width_loop opts w0 = Some W ->
  (exists k, w0 = 4 * k)%nat -> (exists k, W = 4 * k)%nat /\ (w0 <= W)%nat /\
  forall o, In o (before_end opts) -> (label_len o <= W)%nat.
Proof.
  induction opts as [|o opts IH]; intros w0 W H Hw0; cbn [usage_width_loop] in H; [discriminate H|].
  cbn [before_end]. destruct (is_end o).
  - inversion H; subst. split; [exact Hw0|]. split; [lia|]. intros _ [].
  - destruct (round4_spec (label_len o)) as [k [Hk Hle]]. rewrite Hk in H.
    set (w1 := if Nat.ltb w0 (4 * k) then (4 * k)%nat else w0) in H.
    assert (Hw1 : (exists k, w1 = 4 * k)%nat /\ (w0 <= w1)%nat /\ (4 * k <= w1)%nat).
    { unfold w1. destruct (Nat.ltb_spec w0 (4 * k)); [split; [eexists; reflexivity|lia]|].
      split; [exact Hw0|lia]. }
    destruct Hw1 as (Hm & Hw01 & Hkw1).
    destruct (IH w1 W H Hm) as (HW & Hw1W & Hall).
    split; [exact HW|]. split; [lia|].
    intros o' [<-|Ho']; [lia|apply Hall; exact Ho'].
Qed.

(** X4: the option column of the help text is a multiple of 4 wide, and no
    option line wraps: on every option line before END (group headers
    apart) the label is at most [W] characters and the help text starts at
    column [W + 2]. *)
Theorem usage_help_column opts W o :
  usage_opts_width opts = Some W -> In o (before_end opts) -> type o <> ARGPARSER_TYPE_GROUP ->
  Nat.modulo W 4 = 0%nat /\ (String.length (option_label o) <= W)%nat /\
  usage_line W o =
    match help o with
    | Some h => Some (option_label o ++ spaces (W + 2 - String.length (option_label o)) ++ cstr h ++ NL)%string
    | None => None
    end.
Proof.
  intros HW Ho Ht. unfold usage_opts_width in HW.
  destruct (usage_width_loop opts 0) as [W0|] eqn:E; [|discriminate HW].
  inversion HW; subst W. clear HW.
  destruct (usage_width_loop_spec opts 0 W0 E (ex_intro _ 0%nat eq_refl)) as ([k ->] & _ & Hall).
  specialize (Hall o Ho). rewrite length_option_label.
  split; [replace (4 * k + 4)%nat with ((k + 1) * 4)%nat by lia; apply Nat.Div0.mod_mul|].
  split; [lia|].
  unfold usage_line. rewrite length_option_label.
  rewrite (proj2 (Nat.leb_le _ _)) by lia.
  replace (4 * k + 4 - (4 + label_len o) + 2)%nat with (4 * k + 4 + 2 - (4 + label_len o))%nat by lia.
  destruct (type o); try (exfalso; apply Ht; reflexivity); reflexivity.
Qed.

Lemma usage_width_loop_some opts w0 :
  usage_width_loop opts w0 <> None <-> existsb is_end opts = true.
Proof.
  revert w0; induction opts as [|o opts IH]; intro w0; cbn; [split; [intro H; exfalso; apply H; reflexivity|discriminate]|].
  destruct (is_end o); cbn; [split; [reflexivity|discriminate]|apply IH].
Qed.

Lemma usage_lines_some W opts : existsb is_end opts = true ->
  usage_lines W opts <> None <-> Forall (fun o => help o <> None) (before_end opts).
Proof.
  induction opts as [|o opts IH]; intro He; [discriminate He|].
  cbn in He |- *. destruct (is_end o) eqn:Eo; [split; [constructor|discriminate]|].
  specialize (IH He). rewrite Forall_cons_iff, <- IH.
  assert (Hl : usage_line W o <> None <-> help o <> None).
  { unfold usage_line. destruct (type o); cbv zeta; try destruct (Nat.leb _ _);
      destruct (help o); split; intros H1 H2; try discriminate H2; apply H1; reflexivity. }
  rewrite <- Hl.
  destruct (usage_line W o), (usage_lines W opts); split; try congruence; intuition congruence.
Qed.

(** X5: [Argparser_usage] has a defined behaviour exactly when the option
    table has its END entry and every entry before END has a help text. *)
Theorem usage_defined s :
  Argparser_usage s <> None <->
  existsb is_end (options s) = true /\ Forall (fun o => help o <> None) (before_end (options s)).
Proof.
  unfold Argparser_usage, usage_opts_width.
  destruct (usage_width_loop (options s) 0) as [W0|] eqn:E.
  - assert (He : existsb is_end (options s) = true)
      by (apply (usage_width_loop_some _ 0); rewrite E; discriminate).
    rewrite <- (usage_lines_some (W0 + 4) _ He).
    destruct (usage_lines _ _) as [body|]; split.
    + intros _; split; [exact He|discriminate].
    + intros _; discriminate.
    + intro H; exfalso; apply H; reflexivity.
    + intros [_ H]; exfalso; apply H; reflexivity.
  - split; [intro H; exfalso; apply H; reflexivity|].
    intros [He _]. apply (usage_width_loop_some _ 0) in He. contradiction.
Qed.

Lemma usage_help_column_witness :
  Nat.modulo 16 4 = 0%nat /\ (String.length (option_label opt_color) <= 16)%nat /\
  usage_line 16 opt_color =
    match help opt_color with
    | Some h => Some (option_label opt_color ++ spaces (16 + 2 - String.length (option_label opt_color)) ++ cstr h ++ NL)%string
    | None => None
    end.
Proof.
  apply (usage_help_column [opt_color; opt_help; END]); [reflexivity|left; reflexivity|discriminate].
Defined.

(** ** [parse] on a fresh handle: bounds and the exit paths *)

(** [Argparser_usage] reads only the configuration of the handle. *)
Lemma usage_cfg s s' : cfg s = cfg s' -> Argparser_usage s = Argparser_usage s'.
Proof.
  unfold cfg. intro H. injection H as _ Ho Hu Hd He _.
  unfold Argparser_usage. rewrite Ho, Hu, Hd, He. reflexivity.
Qed.

Lemma usage_some s : existsb is_end (options s) = true ->
  Forall (fun o => help o <> None) (before_end (options s)) -> Argparser_usage s <> None.
Proof.
  intros He Hh. unfold Argparser_usage, usage_opts_width.
  destruct (usage_width_loop (options s) 0) as [W0|] eqn:E.
  - destruct (usage_lines _ _) as [body|] eqn:E2; [discriminate|].
    exfalso. apply (proj2 (usage_lines_some (W0 + 4) _ He) Hh). exact E2.
  - apply (usage_width_loop_some _ 0) in He. contradiction.
Qed.



(** ** Extra properties of the buckets: [addEntryToBucket], [calculateTotals] *)

Lemma cstr_idem s : cstr (cstr s) = cstr s.
Proof.
  induction s as [|c s IH]; cbn; [reflexivity|].
  destruct (Ascii.eqb c NUL) eqn:E; cbn; [reflexivity|]. rewrite E, IH. reflexivity.
Qed.

(** The three outcomes of the [while] loop of [addEntryToBucket]. *)
Lemma bucket_walk_cases bs cat cents :
  (bucket_walk bs cat cents = NotFound /\ bucket_total bs cat = None) \/
  (exists t, bucket_walk bs cat cents = Overflow /\ bucket_total bs cat = Some t /\
             in_long (t + cents) = false) \/
  (exists t bs', bucket_walk bs cat cents = Updated bs' /\ bucket_total bs cat = Some t /\
     in_long (t + cents) = true /\ categories bs' = categories bs /\
     sum_totals bs' = (sum_totals bs + cents)%Z /\
     forall c, bucket_total bs' c =
       if String.eqb (cstr c) (cstr cat) then Some (t + cents)%Z else bucket_total bs c).
Proof.
  induction bs as [|b rest IH]; [left; split; reflexivity|].
  cbn [bucket_walk bucket_total].
  destruct (String.eqb (cstr cat) (cstr (category b))) eqn:Eb.
  - apply String.eqb_eq in Eb.
    destruct (in_long (totalCents b + cents)) eqn:Ei.
    + right; right. exists (totalCents b), (mkBucket (category b) (totalCents b + cents) :: rest).
      split; [reflexivity|]. split; [reflexivity|]. split; [exact Ei|].
      split; [reflexivity|]. split; [cbn; lia|].
      intro c. cbn [bucket_total category totalCents]. rewrite <- Eb.
      destruct (String.eqb (cstr c) (cstr cat)); reflexivity.
    + right; left. exists (totalCents b). repeat split; assumption.
  - destruct IH as [(E & Ht)|[(t & E & Ht & Hi)|(t & bs' & E & Ht & Hi & Hc & Hs & Hl)]];
      rewrite E.
    + left; split; [reflexivity|exact Ht].
    + right; left. exists t; repeat split; assumption.
    + right; right. exists t, (b :: bs'). split; [reflexivity|]. split; [exact Ht|].
      split; [exact Hi|]. split; [unfold categories in *; cbn; f_equal; exact Hc|].
      split; [cbn; unfold sum_totals in Hs; lia|].
      intro c. cbn [bucket_total].
      destruct (String.eqb (cstr c) (cstr (category b))) eqn:Ec; [|apply Hl].
      apply String.eqb_eq in Ec.
      destruct (String.eqb_spec (cstr c) (cstr cat)) as [Ecc|Ecc]; [|reflexivity].
      exfalso. apply String.eqb_neq in Eb. congruence.
Qed.

Lemma bucket_total_none_notin bs cat :
  bucket_total bs cat = None -> ~ In (cstr cat) (categories bs).
Proof.
  induction bs as [|b rest IH]; intros H Hin; [exact Hin|].
  cbn [bucket_total] in H. destruct Hin as [Hb|Hin].
  - rewrite Hb, String.eqb_refl in H. discriminate H.
  - destruct (String.eqb _ _); [discriminate H|exact (IH H Hin)].
Qed.

(** X6: after [addEntryToBucket bs cat cents] the category of [cat] holds its
    old total plus [cents], or [cents] when it had no bucket, and every
    other category keeps its total. *)
Theorem addEntryToBucket_lookup bs cat cents bs' :
  addEntryToBucket bs cat cents = Some bs' ->
  forall c, bucket_total bs' c =
    if String.eqb (cstr c) (cstr cat)
    then Some (match bucket_total bs cat with Some t => t + cents | None => cents end)%Z
    else bucket_total bs c.
Proof.
  unfold addEntryToBucket. intros H c.
  destruct (bucket_walk_cases bs cat cents)
    as [(E & Ht)|[(t & E & Ht & Hi)|(t & bs'' & E & Ht & Hi & Hc & Hs & Hl)]];
    rewrite E in H; inversion H; subst.
  - cbn [bucket_total category totalCents]. unfold strdup. rewrite cstr_idem, Ht. reflexivity.
  - rewrite Ht. apply Hl.
Qed.

Lemma addEntryToBucket_lookup_witness :
  addEntryToBucket [mkBucket "rent" 50000; mkBucket "food" 500] "food" 1234 =
    Some [mkBucket "rent" 50000; mkBucket "food" 1734] /\
  bucket_total [mkBucket "rent" 50000; mkBucket "food" 1734] "food" =
    (if String.eqb (cstr "food") (cstr "food")
     then Some (match bucket_total [mkBucket "rent" 50000; mkBucket "food" 500] "food" with
                | Some t => t + 1234 | None => 1234 end)%Z
     else bucket_total [mkBucket "rent" 50000; mkBucket "food" 500] "food").
Proof.
  split; [reflexivity|].
  apply (addEntryToBucket_lookup [mkBucket "rent" 50000; mkBucket "food" 500] "food" 1234).
  reflexivity.
Defined.

(** X7: [addEntryToBucket] has undefined behaviour (a [long] overflow)
    exactly when [cat] already has a bucket whose total plus [cents] leaves
    the range of [long]; a new category never overflows. *)
Theorem addEntryToBucket_overflow bs cat cents :
  addEntryToBucket bs cat cents = None <->
  exists t, bucket_total bs cat = Some t /\ in_long (t + cents) = false.
Proof.
  unfold addEntryToBucket.
  destruct (bucket_walk_cases bs cat cents)
    as [(E & Ht)|[(t & E & Ht & Hi)|(t & bs'' & E & Ht & Hi & Hc & Hs & Hl)]];
    rewrite E; split.
  - discriminate.
  - intros (t & Ht' & _). congruence.
  - intros _. exists t; split; assumption.
  - reflexivity.
  - discriminate.
  - intros (t' & Ht' & Hi'). rewrite Ht in Ht'. inversion Ht'; subst. congruence.
Qed.

(** X8: [addEntryToBucket] keeps one bucket per category: the list of
    categories is unchanged, or gets [cat] in front when it had no bucket;
    so a list without repeated categories keeps having none. *)
Theorem addEntryToBucket_categories bs cat cents bs' :
  addEntryToBucket bs cat cents = Some bs' -> NoDup (categories bs) ->
  NoDup (categories bs') /\
  (categories bs' = categories bs \/ categories bs' = cstr cat :: categories bs).
Proof.
  unfold addEntryToBucket. intros H Hnd.
  destruct (bucket_walk_cases bs cat cents)
    as [(E & Ht)|[(t & E & Ht & Hi)|(t & bs'' & E & Ht & Hi & Hc & Hs & Hl)]];
    rewrite E in H; inversion H; subst.
  - assert (Hcat : categories (mkBucket (strdup cat) cents :: bs) = cstr cat :: categories bs).
    { unfold categories, strdup. cbn. rewrite cstr_idem. reflexivity. }
    rewrite Hcat. split; [|right; reflexivity].
    constructor; [apply bucket_total_none_notin; exact Ht|exact Hnd].
  - rewrite Hc. split; [exact Hnd|left; reflexivity].
Qed.

Lemma addEntryToBucket_categories_witness :
  addEntryToBucket [mkBucket "rent" 50000] "food" 1234 =
    Some [mkBucket "food" 1234; mkBucket "rent" 50000] /\
  NoDup (categories [mkBucket "food" 1234; mkBucket "rent" 50000]) /\
  (categories [mkBucket "food" 1234; mkBucket "rent" 50000] = categories [mkBucket "rent" 50000] \/
   categories [mkBucket "food" 1234; mkBucket "rent" 50000] =
     cstr "food" :: categories [mkBucket "rent" 50000]).
Proof.
  split; [reflexivity|].
  apply (addEntryToBucket_categories [mkBucket "rent" 50000] "food" 1234); [reflexivity|].
  cbn. constructor; [intros []|constructor].
Defined.

(** X9: [addEntryToBucket bs cat cents] adds exactly [cents] to the sum of
    all bucket totals. *)
Theorem addEntryToBucket_sum bs cat cents bs' :
  addEntryToBucket bs cat cents = Some bs' -> sum_totals bs' = (sum_totals bs + cents)%Z.
Proof.
  unfold addEntryToBucket. intros H.
  destruct (bucket_walk_cases bs cat cents)
    as [(E & Ht)|[(t & E & Ht & Hi)|(t & bs'' & E & Ht & Hi & Hc & Hs & Hl)]];
    rewrite E in H; inversion H; subst.
  - unfold sum_totals; cbn [fold_right totalCents]. lia.
  - exact Hs.
Qed.

Lemma addEntryToBucket_sum_witness :
  addEntryToBucket [mkBucket "rent" (-50000); mkBucket "food" 500] "food" (-1234) =
    Some [mkBucket "rent" (-50000); mkBucket "food" (-734)] /\
  sum_totals [mkBucket "rent" (-50000); mkBucket "food" (-734)] =
    (sum_totals [mkBucket "rent" (-50000); mkBucket "food" 500] + (-1234))%Z.
Proof.
  split; [reflexivity|].
  apply (addEntryToBucket_sum [mkBucket "rent" (-50000); mkBucket "food" 500] "food"); reflexivity.
Defined.

Lemma totals_loop_spec bs : forall pos neg p n, totals_loop bs pos neg = Some (p, n) ->
  (pos <= p)%Z /\ (n <= neg)%Z /\ (p + n = pos + neg + sum_totals bs)%Z.
Proof.
  induction bs as [|b rest IH]; intros pos neg p n H; cbn [totals_loop] in H.
  - inversion H; subst. cbn. lia.
  - cbn [sum_totals fold_right]. fold (sum_totals rest).
    destruct (Z.leb_spec 0 (totalCents b)) as [Hb|Hb].
    + destruct (in_long _); [|discriminate H].
      destruct (IH _ _ _ _ H) as (H1 & H2 & H3). lia.
    + destruct (in_long _); [|discriminate H].
      destruct (IH _ _ _ _ H) as (H1 & H2 & H3). lia.
Qed.

(** X10: when [calculateTotals] has no overflow, [positiveTotalCents] is at
    least 0, [negativeTotalCents] at most 0, and the TOTAL that
    [printBuckets] prints, their sum, is the sum of all bucket totals. *)
Theorem calculateTotals_sum bs p n :
  calculateTotals bs = Some (p, n) -> (0 <= p)%Z /\ (n <= 0)%Z /\ (p + n = sum_totals bs)%Z.
Proof.
  unfold calculateTotals. intro H. destruct (totals_loop_spec bs 0 0 p n H) as (H1 & H2 & H3). lia.
Qed.

Lemma calculateTotals_sum_witness :
  (0 <= 50500)%Z /\ (-1234 <= 0)%Z /\ (50500 + -1234 = sum_totals [mkBucket "rent" 50000; mkBucket "car" (-1234); mkBucket "food" 500])%Z.
Proof.
  apply (calculateTotals_sum [mkBucket "rent" 50000; mkBucket "car" (-1234); mkBucket "food" 500]).
  reflexivity.
Defined.

(** ** Extra properties of [processEntry] *)

Lemma skipn_pre {A} (pre l : list A) : skipn (length pre) (pre ++ l) = l.
Proof. induction pre as [|x pre IH]; cbn; [reflexivity|exact IH]. Qed.

Lemma firstn_pre {A} (pre l : list A) : firstn (length pre) (pre ++ l) = pre.
Proof. induction pre as [|x pre IH]; cbn; [reflexivity|f_equal; exact IH]. Qed.

Lemma nth_skipn {A} (l : list A) n i d : nth i (skipn n l) d = nth (n + i) l d.
Proof.
  revert l; induction n as [|n IH]; intros [|x l]; cbn; try reflexivity.
  - destruct i; reflexivity.
  - apply IH.
Qed.

Lemma strcspn_tok delim tok d rest :
  forallb (fun c => negb (Ascii.eqb c NUL || existsb (Ascii.eqb c) delim)) tok = true ->
  (Ascii.eqb d NUL || existsb (Ascii.eqb d) delim) = true ->
  strcspn (tok ++ d :: rest) delim = length tok.
Proof.
  intros Ht Hd. induction tok as [|c tok IH]; cbn [app strcspn length].
  - rewrite Hd; reflexivity.
  - cbn [forallb] in Ht. apply andb_prop in Ht as [Hc Ht].
    apply negb_true_iff in Hc. rewrite Hc, (IH Ht). reflexivity.
Qed.

(** [strtok] on a buffer whose scan starts at a token [tok] ended by the
    delimiter or NUL [d]. *)
Lemma strtok_token s olds delim pre tok d rest :
  match s with Some i => i | None => olds end = length pre ->
  tok <> [] ->
  forallb (fun c => negb (Ascii.eqb c NUL || existsb (Ascii.eqb c) delim)) tok = true ->
  (Ascii.eqb d NUL || existsb (Ascii.eqb d) delim) = true ->
  strtok s delim (pre ++ tok ++ d :: rest) olds =
  if Ascii.eqb d NUL then (Some (length pre), pre ++ tok ++ d :: rest, (length pre + length tok)%nat)
  else (Some (length pre), pre ++ tok ++ NUL :: rest, S (length pre + length tok)).
Proof.
  intros Hs Hne Ht Hd. destruct tok as [|c tok']; [congruence|].
  pose proof Ht as Hc. cbn [forallb] in Hc. apply andb_prop in Hc as [Hc _].
  apply negb_true_iff, orb_false_iff in Hc as [Hc0 Hcd].
  assert (Hsp : strspn ((c :: tok') ++ d :: rest) delim = 0%nat) by (cbn; rewrite Hcd; reflexivity).
  assert (B1 : buf_at (pre ++ (c :: tok') ++ d :: rest) (length pre) = c).
  { unfold buf_at. rewrite app_nth2, Nat.sub_diag by lia. reflexivity. }
  assert (B2 : buf_at (pre ++ (c :: tok') ++ d :: rest) (length pre + length (c :: tok')) = d).
  { unfold buf_at. rewrite app_nth2 by lia.
    replace (length pre + length (c :: tok') - length pre)%nat with (length (c :: tok') + 0)%nat by lia.
    rewrite app_nth2 by lia. rewrite Nat.add_0_r, Nat.sub_diag. reflexivity. }
  unfold strtok. cbv zeta. rewrite Hs, skipn_pre, Hsp, Nat.add_0_r, skipn_pre.
  rewrite (strcspn_tok _ _ _ _ Ht Hd), B1, Hc0, B2.
  destruct (Ascii.eqb d NUL); [reflexivity|].
  assert (U : upd (pre ++ (c :: tok') ++ d :: rest) (length pre + length (c :: tok')) NUL =
              pre ++ (c :: tok') ++ NUL :: rest).
  { unfold upd. rewrite !app_assoc, <- length_app, firstn_pre.
    replace (S (length (pre ++ c :: tok'))) with (length ((pre ++ c :: tok') ++ [d])) by
      (rewrite length_app; cbn; lia).
    replace ((pre ++ c :: tok') ++ d :: rest) with (((pre ++ c :: tok') ++ [d]) ++ rest) by
      (rewrite <- app_assoc; reflexivity).
    rewrite skipn_pre. reflexivity. }
  rewrite U. reflexivity.
Qed.

Lemma strcspn_stop l delim :
  (Ascii.eqb (nth (strcspn l delim) l NUL) NUL ||
   existsb (Ascii.eqb (nth (strcspn l delim) l NUL)) delim) = true.
Proof.
  induction l as [|c l IH]; cbn [strcspn]; [reflexivity|].
  destruct (Ascii.eqb c NUL || existsb (Ascii.eqb c) delim) eqn:E; cbn [nth]; [exact E|exact IH].
Qed.

(** [strtok] on a buffer without any delimiter: the buffer is unchanged and
    the saved pointer is at a NUL. *)
Lemma strtok_nodelim s delim b olds r b' o' :
  Forall (fun c => existsb (Ascii.eqb c) delim = false) b ->
  strtok s delim b olds = (r, b', o') -> b' = b /\ buf_at b o' = NUL.
Proof.
  intros Hb. unfold strtok. cbv zeta.
  set (p := ((match s with Some i => i | None => olds end) +
             strspn (skipn (match s with Some i => i | None => olds end) b) delim)%nat).
  destruct (Ascii.eqb (buf_at b p) NUL) eqn:E0.
  - intro H; inversion H; subst. split; [reflexivity|]. apply Ascii.eqb_eq; exact E0.
  - pose proof (strcspn_stop (skipn p b) delim) as Hs. rewrite nth_skipn in Hs.
    destruct (Ascii.eqb (buf_at b (p + strcspn (skipn p b) delim)) NUL) eqn:E1.
    + intro H; inversion H; subst. split; [reflexivity|]. apply Ascii.eqb_eq; exact E1.
    + exfalso. unfold buf_at in E1. rewrite E1 in Hs. cbn [orb] in Hs.
      set (e := (p + strcspn (skipn p b) delim)%nat) in *.
      destruct (Nat.lt_ge_cases e (length b)) as [He|He].
      * rewrite Forall_forall in Hb. rewrite (Hb _ (nth_In b NUL He)) in Hs. discriminate Hs.
      * rewrite nth_overflow in E1 by exact He. discriminate E1.
Qed.

(** [strtok(NULL, delim)] with the saved pointer at a NUL returns NULL. *)
Lemma strtok_at_nul delim b o :
  existsb (Ascii.eqb NUL) delim = false -> buf_at b o = NUL -> strtok None delim b o = (None, b, o).
Proof.
  intros Hd Hb. unfold strtok. cbv zeta.
  assert (H0 : strspn (skipn o b) delim = 0%nat).
  { assert (Hn : nth 0 (skipn o b) NUL = NUL) by (rewrite nth_skipn, Nat.add_0_r; exact Hb).
    destruct (skipn o b) as [|c l]; [reflexivity|]. cbn in Hn. subst c. cbn. rewrite Hd. reflexivity. }
  rewrite H0, Nat.add_0_r, Hb. reflexivity.
Qed.

Lemma Forall_firstn' {A} (P : A -> Prop) n l : Forall P l -> Forall P (firstn n l).
Proof.
  revert l; induction n as [|n IH]; intros [|x l] H; cbn; try constructor.
  - inversion H; assumption.
  - inversion H; subst. apply IH; assumption.
Qed.

Lemma Forall_skipn' {A} (P : A -> Prop) n l : Forall P l -> Forall P (skipn n l).
Proof.
  revert l; induction n as [|n IH]; intros [|x l] H; cbn; try exact H; try constructor.
  inversion H; subst. apply IH; assumption.
Qed.

Lemma Forall_upd {A} (P : A -> Prop) l i x : P x -> Forall P l -> Forall P (upd l i x).
Proof.
  intros Hx Hl. unfold upd. apply Forall_app. split.
  - apply Forall_firstn'; exact Hl.
  - constructor; [exact Hx|apply Forall_skipn'; exact Hl].
Qed.

(** [strtok] writes nothing but NUL into the buffer. *)
Lemma strtok_Forall (P : ascii -> Prop) s delim b olds r b' o' :
  P NUL -> Forall P b -> strtok s delim b olds = (r, b', o') -> Forall P b'.
Proof.
  intros HN Hb. unfold strtok. cbv zeta.
  destruct (Ascii.eqb _ NUL); [intro H; inversion H; subst; exact Hb|].
  destruct (Ascii.eqb _ NUL); intro H; inversion H; subst; [exact Hb|].
  apply Forall_upd; assumption.
Qed.

(** A line without [','] or ['.'] never reaches [addEntryToBucket]: the
    [cents] field is always NULL. *)
Lemma processEntry_no_currency inverse lineno line bs :
  Forall (fun c => c <> ","%char /\ c <> "."%char) line ->
  exists b4, Forall (fun c => In c line \/ c = NUL) b4 /\
    processEntry inverse lineno line bs =
      if Nat.eqb (strspn b4 [" "%char; CR; LF; TAB]) (strlen (string_of_list_ascii b4))
      then Some (bs, []) else Some (bs, [Warning lineno]).
Proof.
  intros Hl. unfold processEntry.
  destruct (strtok (Some 0%nat) SEPARATOR_CSV line 0) as [[day b1] o1] eqn:E1.
  destruct (strtok None SEPARATOR_CSV b1 o1) as [[cat b2] o2] eqn:E2.
  destruct (strtok None SEPARATOR_CURRENCY b2 o2) as [[euros b3] o3] eqn:E3.
  set (P := fun c => c <> ","%char /\ c <> "."%char).
  assert (HP : P NUL) by (split; discriminate).
  pose proof (strtok_Forall P _ _ _ _ _ _ _ HP Hl E1) as H1.
  pose proof (strtok_Forall P _ _ _ _ _ _ _ HP H1 E2) as H2.
  assert (H2' : Forall (fun c => existsb (Ascii.eqb c) SEPARATOR_CURRENCY = false) b2).
  { eapply Forall_impl; [|exact H2]. intros c [Hc1 Hc2]. cbn.
    destruct (Ascii.eqb_spec c ","%char); [contradiction|].
    destruct (Ascii.eqb_spec c "."%char); [contradiction|reflexivity]. }
  destruct (strtok_nodelim _ _ _ _ _ _ _ H2' E3) as [-> Hnul].
  rewrite (strtok_at_nul SEPARATOR_CSV b2 o3 eq_refl Hnul).
  exists b2. split.
  - set (Q := fun c => In c line \/ c = NUL).
    assert (HQ : Q NUL) by (right; reflexivity).
    assert (Hq : Forall Q line) by (apply Forall_forall; intros c Hc; left; exact Hc).
    exact (strtok_Forall Q _ _ _ _ _ _ _ HQ (strtok_Forall Q _ _ _ _ _ _ _ HQ Hq E1) E2).
  - destruct day, cat, euros; reflexivity.
Qed.

(** X11: a line without a [','] or ['.'] (no euros and cents separator) is never
    booked: the buckets are left as they are, and at most a warning for the
    line is printed. *)
Theorem processEntry_without_separator inverse lineno line bs :
  ~ In ","%char line -> ~ In "."%char line ->
  processEntry inverse lineno line bs = Some (bs, []) \/
  processEntry inverse lineno line bs = Some (bs, [Warning lineno]).
Proof.
  intros Hc Hd.
  assert (Hl : Forall (fun c => c <> ","%char /\ c <> "."%char) line).
  { apply Forall_forall. intros c Hin. split; intros ->; contradiction. }
  destruct (processEntry_no_currency inverse lineno line bs Hl) as (b4 & _ & ->).
  destruct (Nat.eqb _ _); [left|right]; reflexivity.
Qed.

Lemma processEntry_without_separator_witness :
  processEntry 0 7 (list_ascii_of_string "2019-02-01 food 12" ++ [LF; NUL]) [] = Some ([], []) \/
  processEntry 0 7 (list_ascii_of_string "2019-02-01 food 12" ++ [LF; NUL]) [] = Some ([], [Warning 7]).
Proof.
  apply processEntry_without_separator; cbn; intuition discriminate.
Defined.

Lemma strspn_blank b :
  Forall (fun c => In c [" "%char; TAB; CR; LF; NUL]) b ->
  strspn b [" "%char; CR; LF; TAB] = strlen (string_of_list_ascii b).
Proof.
  induction b as [|c b IH]; intro H; [reflexivity|].
  inversion H as [|? ? Hc Hb]; subst.
  destruct Hc as [<-|[<-|[<-|[<-|[<-|[]]]]]]; cbn; try reflexivity; f_equal; apply IH; exact Hb.
Qed.

(** X12: a blank line, made only of spaces, tabs, carriage returns and line
    feeds up to its NUL, is ignored without a warning and leaves the
    buckets unchanged. *)
Theorem processEntry_blank_line inverse lineno line bs :
  Forall (fun c => In c [" "%char; TAB; CR; LF; NUL]) line ->
  processEntry inverse lineno line bs = Some (bs, []).
Proof.
  intros Hl.
  assert (Hl' : Forall (fun c => c <> ","%char /\ c <> "."%char) line).
  { eapply Forall_impl; [|exact Hl]. intros c Hc.
    destruct Hc as [<-|[<-|[<-|[<-|[<-|[]]]]]]; split; discriminate. }
  destruct (processEntry_no_currency inverse lineno line bs Hl') as (b4 & H4 & ->).
  rewrite strspn_blank, Nat.eqb_refl; [reflexivity|].
  eapply Forall_impl; [|exact H4]. intros c [Hc| ->].
  - rewrite Forall_forall in Hl. exact (Hl c Hc).
  - right; right; right; right; left; reflexivity.
Qed.

Lemma processEntry_blank_line_witness :
  processEntry 0 3 [" "%char; TAB; CR; LF; NUL] [mkBucket "food" 500] = Some ([mkBucket "food" 500], []).
Proof.
  apply processEntry_blank_line.
  apply Forall_forall. intros c Hc.
  destruct Hc as [<-|[<-|[<-|[<-|[<-|[]]]]]]; cbn; auto 6.
Defined.

Lemma forallb_imp (f g : ascii -> bool) l :
  (forall c, f c = true -> g c = true) -> forallb f l = true -> forallb g l = true.
Proof.
  intros Hfg. induction l as [|c l IH]; cbn; [reflexivity|].
  intro H. apply andb_prop in H as [H1 H2]. rewrite (Hfg c H1), (IH H2). reflexivity.
Qed.

Lemma digit_facts c : is_digit c = true ->
  digit_value c = digit c /\ (0 <= digit c < 10)%Z /\ is_space c = false /\
  negb (Ascii.eqb c NUL || existsb (Ascii.eqb c) SEPARATOR_CSV) = true /\
  negb (Ascii.eqb c NUL || existsb (Ascii.eqb c) SEPARATOR_CURRENCY) = true.
Proof.
  unfold is_digit. intro H. apply andb_prop in H as [H1 H2].
  apply Nat.leb_le in H1. apply Nat.leb_le in H2.
  assert (Hne : forall x, (nat_of_ascii x < 48 \/ 57 < nat_of_ascii x)%nat -> Ascii.eqb c x = false).
  { intros x Hx. destruct (Ascii.eqb_spec c x) as [->|]; [lia|reflexivity]. }
  split; [|split; [|split; [|split]]].
  - unfold digit_value, digit. cbv zeta.
    rewrite (proj2 (Z.leb_le 48 _)), (proj2 (Z.leb_le _ 57)) by lia. reflexivity.
  - unfold digit. lia.
  - unfold is_space. rewrite (proj2 (Nat.leb_gt (nat_of_ascii c) 13)), (proj2 (Nat.eqb_neq _ 32)) by lia.
    rewrite andb_false_r. reflexivity.
  - unfold SEPARATOR_CSV. cbn [existsb].
    rewrite !Hne by (cbn; lia). reflexivity.
  - unfold SEPARATOR_CURRENCY. cbn [existsb].
    rewrite !Hne by (cbn; lia). reflexivity.
Qed.

Lemma nondigit_value c : is_digit c = false -> (10 <= digit_value c)%Z.
Proof.
  unfold is_digit, digit_value. intro H. cbv zeta.
  assert (Hr : (nat_of_ascii c < 48 \/ 57 < nat_of_ascii c)%nat).
  { destruct (Nat.leb_spec 48 (nat_of_ascii c)), (Nat.leb_spec (nat_of_ascii c) 57);
      cbn in H; try discriminate H; lia. }
  repeat match goal with |- context [Z.leb ?a ?b] => destruct (Z.leb_spec a b) end;
    cbn [andb]; lia.
Qed.

Lemma scan_digits_app ds sfx : forall acc k,
  forallb is_digit ds = true -> match sfx with [] => True | c :: _ => is_digit c = false end ->
  scan_digits 10 (ds ++ sfx) acc k =
    (fold_left (fun a c => (10 * a + digit c)%Z) ds acc, (k + length ds)%nat).
Proof.
  induction ds as [|d ds IH]; intros acc k Hd Hs; cbn [app fold_left length].
  - destruct sfx as [|c sfx]; cbn [scan_digits]; [rewrite Nat.add_0_r; reflexivity|].
    rewrite (proj2 (Z.ltb_ge _ _) (nondigit_value c Hs)). rewrite Nat.add_0_r; reflexivity.
  - cbn [forallb] in Hd. apply andb_prop in Hd as [Hd1 Hd].
    destruct (digit_facts d Hd1) as (Hv & Hr & _).
    cbn [scan_digits]. rewrite Hv, (proj2 (Z.ltb_lt _ _)) by lia.
    rewrite IH by assumption. rewrite (Z.mul_comm acc 10). f_equal. lia.
Qed.

Lemma fold_digits_nonneg ds : forall acc, (0 <= acc)%Z -> forallb is_digit ds = true ->
  (0 <= fold_left (fun a c => (10 * a + digit c)%Z) ds acc)%Z.
Proof.
  induction ds as [|d ds IH]; intros acc Ha Hd; cbn [fold_left]; [exact Ha|].
  cbn [forallb] in Hd. apply andb_prop in Hd as [Hd1 Hd].
  destruct (digit_facts d Hd1) as (_ & Hr & _). apply IH; [lia|exact Hd].
Qed.

Lemma long_to_int_small v : (INT_MIN <= v <= INT_MAX)%Z -> long_to_int v = v.
Proof.
  unfold long_to_int, INT_MIN, INT_MAX. intro H. cbv zeta.
  destruct (Z.leb_spec 0 v).
  - rewrite Z.mod_small by lia. rewrite (proj2 (Z.leb_gt _ _)) by lia. reflexivity.
  - assert (Hm : (v mod 2 ^ 32 = v + 2 ^ 32)%Z).
    { symmetry. apply Z.mod_unique with (-1)%Z; lia. }
    rewrite Hm, (proj2 (Z.leb_le _ _)) by lia. lia.
Qed.

Lemma sign_digit l : match l with [] => False | d :: _ => is_digit d = true end ->
  match l with
  | "-"%char :: _ => (true, 1%nat)
  | "+"%char :: _ => (false, 1%nat)
  | _ => (false, 0%nat)
  end = (false, 0%nat).
Proof.
  destruct l as [|d l]; [intros []|].
  intro H. destruct d as [[] [] [] [] [] [] [] []]; try reflexivity; discriminate H.
Qed.

(** [atoi] on an optional minus sign, decimal digits and a text that does
    not start with a digit. *)
Lemma atoi_digits (neg : bool) ds sfx :
  ds <> [] -> forallb is_digit ds = true ->
  match sfx with [] => True | c :: _ => is_digit c = false end ->
  (decimal ds <= INT_MAX)%Z ->
  atoi (string_of_list_ascii ((if neg then ["-"%char] else []) ++ ds ++ sfx)) =
  (if neg then - decimal ds else decimal ds)%Z.
Proof.
  intros Hne Hd Hs Hb. unfold atoi, strtol10.
  rewrite list_ascii_of_string_of_list_ascii.
  destruct ds as [|d ds']; [congruence|].
  pose proof Hd as Hd1. cbn [forallb] in Hd1. apply andb_prop in Hd1 as [Hd1 _].
  destruct (digit_facts d Hd1) as (_ & _ & Hsp & _).
  pose proof (fold_digits_nonneg (d :: ds') 0 (Z.le_refl 0) Hd) as Hnn.
  assert (Hc : count_spaces ((if neg then ["-"%char] else []) ++ (d :: ds') ++ sfx) = 0%nat)
    by (destruct neg; cbn [app count_spaces]; [reflexivity|rewrite Hsp; reflexivity]).
  rewrite Hc. destruct neg.
  - cbn [app skipn]. cbn [skipn]. change (d :: ds' ++ sfx) with ((d :: ds') ++ sfx).
    rewrite scan_digits_app by assumption. fold (decimal (d :: ds')).
    unfold decimal in *.
    rewrite (proj2 (Z.ltb_ge LONG_MAX _)), (proj2 (Z.ltb_ge _ LONG_MIN))
      by (unfold LONG_MAX, LONG_MIN, INT_MAX in *; lia).
    apply long_to_int_small. unfold INT_MIN, INT_MAX in *. lia.
  - change (skipn 0 ([] ++ (d :: ds') ++ sfx)) with (d :: (ds' ++ sfx)).
    rewrite sign_digit by exact Hd1.
    change (skipn 0 (d :: ds' ++ sfx)) with ((d :: ds') ++ sfx).
    rewrite scan_digits_app by assumption. fold (decimal (d :: ds')).
    unfold decimal in *.
    rewrite (proj2 (Z.ltb_ge LONG_MAX _)), (proj2 (Z.ltb_ge _ LONG_MIN))
      by (unfold LONG_MAX, LONG_MIN, INT_MAX in *; lia).
    apply long_to_int_small. unfold INT_MIN, INT_MAX in *. lia.
Qed.

Ltac list_norm := repeat (progress (rewrite <- ?app_assoc; cbn [app])).
Ltac len_solve := repeat (progress (rewrite ?length_app; cbn [length])); lia.

(** One call of [strtok] that finds the token [tok] ended by the delimiter
    [d], which it overwrites with NUL. *)
Lemma strtok_step s olds delim b pre tok d rest p' b' o' :
  b = pre ++ tok ++ d :: rest -> match s with Some i => i | None => olds end = length pre ->
  tok <> [] -> forallb (fun c => negb (Ascii.eqb c NUL || existsb (Ascii.eqb c) delim)) tok = true ->
  existsb (Ascii.eqb d) delim = true -> Ascii.eqb d NUL = false ->
  p' = length pre -> b' = pre ++ tok ++ NUL :: rest -> o' = S (length pre + length tok) ->
  strtok s delim b olds = (Some p', b', o').
Proof.
  intros -> Hs Hne Ht Hd Hd0 -> -> ->.
  rewrite (strtok_token s olds delim pre tok d rest Hs Hne Ht) by (rewrite Hd, orb_true_r; reflexivity).
  rewrite Hd0. reflexivity.
Qed.

(** One call of [strtok] that finds the token [tok] ended by NUL. *)
Lemma strtok_last s olds delim b pre tok rest p' o' :
  b = pre ++ tok ++ NUL :: rest -> match s with Some i => i | None => olds end = length pre ->
  tok <> [] -> forallb (fun c => negb (Ascii.eqb c NUL || existsb (Ascii.eqb c) delim)) tok = true ->
  p' = length pre -> o' = (length pre + length tok)%nat ->
  strtok s delim b olds = (Some p', b, o').
Proof.
  intros -> Hs Hne Ht -> ->.
  rewrite (strtok_token s olds delim pre tok NUL rest Hs Hne Ht eq_refl). reflexivity.
Qed.

Lemma cstr_tok tok rest : forallb (fun c => negb (Ascii.eqb c NUL)) tok = true ->
  cstr (string_of_list_ascii (tok ++ NUL :: rest)) = string_of_list_ascii tok.
Proof.
  induction tok as [|c tok IH]; cbn [app string_of_list_ascii forallb]; [reflexivity|].
  intro H. apply andb_prop in H as [H1 H2]. apply negb_true_iff in H1.
  cbn [cstr]. rewrite H1, (IH H2). reflexivity.
Qed.

Lemma buf_str_at b pre tok rest p :
  b = pre ++ tok ++ NUL :: rest -> p = length pre ->
  forallb (fun c => negb (Ascii.eqb c NUL)) tok = true ->
  buf_str b p = string_of_list_ascii tok.
Proof. intros -> -> Ht. unfold buf_str. rewrite skipn_pre. apply cstr_tok; exact Ht. Qed.

Lemma atoi_cents cs : forallb is_digit cs = true -> (decimal cs <= INT_MAX)%Z ->
  atoi (string_of_list_ascii (cs ++ [LF])) = decimal cs.
Proof.
  intros Hd Hb. destruct cs as [|c cs]; [reflexivity|].
  exact (atoi_digits false (c :: cs) [LF] ltac:(discriminate) Hd eq_refl Hb).
Qed.

Lemma field_char_csv c : field_char c = negb (Ascii.eqb c NUL || existsb (Ascii.eqb c) SEPARATOR_CSV).
Proof.
  unfold field_char, SEPARATOR_CSV. cbn [existsb].
  destruct (Ascii.eqb c " "), (Ascii.eqb c TAB), (Ascii.eqb c NUL); reflexivity.
Qed.

Lemma no_nul_of (delim : list ascii) l :
  forallb (fun c => negb (Ascii.eqb c NUL || existsb (Ascii.eqb c) delim)) l = true ->
  forallb (fun c => negb (Ascii.eqb c NUL)) l = true.
Proof.
  apply forallb_imp. intros c H. apply negb_true_iff in H. apply orb_false_iff in H as [H _].
  rewrite H. reflexivity.
Qed.

(** X13: How [processEntry] reads a well-formed line "DAY CATEGORY EUROS,CENTS"
    (fields free of blanks and NUL, euros a run of digits with an optional
    minus sign, cents a possibly empty run of digits, each within int range):
    it books 100 * euros + cents, negated for a minus sign and again under
    --inverse, on the category. The sign is read from the euros value, so a
    line with euros "-0" books the cents as a positive amount. *)
Theorem processEntry_fields (inverse lineno : Z) day cat (neg : bool) ds cs bs :
  day <> [] -> forallb field_char day = true ->
  cat <> [] -> forallb field_char cat = true ->
  ds <> [] -> forallb is_digit ds = true -> forallb is_digit cs = true ->
  (100 * decimal ds <= INT_MAX)%Z -> (decimal cs <= INT_MAX)%Z ->
  processEntry inverse lineno
    (day ++ " "%char :: cat ++ " "%char :: ((if neg then ["-"%char] else []) ++ ds) ++
     ","%char :: cs ++ [LF; NUL]) bs =
  let amount := if neg && (0 <? decimal ds)%Z then (- (100 * decimal ds + decimal cs))%Z
                else (100 * decimal ds + decimal cs)%Z in
  match addEntryToBucket bs (string_of_list_ascii cat)
          (if Z.eqb inverse 0 then amount else (- amount)%Z) with
  | Some bs' => Some (bs', [])
  | None => None
  end.
Proof.
  intros Hday Hfd Hcat Hfc Hds Hdd Hdc Hbd Hbc.
  assert (Hnn : (0 <= decimal ds)%Z) by (apply fold_digits_nonneg; [lia|exact Hdd]).
  assert (Hnc : (0 <= decimal cs)%Z) by (apply fold_digits_nonneg; [lia|exact Hdc]).
  set (E := (if neg then ["-"%char] else []) ++ ds).
  set (R3 := cs ++ [LF; NUL]).
  assert (Td : forallb (fun c => negb (Ascii.eqb c NUL || existsb (Ascii.eqb c) SEPARATOR_CSV)) day = true)
    by (apply (forallb_imp field_char); [intros c Hc; rewrite <- field_char_csv; exact Hc|exact Hfd]).
  assert (Tc : forallb (fun c => negb (Ascii.eqb c NUL || existsb (Ascii.eqb c) SEPARATOR_CSV)) cat = true)
    by (apply (forallb_imp field_char); [intros c Hc; rewrite <- field_char_csv; exact Hc|exact Hfc]).
  assert (Te : forallb (fun c => negb (Ascii.eqb c NUL || existsb (Ascii.eqb c) SEPARATOR_CURRENCY)) E = true).
  { unfold E. rewrite forallb_app. apply andb_true_intro. split; [destruct neg; reflexivity|].
    apply (forallb_imp is_digit); [|exact Hdd]. intros c Hc. apply (digit_facts c Hc). }
  assert (Tk : forallb (fun c => negb (Ascii.eqb c NUL || existsb (Ascii.eqb c) SEPARATOR_CSV)) (cs ++ [LF]) = true).
  { rewrite forallb_app. apply andb_true_intro. split; [|reflexivity].
    apply (forallb_imp is_digit); [|exact Hdc]. intros c Hc. apply (digit_facts c Hc). }
  assert (HE : E <> []) by (unfold E; destruct neg; [discriminate|destruct ds; [congruence|discriminate]]).
  assert (HK : cs ++ [LF] <> []) by (destruct cs; discriminate).
  unfold processEntry.
  rewrite (strtok_step (Some 0%nat) 0 SEPARATOR_CSV _ [] day " "%char (cat ++ " "%char :: E ++ ","%char :: R3)
             0 (day ++ NUL :: cat ++ " "%char :: E ++ ","%char :: R3) (S (length day)))
    ; [cbv beta iota | first [reflexivity|assumption] ..].
  rewrite (strtok_step None (S (length day)) SEPARATOR_CSV _ (day ++ [NUL]) cat " "%char (E ++ ","%char :: R3)
             (S (length day)) (day ++ NUL :: cat ++ NUL :: E ++ ","%char :: R3)
             (S (S (length day + length cat))))
    ; [cbv beta iota | first [reflexivity|assumption|(list_norm; reflexivity)|len_solve] ..].
  rewrite (strtok_step None (S (S (length day + length cat))) SEPARATOR_CURRENCY _
             (day ++ NUL :: cat ++ [NUL]) E ","%char R3
             (S (S (length day + length cat))) (day ++ NUL :: cat ++ NUL :: E ++ NUL :: R3)
             (S (S (S (length day + length cat + length E)))))
    ; [cbv beta iota | first [reflexivity|assumption|(list_norm; reflexivity)|len_solve] ..].
  rewrite (strtok_last None (S (S (S (length day + length cat + length E)))) SEPARATOR_CSV _
             (day ++ NUL :: cat ++ NUL :: E ++ [NUL]) (cs ++ [LF]) []
             (S (S (S (length day + length cat + length E))))
             (S (S (S (length day + length cat + length E))) + length (cs ++ [LF]))%nat)
    ; [cbv beta iota | first [reflexivity|assumption|(unfold R3; list_norm; reflexivity)|len_solve] ..].
  rewrite (buf_str_at _ (day ++ NUL :: cat ++ [NUL]) E R3 (S (S (length day + length cat))));
    [| list_norm; reflexivity | len_solve | exact (no_nul_of _ E Te)].
  rewrite (buf_str_at _ (day ++ [NUL]) cat (E ++ NUL :: R3) (S (length day)));
    [| list_norm; reflexivity | len_solve | exact (no_nul_of _ cat Tc)].
  rewrite (buf_str_at _ (day ++ NUL :: cat ++ NUL :: E ++ [NUL]) (cs ++ [LF]) []
             (S (S (S (length day + length cat + length E)))));
    [| unfold R3; list_norm; reflexivity | len_solve | exact (no_nul_of _ _ Tk)].
  assert (HaE : atoi (string_of_list_ascii E) = (if neg then - decimal ds else decimal ds)%Z).
  { pose proof (atoi_digits neg ds [] Hds Hdd I ltac:(lia)) as H.
    rewrite app_nil_r in H. exact H. }
  rewrite HaE, (atoi_cents cs Hdc Hbc).
  assert (Hin : in_int ((if neg then - decimal ds else decimal ds) * 100)%Z = true).
  { unfold in_int, INT_MIN, INT_MAX in *.
    apply andb_true_intro; split; apply Z.leb_le; destruct neg; lia. }
  rewrite Hin. cbn [negb]. cbv zeta.
  assert (HT : (if (0 <=? (if neg then - decimal ds else decimal ds) * 100)%Z
                then ((if neg then - decimal ds else decimal ds) * 100 + decimal cs)%Z
                else ((if neg then - decimal ds else decimal ds) * 100 - decimal cs)%Z) =
               (if neg && (0 <? decimal ds)%Z then (- (100 * decimal ds + decimal cs))%Z
                else (100 * decimal ds + decimal cs)%Z)).
  { destruct neg; cbn [andb];
      destruct (Z.ltb_spec 0 (decimal ds));
      match goal with |- context [(0 <=? ?x)%Z] => destruct (Z.leb_spec 0 x) end; lia. }
  rewrite HT. reflexivity.
Qed.

Lemma processEntry_fields_witness :
  processEntry 0 1 (list_ascii_of_string "2019-02-01" ++ " "%char :: list_ascii_of_string "food" ++
                    " "%char :: (["-"%char] ++ list_ascii_of_string "0") ++ ","%char ::
                    list_ascii_of_string "50" ++ [LF; NUL]) [mkBucket "food" 500]
  = Some ([mkBucket "food" 550], []).
Proof.
  rewrite (processEntry_fields 0 1 (list_ascii_of_string "2019-02-01") (list_ascii_of_string "food")
             true (list_ascii_of_string "0") (list_ascii_of_string "50") [mkBucket "food" 500]);
    [vm_compute; reflexivity | discriminate | reflexivity | discriminate | reflexivity
    | discriminate | reflexivity | reflexivity
    | apply Z.leb_le; vm_compute; reflexivity | apply Z.leb_le; vm_compute; reflexivity].
Defined.
